(** * BedrockLogs: the observation recorder of LLM_eval/BedRockLogger/observability.py

    A shallow embedding of the class [BedrockLogs]: its constructor, the
    nested-key finder [find_keys], the session resolver
    [extract_session_id], the trace step annotator [handle_agent_feature]
    and the wrapper built by [watch].

    Payloads are JSON-like trees.  A Python [float] is an IEEE-754 binary64
    number, which is what Rocq's primitive floats are, so latencies are
    computed with [PrimFloat.sub].  A Python [dict] is an association list
    in insertion order whose keys are strings, as the keys of a JSON object
    are; the in-place updates of the source become functional
    updates at the same position of the tree (no object occurs at two
    positions of a payload).  What the code prints is left out. *)

From Stdlib Require Import ZArith String List Floats Lia.
From stdpp Require Import base option list strings pretty.

#[local] Set Warnings "-register-all".
#[local] Open Scope string_scope.
#[local] Open Scope Z_scope.
#[local] Open Scope list_scope.

(** ** Python values *)

Inductive value : Type :=
| VNone
| VBool (b : bool)
| VInt (n : Z)
| VFloat (x : float)
| VStr (s : string)
| VList (items : list value)
| VDict (entries : list (string * value)).

(** A path step: a mapping key or a sequence index. *)
Inductive pstep : Type :=
| Key (k : string)
| Index (i : nat).

Definition path := list pstep.

(** ** Exceptions and results *)

Inductive exn : Type :=
| ValueError (msg : string)
| TypeError
| IndexError
| KeyError (k : string)
| AttributeError (attr : string)
| ClientError (code : string)
| Exception (msg : string).

Inductive result (A : Type) : Type :=
| Ok (a : A)
| Raise (e : exn).

Arguments Ok {A} a.
Arguments Raise {A} e.

(** ** Association lists as dicts *)

Section Dict.
Context {V : Type}.

(** [key in d] *)
Fixpoint dict_mem (k : string) (d : list (string * V)) : bool :=
  match d with
  | [] => false
  | (k', _) :: d' => if String.eqb k' k then true else dict_mem k d'
  end.

(** [d.get(key)] *)
Fixpoint dict_get (k : string) (d : list (string * V)) : option V :=
  match d with
  | [] => None
  | (k', v) :: d' => if String.eqb k' k then Some v else dict_get k d'
  end.

(** [d[key] = v]: an existing key keeps its position, a new key goes last. *)
Fixpoint dict_set (k : string) (v : V) (d : list (string * V)) : list (string * V) :=
  match d with
  | [] => [(k, v)]
  | (k', v') :: d' =>
      if String.eqb k' k then (k', v) :: d' else (k', v') :: dict_set k v d'
  end.

(** [d.update(other)] *)
Definition dict_update (d other : list (string * V)) : list (string * V) :=
  fold_left (fun acc kv => dict_set (fst kv) (snd kv) acc) other d.
End Dict.

(** ** Operators of the language on values *)

(** [needle in haystack] on strings. *)
Fixpoint is_substring (needle hay : string) : bool :=
  if String.prefix needle hay then true
  else match hay with
       | EmptyString => false
       | String _ hay' => is_substring needle hay'
       end.

(** [key in v] for a string [key]. *)
Definition contains (key : string) (v : value) : result bool :=
  match v with
  | VDict d => Ok (dict_mem key d)
  | VList items =>
      Ok (existsb (fun x => match x with VStr s => String.eqb s key | _ => false end) items)
  | VStr s => Ok (is_substring key s)
  | _ => Raise TypeError
  end.

(** [v[key]] for a string [key]. *)
Definition getitem (v : value) (key : string) : result value :=
  match v with
  | VDict d =>
      match dict_get key d with
      | Some x => Ok x
      | None => Raise (KeyError key)
      end
  | _ => Raise TypeError
  end.

(** [v[key] = x] for a string [key]. *)
Definition setitem (v : value) (key : string) (x : value) : result value :=
  match v with
  | VDict d => Ok (VDict (dict_set key x d))
  | _ => Raise TypeError
  end.

(** [v[0]].  The mappings of this development have string keys, as JSON
    objects do, so the integer [0] is the key of none of them and the lookup
    raises [KeyError(0)], written [KeyError "0"]; a Python mapping that has
    the key [0] is not a value of the model. *)
Definition first_item (v : value) : result value :=
  match v with
  | VList [] => Raise IndexError
  | VList (x :: _) => Ok x
  | VStr EmptyString => Raise IndexError
  | VStr (String c _) => Ok (VStr (String c EmptyString))
  | VDict _ => Raise (KeyError "0")
  | _ => Raise TypeError
  end.

(** [iter(v)]: what a [for] loop over [v] visits. *)
Definition iterate (v : value) : result (list value) :=
  match v with
  | VList items => Ok items
  | VDict d => Ok (map (fun kv => VStr (fst kv)) d)
  | VStr s => Ok (map (fun c => VStr (String c EmptyString)) (list_ascii_of_string s))
  | _ => Raise TypeError
  end.

(** [bool(v)] *)
Definition truthy (v : value) : bool :=
  match v with
  | VNone => false
  | VBool b => b
  | VInt n => negb (n =? 0)
  | VFloat x => negb (PrimFloat.eqb x 0%float)
  | VStr s => negb (String.eqb s EmptyString)
  | VList items => match items with [] => false | _ => true end
  | VDict d => match d with [] => false | _ => true end
  end.

Definition is_list (v : value) : bool :=
  match v with VList _ => true | _ => false end.

Definition is_float (v : value) : bool :=
  match v with VFloat _ => true | _ => false end.

(** ** [BedrockLogs.find_keys] *)

Fixpoint find_keys (dictionary : value) (key : string) (p : path)
  : list (path * value) :=
  match dictionary with
  | VDict entries =>
      (fix items (es : list (string * value)) : list (path * value) :=
         match es with
         | [] => []
         | (k, v) :: es' =>
             let new_path := p ++ [Key k] in
             (if String.eqb k key then [(new_path, v)]
              else find_keys v key new_path) ++ items es'
         end) entries
  | VList l =>
      (fix enumerate (i : nat) (xs : list value) : list (path * value) :=
         match xs with
         | [] => []
         | item :: xs' =>
             find_keys item key (p ++ [Index i]) ++ enumerate (S i) xs'
         end) 0%nat l
  | _ => []
  end.

(** The two loops of [find_keys], named. *)
Fixpoint find_in_entries (es : list (string * value)) (key : string) (p : path)
  : list (path * value) :=
  match es with
  | [] => []
  | (k, v) :: es' =>
      (if String.eqb k key then [(p ++ [Key k], v)]
       else find_keys v key (p ++ [Key k])) ++ find_in_entries es' key p
  end.

Fixpoint find_in_items (i : nat) (xs : list value) (key : string) (p : path)
  : list (path * value) :=
  match xs with
  | [] => []
  | item :: xs' =>
      find_keys item key (p ++ [Index i]) ++ find_in_items (S i) xs' key p
  end.

(** ** A state-and-exception monad

    A computation reads and updates a state of type [S] and either returns
    or raises.  State updates made before a raise stay: an attribute
    assigned before the exception keeps its new value. *)

Definition M (S A : Type) : Type := S -> S * result A.

Definition ret {S A} (a : A) : M S A := fun s => (s, Ok a).

Definition raise {S A} (e : exn) : M S A := fun s => (s, Raise e).

Definition bind {S A B} (m : M S A) (k : A -> M S B) : M S B :=
  fun s =>
    match m s with
    | (s', Ok a) => k a s'
    | (s', Raise e) => (s', Raise e)
    end.

Definition lift {S A} (r : result A) : M S A := fun s => (s, r).

Definition get {S} : M S S := fun s => (s, Ok s).

Definition modify {S} (f : S -> S) : M S unit := fun s => (f s, Ok tt).

Declare Scope monad_scope.
Delimit Scope monad_scope with monad.
Notation "x <- m ;; k" := (bind m (fun x => k))
  (at level 100, m at next level, right associativity) : monad_scope.
Notation "m ;;; k" := (bind m (fun _ => k))
  (at level 100, right associativity) : monad_scope.
#[local] Open Scope monad_scope.

(** A [for] loop whose body may replace the element it visits. *)
Fixpoint for_each {S A B} (body : A -> M S B) (xs : list A) : M S (list B) :=
  match xs with
  | [] => ret []
  | x :: xs' =>
      y <- body x ;;
      ys <- for_each body xs' ;;
      ret (y :: ys)
  end.

(** Run a computation on a component of the state. *)
Definition zoom {S T A} (proj : S -> T) (inj : T -> S -> S) (m : M T A) : M S A :=
  fun s => let '(t, r) := m (proj s) in (inj t s, r).

(** ** The recorder object *)

Record BedrockLogs : Type := mkBedrockLogs {
  delivery_stream_name : string;
  experiment_id : string;
  default_call_type : string;
  feedback_variables : bool;
  s3_bucket_name : string;
  s3_region : string;
  feature_name : option string;
  step_counter : Z;
  (** [true] when the attribute holds a client. *)
  s3_client : bool;
  firehose_client : bool;
  (** [None] while the attribute is not set. *)
  session_id : option value;
  request_start_time : option float
}.

Definition VALID_FEATURE_NAMES : list string :=
  ["None"; "Agent"; "KB"; "InvokeModel"].

Definition set_step_counter (n : Z) (r : BedrockLogs) : BedrockLogs :=
  {| delivery_stream_name := delivery_stream_name r;
     experiment_id := experiment_id r;
     default_call_type := default_call_type r;
     feedback_variables := feedback_variables r;
     s3_bucket_name := s3_bucket_name r;
     s3_region := s3_region r;
     feature_name := feature_name r;
     step_counter := n;
     s3_client := s3_client r;
     firehose_client := firehose_client r;
     session_id := session_id r;
     request_start_time := request_start_time r |}.

Definition set_session_id (v : option value) (r : BedrockLogs) : BedrockLogs :=
  {| delivery_stream_name := delivery_stream_name r;
     experiment_id := experiment_id r;
     default_call_type := default_call_type r;
     feedback_variables := feedback_variables r;
     s3_bucket_name := s3_bucket_name r;
     s3_region := s3_region r;
     feature_name := feature_name r;
     step_counter := step_counter r;
     s3_client := s3_client r;
     firehose_client := firehose_client r;
     session_id := v;
     request_start_time := request_start_time r |}.

Definition set_request_start_time (t : float) (r : BedrockLogs) : BedrockLogs :=
  {| delivery_stream_name := delivery_stream_name r;
     experiment_id := experiment_id r;
     default_call_type := default_call_type r;
     feedback_variables := feedback_variables r;
     s3_bucket_name := s3_bucket_name r;
     s3_region := s3_region r;
     feature_name := feature_name r;
     step_counter := step_counter r;
     s3_client := s3_client r;
     firehose_client := firehose_client r;
     session_id := session_id r;
     request_start_time := Some t |}.

(** ** [BedrockLogs.handle_agent_feature] *)

(** The locals of one call of [handle_agent_feature] next to [self]. *)
Record frame : Type := mkFrame {
  self : BedrockLogs;
  prev_trace_time : option float
}.

Definition start_trace_time_error : exn :=
  ValueError "The key 'start_trace_time' should be present and should be a time.time() object.".

(** The block of lines 155-167, repeated at 173-185 and 190-202: [node] is
    an object for which ['start_trace_time' in node] holds. *)
Definition annotate (node : value) (request_start_time : float) : M frame value :=
  t <- lift (getitem node "start_trace_time") ;;
  match t with
  | VFloat start =>
      fr <- get ;;
      let latency :=
        match prev_trace_time fr with
        | None => PrimFloat.sub start request_start_time
        | Some prev => PrimFloat.sub start prev
        end in
      node1 <- lift (setitem node "latency" (VFloat latency)) ;;
      (* prev_trace_time = node['start_trace_time']: the key read is not the
         key just written, so this is [start] again *)
      modify (fun fr => {| self := self fr; prev_trace_time := Some start |}) ;;;
      fr' <- get ;;
      node2 <- lift (setitem node1 "step_number" (VInt (step_counter (self fr')))) ;;
      modify (fun fr =>
                {| self := set_step_counter (step_counter (self fr) + 1) (self fr);
                   prev_trace_time := prev_trace_time fr |}) ;;;
      ret node2
  | _ => raise start_trace_time_error
  end.

(** Lines 153-168 and 188-203: [data] is a dict with key ['trace']. *)
Definition annotate_trace_of (data : value) (request_start_time : float)
  : M frame value :=
  trace <- lift (getitem data "trace") ;;
  has <- lift (contains "start_trace_time" trace) ;;
  if (has : bool) then
    trace' <- annotate trace request_start_time ;;
    lift (setitem data "trace" trace')
  else ret data.

(** Lines 172-203: the body of the inner loop. *)
Definition visit_item (item : value) (request_start_time : float) : M frame value :=
  match item with
  | VDict d =>
      if dict_mem "start_trace_time" d then annotate item request_start_time
      else if dict_mem "trace" d then annotate_trace_of item request_start_time
      else ret item
  | _ => ret item
  end.

(** Lines 152-203: the body of the outer loop. *)
Definition visit_data (data : value) (request_start_time : float) : M frame value :=
  match data with
  | VDict d =>
      if dict_mem "trace" d then annotate_trace_of data request_start_time
      else ret data
  | VList l =>
      l' <- for_each (fun item => visit_item item request_start_time) l ;;
      ret (VList l')
  | _ => ret data
  end.

Definition handle_agent_feature (output_data : value) (request_start_time : float)
  : M BedrockLogs value :=
  modify (set_session_id (Some VNone)) ;;;
  elems <- lift (iterate output_data) ;;
  elems' <- zoom (fun r => {| self := r; prev_trace_time := None |})
                 (fun fr _ => self fr)
                 (for_each (fun data => visit_data data request_start_time) elems) ;;
  ret (match output_data with
       | VList _ => VList elems'
       | _ => output_data
       end).

(** ** The outside world

    The clock, the identifier generator, the formatting functions and the
    storage and streaming services are not part of the class: they are an
    environment [env] the code runs in.  The [world] counts the clock
    readings and identifiers drawn so far and logs every call made to a
    service. *)

Inductive event : Type :=
| ClientCreated (service : string) (region : option string)
| HeadBucket (bucket : string)
| CreateBucket (bucket : string) (location : option string)
| PutObject (bucket key body content_type : string)
| PutRecord (stream data : string).

Record world : Type := mkWorld {
  ticks : nat;
  uuids : nat;
  calls : list event
}.

Inductive head_outcome : Type :=
| HeadFound
| HeadClientError (code : string).

Record env : Type := mkEnv {
  (** [time.time()] at its k-th reading *)
  time_time : nat -> float;
  (** [str(uuid4())] at the k-th draw *)
  uuid4 : nat -> string;
  (** [datetime.fromtimestamp(t, tz=utc).isoformat()] *)
  isoformat : float -> string;
  (** [datetime.fromtimestamp(t).strftime("%Y-%m-%d_%H-%M-%S")] *)
  strftime : float -> string;
  json_dumps : value -> string;
  (** [int(code)] of an error code; [None] when it is not a number *)
  int_of_code : string -> option Z;
  (** the services' answers, given the calls made so far *)
  head_bucket : list event -> string -> head_outcome;
  create_bucket : list event -> string -> option string -> option exn;
  put_object : list event -> string -> string -> string -> option exn;
  put_record : list event -> string -> string -> option exn
}.

Definition str_of_exn (e : exn) : string :=
  match e with
  | ValueError msg => msg
  | TypeError => "TypeError"
  | IndexError => "IndexError"
  | KeyError k => k
  | AttributeError a => a
  | ClientError code => code
  | Exception msg => msg
  end.

Definition log_call (ev : event) : M world unit :=
  modify (fun w => {| ticks := ticks w; uuids := uuids w; calls := calls w ++ [ev] |}).

Section Environment.
Variable E : env.

Definition now : M world float :=
  fun w => ({| ticks := S (ticks w); uuids := uuids w; calls := calls w |},
            Ok (time_time E (ticks w))).

Definition new_uuid : M world string :=
  fun w => ({| ticks := ticks w; uuids := S (uuids w); calls := calls w |},
            Ok (uuid4 E (uuids w))).

(** [boto3.client(service, region_name=region)] *)
Definition boto3_client (service : string) (region : option string) : M world unit :=
  log_call (ClientCreated service region).

(** *** [BedrockLogs.ensure_bucket_exists] *)
Definition ensure_bucket_exists (has_s3_client : bool)
  (bucket_name : string) (aws_region : string) : M world unit :=
  if has_s3_client then
    w <- get ;;
    log_call (HeadBucket bucket_name) ;;;
    match head_bucket E (calls w) bucket_name with
    | HeadFound => ret tt
    | HeadClientError code =>
        match int_of_code E code with
        | None => raise (ValueError code)
        | Some error_code =>
            if error_code =? 404 then
              let location :=
                if String.eqb aws_region "us-east-1" then None else Some aws_region in
              w' <- get ;;
              log_call (CreateBucket bucket_name location) ;;;
              match create_bucket E (calls w') bucket_name location with
              | None => ret tt
              | Some e => raise e
              end
            else raise (Exception ("Failed to check or create bucket: " +:+ code))
        end
    end
  else raise (AttributeError "s3_client").

(** *** [BedrockLogs.__init__] *)

Record init_args : Type := mkInitArgs {
  arg_delivery_stream_name : option string;
  arg_experiment_id : option string;
  arg_default_call_type : string;
  arg_feature_name : option string;
  arg_feedback_variables : bool;
  arg_s3_bucket_name : option string;
  arg_s3_region : string
}.

(** The defaults of the signature. *)
Definition default_args : init_args :=
  {| arg_delivery_stream_name := None;
     arg_experiment_id := None;
     arg_default_call_type := "LLM";
     arg_feature_name := None;
     arg_feedback_variables := false;
     arg_s3_bucket_name := None;
     arg_s3_region := "us-east-1" |}.

Definition join_comma (l : list string) : string := String.concat ", " l.

Definition mem_string (s : string) (l : list string) : bool :=
  existsb (String.eqb s) l.

(** Lines 29-31. *)
Definition check_feature_name (feature : option string) : M world unit :=
  match feature with
  | Some f =>
      if mem_string f VALID_FEATURE_NAMES then ret tt
      else raise (ValueError ("Invalid feature_name '" +:+ f +:+ "'. Valid values are: "
                                +:+ join_comma VALID_FEATURE_NAMES))
  | None => ret tt
  end.

Definition init (a : init_args) : M world BedrockLogs :=
  check_feature_name (arg_feature_name a) ;;;
  let experiment :=
    match arg_experiment_id a with
    | None => "default_experiment_1"
    | Some e => e
    end in
  match arg_delivery_stream_name a with
  | None =>
      raise (ValueError "delivery_stream_name must be provided or set equals to 'local' example: delivery_stream_name='local'.")
  | Some stream =>
      match arg_s3_bucket_name a with
      | None =>
          raise (ValueError "s3_bucket_name must be provided if streaming is set equals to 's3' example: delivery_stream_name='s3'.")
      | Some bucket =>
          let obj s3 firehose :=
            {| delivery_stream_name := stream;
               experiment_id := experiment;
               default_call_type := arg_default_call_type a;
               feedback_variables := arg_feedback_variables a;
               s3_bucket_name := bucket;
               s3_region := arg_s3_region a;
               feature_name := arg_feature_name a;
               step_counter := 0;
               s3_client := s3;
               firehose_client := firehose;
               session_id := None;
               request_start_time := None |} in
          if String.eqb stream "local" then ret (obj false false)
          else if String.eqb stream "s3" then
            boto3_client "s3" (Some (arg_s3_region a)) ;;;
            ensure_bucket_exists true bucket (arg_s3_region a) ;;;
            ret (obj true false)
          else
            boto3_client "firehose" None ;;;
            ret (obj false true)
      end
  end.

(** *** The recorder in its world *)

Record state : Type := mkState {
  obj : BedrockLogs;
  wld : world
}.

Definition on_obj {A} (m : M BedrockLogs A) : M state A :=
  zoom obj (fun r st => {| obj := r; wld := wld st |}) m.

Definition on_world {A} (m : M world A) : M state A :=
  zoom wld (fun w st => {| obj := obj st; wld := w |}) m.

(** *** [BedrockLogs.save_log_to_s3] *)
Definition save_log_to_s3 (metadata : value) (object_key : string) : M state unit :=
  st <- get ;;
  let json_string := json_dumps E metadata in
  let wrapped (e : exn) : exn :=
    Exception ("Failed to save log to S3: " +:+ str_of_exn e) in
  if s3_client (obj st) then
    let bucket := s3_bucket_name (obj st) in
    on_world (log_call (PutObject bucket object_key json_string "application/json")) ;;;
    match put_object E (calls (wld st)) bucket object_key json_string with
    | None => ret tt
    | Some e => raise (wrapped e)
    end
  else raise (wrapped (AttributeError "s3_client")).

(** *** [BedrockLogs.extract_session_id] *)
Definition is_agent (r : BedrockLogs) : bool :=
  match feature_name r with
  | Some f => String.eqb f "Agent"
  | None => false
  end.

Definition extract_session_id (log_data : value) : M state value :=
  st <- get ;;
  let session_id_paths :=
    if is_agent (obj st)
    then find_keys log_data "x-amz-bedrock-agent-session-id" []
    else find_keys log_data "sessionId" [] in
  match session_id_paths with
  | (_, session_id) :: _ => ret session_id
  | [] => u <- on_world new_uuid ;; ret (VStr u)
  end.

(** *** [BedrockLogs.watch] *)

(** The wrapped function: positional and keyword arguments to a value or
    an exception.  It is not given the recorder. *)
Definition target : Type := list value -> list (string * value) -> result value.

(** What the wrapper returns: [result], [(result, metadata)] or
    [(result, run_id, observation_id)]. *)
Inductive returned : Type :=
| Result (result : value)
| ResultMetadata (result metadata : value)
| ResultIds (result run_id observation_id : value).

Definition opt_str (o : option string) : value :=
  match o with
  | Some s => VStr s
  | None => VNone
  end.

(** [dict.update] reads element [i] of a sequence as a pair: the element
    must itself be a sequence of two items, the key and the value (for a
    string its two characters, for a mapping its two keys), and the key must
    be hashable.  The keys of the record are strings; a pair whose key is a
    number, a flag or [None] would give the record a key that is no string,
    which the mappings of this development cannot hold, and is refused here
    like an unhashable key. *)
Definition update_pair (i : nat) (elem : value) : result (string * value) :=
  let wrong_length (n : nat) : result (string * value) :=
    Raise (ValueError ("dictionary update sequence element #" +:+ pretty i
                         +:+ " has length " +:+ pretty n +:+ "; 2 is required")) in
  match elem with
  | VList [k; v] =>
      match k with
      | VStr key => Ok (key, v)
      | _ => Raise TypeError
      end
  | VList l => wrong_length (length l)
  | VStr s =>
      match list_ascii_of_string s with
      | [a; b] => Ok (String a EmptyString, VStr (String b EmptyString))
      | cs => wrong_length (length cs)
      end
  | VDict d =>
      match d with
      | [(k1, _); (k2, _)] => Ok (k1, VStr k2)
      | _ => wrong_length (length d)
      end
  | _ => Raise TypeError
  end.

Fixpoint update_from_pairs (i : nat) (elems : list value)
  (metadata : list (string * value)) : result (list (string * value)) :=
  match elems with
  | [] => Ok metadata
  | elem :: rest =>
      match update_pair i elem with
      | Ok (k, v) => update_from_pairs (S i) rest (dict_set k v metadata)
      | Raise e => Raise e
      end
  end.

(** [metadata.update(other)] for the value of a keyword argument, which the
    wrapper merges when it is not empty: a mapping brings its entries, any
    other iterable is read as a sequence of pairs (so a string that is not
    empty raises [ValueError] at its first character), and a value that
    cannot be iterated raises [TypeError]. *)
Definition metadata_update (metadata : list (string * value)) (other : value)
  : result (list (string * value)) :=
  if truthy other then
    match other with
    | VDict d => Ok (dict_update metadata d)
    | _ =>
        match iterate other with
        | Ok elems => update_from_pairs 0 elems metadata
        | Raise e => Raise e
        end
    end
  else Ok metadata.

Definition kwargs_get (kwargs : list (string * value)) (k : string) (default : value)
  : value :=
  match dict_get k kwargs with
  | Some v => v
  | None => default
  end.

(** Lines 244-253: the run identifier, and the output as annotated. *)
Definition resolve_run (input_log output_data : value) (call_start : float)
  : M state (value * value) :=
  st <- get ;;
  if is_agent (obj st) then
    match output_data with
    | VNone =>
        run_id <- extract_session_id input_log ;;
        ret (run_id, output_data)
    | _ =>
        output_data' <- on_obj (handle_agent_feature output_data call_start) ;;
        head <- lift (first_item output_data') ;;
        run_id <- extract_session_id head ;;
        ret (run_id, output_data')
    end
  else
    run_id <- extract_session_id input_log ;;
    ret (run_id, output_data).

(** Lines 255-285: the record. *)
Definition assemble (call_type : option string) (kwargs : list (string * value))
  (run_id : value) (observation_id obs_timestamp : string)
  (start_time end_time logging_start_time : float) (input_log output_data : value)
  : M state (list (string * value)) :=
  st <- get ;;
  let r := obj st in
  let metadata :=
    [ ("experiment_id", VStr (experiment_id r));
      ("run_id", run_id);
      ("observation_id", VStr observation_id);
      ("obs_timestamp", VStr obs_timestamp);
      ("start_time", VStr (isoformat E start_time));
      ("end_time", VStr (isoformat E end_time));
      ("duration", VFloat (PrimFloat.sub end_time start_time));
      ("input_log", input_log);
      ("output_log", output_data);
      ("call_type",
        VStr (match call_type with
              | Some c => if String.eqb c EmptyString then default_call_type r else c
              | None => default_call_type r
              end));
      ("feature_name", opt_str (feature_name r));
      ("feedback_enabled", VBool (feedback_variables r)) ] in
  metadata <- lift (metadata_update metadata
                      (kwargs_get kwargs "additional_metadata" (VDict []))) ;;
  metadata <- lift (metadata_update metadata
                      (kwargs_get kwargs "user_prompt" (VDict []))) ;;
  logging_end_time <- on_world now ;;
  let logging_duration := PrimFloat.sub logging_end_time logging_start_time in
  ret (dict_set "logging_duration" (VFloat logging_duration) metadata).

(** Lines 287-320: hand the record to the sink and return. *)
Definition dispatch (result run_id : value) (observation_id : string) (metadata : value)
  : M state returned :=
  st <- get ;;
  let r := obj st in
  if String.eqb (delivery_stream_name r) "local" then
    ret (ResultMetadata result metadata)
  else if String.eqb (delivery_stream_name r) "s3" then
    stamp <- on_world now ;;
    let object_key :=
      "logs/" +:+ experiment_id r +:+ "/" +:+ strftime E stamp +:+ "_log.json" in
    save_log_to_s3 metadata object_key ;;;
    if feedback_variables r then ret (ResultMetadata result metadata)
    else ret (Result result)
  else
    (if firehose_client r then
       st' <- get ;;
       let data := json_dumps E metadata in
       on_world (log_call (PutRecord (delivery_stream_name r) data)) ;;;
       match put_record E (calls (wld st')) (delivery_stream_name r) data with
       | None => ret tt
       | Some e => raise e
       end
     else raise (AttributeError "put_record")) ;;;
    if feedback_variables r then
      ret (ResultIds result run_id (VStr observation_id))
    else ret (Result result).

(** Lines 209-320: the wrapper around [func]. *)
Definition inner (capture_input capture_output : bool) (call_type : option string)
  (func : target) (args : list value) (kwargs : list (string * value))
  : M state returned :=
  call_start <- on_world now ;;
  on_obj (modify (set_request_start_time call_start)) ;;;
  let input_data := if capture_input then Some args else None in
  let input_log :=
    match input_data with
    | Some (x :: _) => x
    | _ => VNone
    end in
  observation_id <- on_world new_uuid ;;
  obs_now <- on_world now ;;
  let obs_timestamp := isoformat E obs_now in
  start_time <- on_world now ;;
  result <- lift (func args kwargs) ;;
  let output_data := if capture_output then result else VNone in
  end_time <- on_world now ;;
  logging_start_time <- on_world now ;;
  resolved <- resolve_run input_log output_data call_start ;;
  let run_id : value := fst resolved in
  let output_data : value := snd resolved in
  (* when the output is captured [result] and [output_data] are one object:
     what the annotator wrote is seen through both names *)
  let result : value := if capture_output then output_data else result in
  metadata <- assemble call_type kwargs run_id observation_id obs_timestamp
                start_time end_time logging_start_time input_log output_data ;;
  dispatch result run_id observation_id (VDict metadata).

Definition watch (capture_input capture_output : bool) (call_type : option string)
  (func : target) : list value -> list (string * value) -> M state returned :=
  inner capture_input capture_output call_type func.
End Environment.

(** ** Several recorders in one process

    Instances live in a store and are named by their position in it.  A
    constructor call that raises adds no instance; a wrapped call on an
    instance writes back the state the call left, also when it raised. *)

Record process : Type := mkProcess {
  instances : list BedrockLogs;
  outside : world
}.

Inductive op : Type :=
| New (a : init_args)
| Call (i : nat) (capture_input capture_output : bool) (call_type : option string)
       (func : target) (args : list value) (kwargs : list (string * value)).

Definition exec (E : env) (o : op) (p : process) : process :=
  match o with
  | New a =>
      match init E a (outside p) with
      | (w, Ok r) => {| instances := instances p ++ [r]; outside := w |}
      | (w, Raise _) => {| instances := instances p; outside := w |}
      end
  | Call i capture_input capture_output call_type func args kwargs =>
      match instances p !! i with
      | Some r =>
          let st := fst (watch E capture_input capture_output call_type func args kwargs
                           {| obj := r; wld := outside p |}) in
          {| instances := <[i := obj st]> (instances p); outside := wld st |}
      | None => p
      end
  end.

Definition run (E : env) (ops : list op) (p : process) : process :=
  fold_left (fun p o => exec E o p) ops p.

(** The counter of instance [i], when it exists. *)
Definition counter_of (p : process) (i : nat) : option Z :=
  step_counter <$> instances p !! i.

(** ** Notions the properties are stated with *)

(** *** Occurrences of a key in a tree *)

(** [at_path t p v]: following [p] from the root of [t] leads to [v]. *)
Inductive at_path : value -> path -> value -> Prop :=
| at_here (v : value) : at_path v [] v
| at_key (es : list (string * value)) (k : string) (x : value) (p : path) (v : value) :
    In (k, x) es -> at_path x p v -> at_path (VDict es) (Key k :: p) v
| at_index (l : list value) (i : nat) (x : value) (p : path) (v : value) :
    l !! i = Some x -> at_path x p v -> at_path (VList l) (Index i :: p) v.

(** The finder as the specification words it: depth first, entries in
    insertion order, elements in index order, descending into the value of a
    match as well. *)
Fixpoint find_keys_exhaustive (t : value) (key : string) (p : path)
  : list (path * value) :=
  match t with
  | VDict entries =>
      (fix items (es : list (string * value)) : list (path * value) :=
         match es with
         | [] => []
         | (k, v) :: es' =>
             let new_path := p ++ [Key k] in
             ((if String.eqb k key then [(new_path, v)] else [])
                ++ find_keys_exhaustive v key new_path) ++ items es'
         end) entries
  | VList l =>
      (fix enumerate (i : nat) (xs : list value) : list (path * value) :=
         match xs with
         | [] => []
         | item :: xs' =>
             find_keys_exhaustive item key (p ++ [Index i]) ++ enumerate (S i) xs'
         end) 0%nat l
  | _ => []
  end.

(** The key the resolver searches for. *)
Definition session_key (r : BedrockLogs) : string :=
  if is_agent r then "x-amz-bedrock-agent-session-id" else "sessionId".

(** *** Qualifying trace nodes *)

(** The nodes the traversal rule of the annotator reaches: mappings that
    carry [start_trace_time], in traversal order. *)
Definition node_under_trace (data : value) : list value :=
  match getitem data "trace" with
  | Ok (VDict t) => if dict_mem "start_trace_time" t then [VDict t] else []
  | _ => []
  end.

Definition nodes_of_item (item : value) : list value :=
  match item with
  | VDict d =>
      if dict_mem "start_trace_time" d then [item]
      else if dict_mem "trace" d then node_under_trace item
      else []
  | _ => []
  end.

Definition nodes_of_data (data : value) : list value :=
  match data with
  | VDict d => if dict_mem "trace" d then node_under_trace data else []
  | VList l => flat_map nodes_of_item l
  | _ => []
  end.

Definition qualifying_nodes (output_data : value) : list value :=
  match output_data with
  | VList l => flat_map nodes_of_data l
  | _ => []
  end.

(** [node['start_trace_time']] when it is a float. *)
Definition start_of (node : value) : option float :=
  match getitem node "start_trace_time" with
  | Ok (VFloat s) => Some s
  | _ => None
  end.

(** The time the latency of the k-th qualifying node is measured from: the
    call's start for the first node, the previous node's start after it. *)
Definition baseline (call_start : float) (nodes : list value) (k : nat) : option float :=
  match k with
  | O => Some call_start
  | S j => nodes !! j ≫= start_of
  end.

(** A qualifying node whose [start_trace_time] is not a float. *)
Definition invalid_start (node : value) : bool :=
  match start_of node with
  | Some _ => false
  | None => true
  end.

(** Every value met under a [trace] key is a mapping. *)
Definition trace_is_mapping (data : value) : bool :=
  match getitem data "trace" with
  | Ok (VDict _) => true
  | _ => false
  end.

Definition item_shaped (item : value) : bool :=
  match item with
  | VDict d =>
      if dict_mem "start_trace_time" d then true
      else if dict_mem "trace" d then trace_is_mapping item
      else true
  | _ => true
  end.

Definition data_shaped (data : value) : bool :=
  match data with
  | VDict d => if dict_mem "trace" d then trace_is_mapping data else true
  | VList l => forallb item_shaped l
  | _ => true
  end.

Definition traces_are_mappings (output_data : value) : bool :=
  match output_data with
  | VList l => forallb data_shaped l
  | _ => true
  end.

(** ** A concrete environment, for examples *)

Definition demo_env : env :=
  {| time_time := fun k => PrimFloat.of_uint63 (Uint63.of_Z (Z.of_nat k));
     uuid4 := fun k => pretty k;
     isoformat := fun _ => "1970-01-01T00:00:00+00:00";
     strftime := fun _ => "1970-01-01_00-00-00";
     json_dumps := fun _ => "{}";
     int_of_code := fun c => if String.eqb c "404" then Some 404 else None;
     head_bucket := fun _ _ => HeadFound;
     create_bucket := fun _ _ _ => None;
     put_object := fun _ _ _ _ => None;
     put_record := fun _ _ _ => None |}.

Definition fresh_world : world := {| ticks := 0; uuids := 0; calls := [] |}.

(** A recorder as [__init__] builds it for the local sink. *)
Definition demo_recorder (feature : option string) (n : Z) : BedrockLogs :=
  {| delivery_stream_name := "local";
     experiment_id := "default_experiment_1";
     default_call_type := "LLM";
     feedback_variables := false;
     s3_bucket_name := "logging-response";
     s3_region := "us-east-1";
     feature_name := feature;
     step_counter := n;
     s3_client := false;
     firehose_client := false;
     session_id := None;
     request_start_time := None |}.

(** The state after one identifier was drawn. *)
Definition draw_uuid (st : state) : state :=
  {| obj := obj st;
     wld := {| ticks := ticks (wld st); uuids := S (uuids (wld st));
               calls := calls (wld st) |} |}.

(** [{'a': {'a': 1}}] *)
Definition nested_match : value := VDict [("a", VDict [("a", VInt 1)])].

Definition demo_state : state :=
  {| obj := demo_recorder None 0; wld := fresh_world |}.

(** *** The timeline the specification describes *)

(** A node with its latency and step number written. *)
Definition annotated (d : list (string * value)) (start base : float) (n : Z) : value :=
  VDict (dict_set "step_number" (VInt n)
           (dict_set "latency" (VFloat (PrimFloat.sub start base)) d)).

Definition base_time (call_start : float) (prev : option float) : float :=
  match prev with
  | None => call_start
  | Some p => p
  end.

(** The start time of the last node of a list, [prev] for an empty list. *)
Definition last_start (prev : option float) (nodes : list value) : option float :=
  fold_left (fun acc node => match start_of node with Some s => Some s | None => acc end)
    nodes prev.

(** Latency from the previous node (from the call's start for the first
    node) and consecutive step numbers from [n] on. *)
Fixpoint timeline (call_start : float) (prev : option float) (n : Z) (nodes : list value)
  : list value :=
  match nodes with
  | [] => []
  | node :: rest =>
      match node, start_of node with
      | VDict d, Some s =>
          annotated d s (base_time call_start prev) n
            :: timeline call_start (Some s) (n + 1) rest
      | _, _ => []
      end
  end.

(** A node the annotator accepts: a mapping whose [start_trace_time] is a
    float. *)
Definition valid_node (node : value) : Prop :=
  exists d s, node = VDict d /\ dict_get "start_trace_time" d = Some (VFloat s).

(** What a visit does to the nodes it reaches and to the frame: every node
    is valid, the nodes come out as the timeline prescribes, the counter
    has advanced by their number and the previous start time is the last
    node's. *)
Definition advances (call_start : float) (nodes nodes' : list value) (fr fr' : frame)
  : Prop :=
  Forall valid_node nodes /\
  nodes' = timeline call_start (prev_trace_time fr) (step_counter (self fr)) nodes /\
  fr' = {| self := set_step_counter
                     (step_counter (self fr) + Z.of_nat (length nodes)) (self fr);
           prev_trace_time := last_start (prev_trace_time fr) nodes |}.

(** ** An agent run, for examples

    Three steps, started at 11.5, 13.0 and 14.25, of a call started at 10.0:
    one under a top-level [trace] key, one directly in a nested sequence and
    one under the [trace] key of an element of that sequence. *)

Definition demo_output : value :=
  VList
    [ VDict [("trace", VDict [("start_trace_time", VFloat 11.5)])];
      VList
        [ VDict [("start_trace_time", VFloat 13)];
          VDict [("trace", VDict [("start_trace_time", VFloat 14.25)])] ] ].

Definition demo_annotated : value :=
  VList
    [ VDict [("trace", VDict [("start_trace_time", VFloat 11.5);
                              ("latency", VFloat 1.5);
                              ("step_number", VInt 5)])];
      VList
        [ VDict [("start_trace_time", VFloat 13);
                 ("latency", VFloat 1.5);
                 ("step_number", VInt 6)];
          VDict [("trace", VDict [("start_trace_time", VFloat 14.25);
                                  ("latency", VFloat 1.25);
                                  ("step_number", VInt 7)])] ] ].

Definition demo_agent (n : Z) : BedrockLogs := demo_recorder (Some "Agent") n.

(** [l] with [x] put in at position [i]. *)
Definition insert_at {A} (i : nat) (x : A) (l : list A) : list A :=
  take i l ++ x :: drop i l.

(** The same outcome, with [x] put back at position [i] of a returned list. *)
Definition with_element_at {S} (i : nat) (x : value) (outcome : S * result value)
  : S * result value :=
  match outcome with
  | (s, Ok (VList l)) => (s, Ok (VList (insert_at i x l)))
  | other => other
  end.

(** [{'start_trace_time': 11.5}] *)
Definition bare_step : value := VDict [("start_trace_time", VFloat 11.5)].

(** What a visit can do: return, or raise the validation error at a
    qualifying node whose start time is not a float, or raise another
    exception at a [trace] value that is not a mapping. *)
Inductive visit_outcome {A} (nodes : list value) (shaped : bool) : result A -> Prop :=
| visit_returns (a : A) :
    Forall (fun node => invalid_start node = false) nodes ->
    visit_outcome nodes shaped (Ok a)
| visit_invalid (node : value) :
    In node nodes -> invalid_start node = true ->
    visit_outcome nodes shaped (Raise start_trace_time_error)
| visit_misshaped (e : exn) :
    shaped = false -> (forall msg, e <> ValueError msg) ->
    visit_outcome nodes shaped (Raise e).

(** The world after [k] more clock readings and [u] more identifiers, with
    no call to a service. *)
Definition later (k u : nat) (w : world) : world :=
  {| ticks := (k + ticks w)%nat; uuids := (u + uuids w)%nat; calls := calls w |}.

(** The wrapper's first clock reading: the call's overall start time. *)
Definition call_start_of (E : env) (st : state) : float :=
  time_time E (ticks (wld st)).

(** The state when the wrapped function returns control: the start time is
    stored and [k] clock readings and one identifier are consumed. *)
Definition after_call (E : env) (k : nat) (st : state) : state :=
  {| obj := set_request_start_time (call_start_of E st) (obj st);
     wld := later k 1 (wld st) |}.

(** [input_log] of the wrapper. *)
Definition input_log_of (capture_input : bool) (args : list value) : value :=
  match (if capture_input then Some args else None) with
  | Some (x :: _) => x
  | _ => VNone
  end.

(** A wrapped function that fails, and one that returns what it is given. *)
Definition failing_target : target := fun _ _ => Raise (Exception "boom").

Definition constant_target (v : value) : target := fun _ _ => Ok v.

Definition agent_state : state := {| obj := demo_agent 5; wld := fresh_world |}.

(** [[{'trace': {'start_trace_time': 'noon'}}]] *)
Definition bad_output : value :=
  VList [VDict [("trace", VDict [("start_trace_time", VStr "noon")])]].

(** *** Computations that never lower a counter *)

(** [m] never lowers the measure [c] of the state, whether it returns or
    raises. *)
Definition nondecreasing {S A} (c : S -> Z) (m : M S A) : Prop :=
  forall s, c s <= c (fst (m s)).

Definition frame_counter (fr : frame) : Z := step_counter (self fr).

Definition state_counter (st : state) : Z := step_counter (obj st).

(** ** Constructor calls, for examples *)

(** [BedrockLogs(delivery_stream_name='local')] *)
Definition local_without_bucket : init_args :=
  {| arg_delivery_stream_name := Some "local";
     arg_experiment_id := None;
     arg_default_call_type := "LLM";
     arg_feature_name := None;
     arg_feedback_variables := false;
     arg_s3_bucket_name := None;
     arg_s3_region := "us-east-1" |}.

(** [BedrockLogs(delivery_stream_name='my-stream')] *)
Definition stream_without_bucket : init_args :=
  {| arg_delivery_stream_name := Some "my-stream";
     arg_experiment_id := None;
     arg_default_call_type := "LLM";
     arg_feature_name := None;
     arg_feedback_variables := false;
     arg_s3_bucket_name := None;
     arg_s3_region := "us-east-1" |}.

(** [BedrockLogs(delivery_stream_name='s3', feature_name='Bogus',
    s3_bucket_name='logging-response')] *)
Definition bogus_feature : init_args :=
  {| arg_delivery_stream_name := Some "s3";
     arg_experiment_id := None;
     arg_default_call_type := "LLM";
     arg_feature_name := Some "Bogus";
     arg_feedback_variables := false;
     arg_s3_bucket_name := Some "logging-response";
     arg_s3_region := "us-east-1" |}.

Definition missing_bucket_error : exn :=
  ValueError "s3_bucket_name must be provided if streaming is set equals to 's3' example: delivery_stream_name='s3'.".

Definition invalid_feature_error (f : string) : exn :=
  ValueError ("Invalid feature_name '" +:+ f +:+ "'. Valid values are: "
                +:+ join_comma VALID_FEATURE_NAMES).

(** [[{'trace': {'start_trace_time': 1700000000}}]]: the start time is an
    [int], for instance [int(time.time())]. *)
Definition int_start_output : value :=
  VList [VDict [("trace", VDict [("start_trace_time", VInt 1700000000)])]].

(** ** Notions for the further properties *)

(** [p0] put in front of the path of a result. *)
Definition under (p0 : path) (r : path * value) : path * value :=
  (p0 ++ fst r, snd r).

(** [key] occurs somewhere in [t]: some path that ends with it leads to a
    value. *)
Definition occurs (key : string) (t : value) : Prop :=
  exists q v, at_path t (q ++ [Key key]) v.

(** The location constraint a bucket is created with in [aws_region]. *)
Definition location_of (aws_region : string) : option string :=
  if String.eqb aws_region "us-east-1" then None else Some aws_region.

(** The head check answered that the bucket does not exist. *)
Definition reported_missing (E : env) (w : world) (bucket : string) : Prop :=
  exists code, head_bucket E (calls w) bucket = HeadClientError code /\
               int_of_code E code = Some 404.

(** The world with [evs] added to the log of service calls. *)
Definition with_calls (evs : list event) (w : world) : world :=
  {| ticks := ticks w; uuids := uuids w; calls := calls w ++ evs |}.

(** A storage service that remembers what was created: a bucket is found
    once a call created it, and reported missing with code 404 before. *)
Definition creates (bucket : string) (ev : event) : bool :=
  match ev with
  | CreateBucket b _ => String.eqb b bucket
  | _ => false
  end.

Definition store_env : env :=
  {| time_time := time_time demo_env;
     uuid4 := uuid4 demo_env;
     isoformat := isoformat demo_env;
     strftime := strftime demo_env;
     json_dumps := json_dumps demo_env;
     int_of_code := int_of_code demo_env;
     head_bucket := fun log b =>
       if existsb (creates b) log then HeadFound else HeadClientError "404";
     create_bucket := fun _ _ _ => None;
     put_object := fun _ _ _ _ => None;
     put_record := fun _ _ _ => None |}.

(** The feature label passes the check of lines 29-31. *)
Definition feature_accepted (feature : option string) : Prop :=
  match feature with
  | Some f => mem_string f VALID_FEATURE_NAMES = true
  | None => True
  end.

(** The clients a recorder holds are those of its sink. *)
Definition wired (r : BedrockLogs) : Prop :=
  s3_client r = String.eqb (delivery_stream_name r) "s3" /\
  firehose_client r =
    negb (String.eqb (delivery_stream_name r) "local")
    && negb (String.eqb (delivery_stream_name r) "s3").

Definition missing_delivery_error : exn :=
  ValueError "delivery_stream_name must be provided or set equals to 'local' example: delivery_stream_name='local'.".

(** The constructor call of the example:
    [BedrockLogs(delivery_stream_name='local', feedback_variables=True,
    s3_bucket_name='logging-response', s3_region='us-east-1')] *)
Definition example_args : init_args :=
  {| arg_delivery_stream_name := Some "local";
     arg_experiment_id := None;
     arg_default_call_type := "LLM";
     arg_feature_name := None;
     arg_feedback_variables := true;
     arg_s3_bucket_name := Some "logging-response";
     arg_s3_region := "us-east-1" |}.

(** The recorder that call builds. *)
Definition example_recorder : BedrockLogs :=
  {| delivery_stream_name := "local";
     experiment_id := "default_experiment_1";
     default_call_type := "LLM";
     feedback_variables := true;
     s3_bucket_name := "logging-response";
     s3_region := "us-east-1";
     feature_name := None;
     step_counter := 0;
     s3_client := false;
     firehose_client := false;
     session_id := None;
     request_start_time := None |}.

(** [m] leaves the component [f] of the state as it is, whether it returns
    or raises. *)
Definition unchanged {S A T} (f : S -> T) (m : M S A) : Prop :=
  forall s, f (fst (m s)) = f s.

(** What the constructor sets and no method assigns again: the sink, the
    experiment, the labels and the clients. *)
Definition config_of (r : BedrockLogs) :=
  (delivery_stream_name r, experiment_id r, default_call_type r,
   feedback_variables r, s3_bucket_name r, s3_region r, feature_name r,
   s3_client r, firehose_client r).

(** The configuration of instance [i], when it exists. *)
Definition config_at (p : process) (i : nat) :=
  config_of <$> instances p !! i.

(** What is fixed of a recorder and what was said to the services so far. *)
Definition quiet_view (st : state) := (config_of (obj st), calls (wld st)).

(** [ev] is the delivery of one record to the sink of [r]. *)
Definition sink_event (r : BedrockLogs) (ev : event) : Prop :=
  match ev with
  | PutObject bucket _ _ content_type =>
      delivery_stream_name r = "s3" /\ bucket = s3_bucket_name r /\
      content_type = "application/json"
  | PutRecord stream _ =>
      stream = delivery_stream_name r /\ stream <> "local" /\ stream <> "s3"
  | _ => False
  end.

(** From [s] to [s']: the same configuration, and nothing said to a service
    but at most one delivery to the sink. *)
Definition one_delivery (s s' : state) : Prop :=
  config_of (obj s') = config_of (obj s) /\
  (calls (wld s') = calls (wld s) \/
   exists ev, sink_event (obj s) ev /\ calls (wld s') = calls (wld s) ++ [ev]).

(** *** The record and its delivery *)

(** The twelve fields of lines 256-269, in their order. *)
Definition fixed_fields (E : env) (r : BedrockLogs) (call_type : option string)
  (run_id : value) (observation_id obs_timestamp : string)
  (start_time end_time : float) (input_log output_data : value)
  : list (string * value) :=
  [ ("experiment_id", VStr (experiment_id r));
    ("run_id", run_id);
    ("observation_id", VStr observation_id);
    ("obs_timestamp", VStr obs_timestamp);
    ("start_time", VStr (isoformat E start_time));
    ("end_time", VStr (isoformat E end_time));
    ("duration", VFloat (PrimFloat.sub end_time start_time));
    ("input_log", input_log);
    ("output_log", output_data);
    ("call_type",
      VStr (match call_type with
            | Some c => if String.eqb c EmptyString then default_call_type r else c
            | None => default_call_type r
            end));
    ("feature_name", opt_str (feature_name r));
    ("feedback_enabled", VBool (feedback_variables r)) ].

(** A keyword value as the wrapper expects it: a mapping, which is
    merged, or anything empty, which is not looked at. *)
Definition mergeable (v : value) : bool :=
  match v with
  | VDict _ => true
  | _ => negb (truthy v)
  end.

(** The entries such a value brings. *)
Definition entries_of (v : value) : list (string * value) :=
  match v with
  | VDict d => d
  | _ => []
  end.

(** The keys of a dict are distinct. *)
Definition keys_distinct {V} (d : list (string * V)) : Prop := NoDup (map fst d).

(** The k-th clock reading after the state [st]. *)
Definition reading (E : env) (st : state) (k : nat) : float :=
  time_time E (k + ticks (wld st))%nat.

(** The wrapped call got as far as delivering: the function returned, the
    run was resolved to [run_id] and the record [metadata] assembled,
    leaving the state [st']; [result'] is what the function returned, as
    annotated when the output is captured. *)
Definition reaches_delivery (E : env) (capture_input capture_output : bool)
  (call_type : option string) (func : target) (args : list value)
  (kwargs : list (string * value)) (st : state)
  (result' run_id : value) (metadata : list (string * value)) (st' : state) : Prop :=
  exists (result out : value) (st6 : state),
    func args kwargs = Ok result /\
    resolve_run E (input_log_of capture_input args)
      (if capture_output then result else VNone) (call_start_of E st)
      (after_call E 5 st) = (st6, Ok (run_id, out)) /\
    assemble E call_type kwargs run_id (uuid4 E (uuids (wld st)))
      (isoformat E (reading E st 1)) (reading E st 2) (reading E st 3) (reading E st 4)
      (input_log_of capture_input args) out st6 = (st', Ok metadata) /\
    result' = (if capture_output then out else result).

(** The record of a call that returned [result] (as the annotator left it,
    when the call went through the annotator): the fixed fields, then the
    entries of [additional_metadata], then those of [user_prompt], then
    [logging_duration]. *)
Definition plain_record (E : env) (capture_input capture_output : bool)
  (call_type : option string) (args : list value) (kwargs : list (string * value))
  (st st6 : state) (result run_id : value) : list (string * value) :=
  dict_set "logging_duration"
    (VFloat (PrimFloat.sub (reading E st6 0) (reading E st 4)))
    (dict_update
       (dict_update
          (fixed_fields E (obj st6) call_type run_id (uuid4 E (uuids (wld st)))
             (isoformat E (reading E st 1)) (reading E st 2) (reading E st 3)
             (input_log_of capture_input args)
             (if capture_output then result else VNone))
          (entries_of (kwargs_get kwargs "additional_metadata" (VDict []))))
       (entries_of (kwargs_get kwargs "user_prompt" (VDict [])))).

(** The state after one more clock reading. *)
Definition tick (st : state) : state :=
  {| obj := obj st; wld := later 1 0 (wld st) |}.

(** The example's recorder at work: [f(x) = x * 2] called with [5]. *)
Definition example_state : state := {| obj := example_recorder; wld := fresh_world |}.

Definition doubling : target :=
  fun args _ =>
    match args with
    | VInt n :: _ => Ok (VInt (n * 2))
    | _ => Raise TypeError
    end.









(** Keywords that try to take over two fields of the record:
    [additional_metadata={'run_id': 'mine', 'logging_duration': 0}]. *)
Definition overriding_kwargs : list (string * value) :=
  [("additional_metadata",
    VDict [("run_id", VStr "mine"); ("logging_duration", VInt 0)])].

(** *** An annotation that fails *)

(** The nodes before the first one whose start time is not a float. *)
Fixpoint accepted_before (nodes : list value) : list value :=
  match nodes with
  | [] => []
  | node :: rest =>
      if invalid_start node then [] else node :: accepted_before rest
  end.

(** A visit that stopped at an invalid node: the counter has advanced by
    the number of nodes accepted before it. *)
Definition halts (nodes : list value) (fr fr' : frame) : Prop :=
  (exists node, In node nodes /\ invalid_start node = true) /\
  frame_counter fr' =
    frame_counter fr + Z.of_nat (length (accepted_before nodes)).

(** [[{'trace': {'start_trace_time': 11.5}},
      {'trace': {'start_trace_time': 'noon'}},
      {'trace': {'start_trace_time': 14.25}}]] *)
Definition half_bad_output : value :=
  VList [ VDict [("trace", VDict [("start_trace_time", VFloat 11.5)])];
          VDict [("trace", VDict [("start_trace_time", VStr "noon")])];
          VDict [("trace", VDict [("start_trace_time", VFloat 14.25)])] ].

(** *** What the annotation leaves alone *)

(** [d'] is [d] with nothing but a [latency] and a [step_number] entry
    written: the keys of [d] keep their order and new keys come after them,
    both entries are there, and every key other than the two has in [d']
    what it has in [d]. *)
Definition only_annotated (d d' : list (string * value)) : Prop :=
  map fst d `prefix_of` map fst d' /\
  dict_mem "latency" d' = true /\
  dict_mem "step_number" d' = true /\
  forall k : string,
    k <> "latency" -> k <> "step_number" -> dict_get k d' = dict_get k d.

(** What becomes of a mapping [d] that has a [trace] key: when the value
    under [trace] is a mapping that carries [start_trace_time], that value
    is annotated and put back under [trace], nothing else of [d] changing;
    otherwise [d] comes back as it is. *)
Definition trace_annotated (d : list (string * value)) (x' : value) : Prop :=
  match dict_get "trace" d with
  | Some (VDict td) =>
      if dict_mem "start_trace_time" td then
        exists td', only_annotated td td' /\
                    x' = VDict (dict_set "trace" (VDict td') d)
      else x' = VDict d
  | _ => x' = VDict d
  end.

(** What becomes of an element of a nested sequence: a mapping that
    carries [start_trace_time] is annotated, one that does not but has a
    [trace] key is treated as above, anything else comes back as it is. *)
Definition item_kept (item x' : value) : Prop :=
  match item with
  | VDict d =>
      if dict_mem "start_trace_time" d then
        exists d', only_annotated d d' /\ x' = VDict d'
      else if dict_mem "trace" d then trace_annotated d x'
      else x' = item
  | _ => x' = item
  end.

(** What becomes of a top-level element: a mapping with a [trace] key is
    treated as above, a sequence keeps its length and order, each of its
    elements treated as an element of a nested sequence, and anything else,
    a mapping without [trace] included, comes back as it is. *)
Definition data_kept (data x' : value) : Prop :=
  match data with
  | VDict d => if dict_mem "trace" d then trace_annotated d x' else x' = data
  | VList l => exists l', x' = VList l' /\ Forall2 item_kept l l'
  | _ => x' = data
  end.

(** What becomes of the output: a list keeps its length and order, each
    element treated as a top-level element; anything else comes back as it
    is. *)
Definition output_kept (output_data out' : value) : Prop :=
  match output_data with
  | VList l => exists l', out' = VList l' /\ Forall2 data_kept l l'
  | _ => out' = output_data
  end.

(** [[{'foo': {'start_trace_time': 11.5}, 'latency': 'kept'},
      [{'trace': {'start_trace_time': 13.0, 'step_number': 'old'},
        'note': [1]}]]]: a top-level mapping without [trace], and a nested
    step whose [trace] already has a [step_number]. *)
Definition mixed_output : value :=
  VList
    [ VDict [("foo", VDict [("start_trace_time", VFloat 11.5)]);
             ("latency", VStr "kept")];
      VList
        [ VDict [("trace", VDict [("start_trace_time", VFloat 13);
                                  ("step_number", VStr "old")]);
                 ("note", VList [VInt 1])] ] ].

(** *** An agent output that cannot be annotated *)

(** What the wrapper raises for an output that is a number, a flag or the
    empty string: the loop of the annotator cannot iterate a number or a
    flag, and [output_data[0]] finds no character in the empty string. *)
Definition scalar_output_error (out : value) : option exn :=
  match out with
  | VBool _ | VInt _ | VFloat _ => Some TypeError
  | VStr EmptyString => Some IndexError
  | _ => None
  end.

(** The recorder once the annotator has cleared its session attribute. *)
Definition annotator_entered (E : env) (st : state) : state :=
  {| obj := set_session_id (Some VNone) (obj (after_call E 5 st));
     wld := wld (after_call E 5 st) |}.

(** * Properties *)

(** ** Induction on values *)

Lemma value_induction (P : value -> Prop) :
  P VNone ->
  (forall b, P (VBool b)) ->
  (forall n, P (VInt n)) ->
  (forall x, P (VFloat x)) ->
  (forall s, P (VStr s)) ->
  (forall l, Forall P l -> P (VList l)) ->
  (forall es, Forall (fun kv => P (snd kv)) es -> P (VDict es)) ->
  forall v, P v.
Proof.
  intros Hnone Hbool Hint Hfloat Hstr Hlist Hdict.
  fix IH 1. intros [ | b | n | x | s | l | es ].
  - exact Hnone.
  - apply Hbool.
  - apply Hint.
  - apply Hfloat.
  - apply Hstr.
  - apply Hlist. induction l as [ | v l IHl ]; constructor; [ apply IH | exact IHl ].
  - apply Hdict. induction es as [ | [k v] es IHes ]; constructor; [ apply IH | exact IHes ].
Qed.

(** ** Dicts *)

Lemma dict_mem_get {V} (k : string) (d : list (string * V)) :
  dict_mem k d = true <-> exists v, dict_get k d = Some v.
Proof.
  induction d as [ | [k' v'] d IH ]; simpl.
  - split; [ discriminate | intros [v Hv]; discriminate ].
  - destruct (String.eqb k' k); [ | exact IH ].
    split; [ intros _; eexists; reflexivity | reflexivity ].
Qed.

Lemma dict_get_set_eq {V} (k : string) (v : V) (d : list (string * V)) :
  dict_get k (dict_set k v d) = Some v.
Proof.
  induction d as [ | [k' v'] d IH ]; simpl.
  - now rewrite String.eqb_refl.
  - destruct (String.eqb k' k) eqn:Hk; simpl; rewrite Hk; [ reflexivity | exact IH ].
Qed.

Lemma dict_get_set_ne {V} (k k0 : string) (v : V) (d : list (string * V)) :
  k <> k0 -> dict_get k0 (dict_set k v d) = dict_get k0 d.
Proof.
  intros Hne. induction d as [ | [k' v'] d IH ]; simpl.
  - destruct (String.eqb k k0) eqn:Hk; [ | reflexivity ].
    apply String.eqb_eq in Hk. contradiction.
  - destruct (String.eqb k' k) eqn:Hk; simpl.
    + apply String.eqb_eq in Hk. subst k'.
      destruct (String.eqb k k0) eqn:Hk0; [ | reflexivity ].
      apply String.eqb_eq in Hk0. contradiction.
    + now rewrite IH.
Qed.

Lemma dict_mem_set_ne {V} (k k0 : string) (v : V) (d : list (string * V)) :
  k <> k0 -> dict_mem k0 (dict_set k v d) = dict_mem k0 d.
Proof.
  intros Hne. induction d as [ | [k' v'] d IH ]; simpl.
  - destruct (String.eqb k k0) eqn:Hk; [ | reflexivity ].
    apply String.eqb_eq in Hk. contradiction.
  - destruct (String.eqb k' k) eqn:Hk; simpl; [ reflexivity | now rewrite IH ].
Qed.

Lemma dict_mem_set_eq {V} (k : string) (v : V) (d : list (string * V)) :
  dict_mem k (dict_set k v d) = true.
Proof.
  apply dict_mem_get. exists v. apply dict_get_set_eq.
Qed.

(** ** The nested-key finder *)

Lemma find_keys_dict (es : list (string * value)) (key : string) (p : path) :
  find_keys (VDict es) key p = find_in_entries es key p.
Proof.
  simpl. induction es as [ | [k v] es IH ]; simpl; [ reflexivity | now rewrite IH ].
Qed.

Lemma find_keys_list_from (i : nat) (l : list value) (key : string) (p : path) :
  (fix enumerate (i : nat) (xs : list value) : list (path * value) :=
     match xs with
     | [] => []
     | item :: xs' => find_keys item key (p ++ [Index i]) ++ enumerate (S i) xs'
     end) i l = find_in_items i l key p.
Proof.
  revert i. induction l as [ | x l IH ]; intros i; simpl; [ reflexivity | now rewrite IH ].
Qed.

Lemma find_keys_list (l : list value) (key : string) (p : path) :
  find_keys (VList l) key p = find_in_items 0 l key p.
Proof.
  simpl. apply find_keys_list_from.
Qed.

Lemma in_find_in_entries (es : list (string * value)) (key : string) (p : path)
  (r : path * value) :
  In r (find_in_entries es key p) <->
  exists k x, In (k, x) es /\
    In r (if String.eqb k key then [(p ++ [Key k], x)]
          else find_keys x key (p ++ [Key k])).
Proof.
  induction es as [ | [k v] es IH ]; simpl.
  - split; [ contradiction | intros (k & x & [] & _) ].
  - rewrite in_app_iff, IH. split.
    + intros [H | (k' & x & Hin & H)].
      * exists k, v. split; [ now left | exact H ].
      * exists k', x. split; [ now right | exact H ].
    + intros (k' & x & [Heq | Hin] & H).
      * inversion Heq; subst. now left.
      * right. exists k', x. split; assumption.
Qed.

Lemma in_find_in_items (i : nat) (l : list value) (key : string) (p : path)
  (r : path * value) :
  In r (find_in_items i l key p) <->
  exists j x, l !! j = Some x /\ In r (find_keys x key (p ++ [Index (i + j)])).
Proof.
  revert i. induction l as [ | v l IH ]; intros i; simpl.
  - split; [ contradiction | intros (j & x & Hj & _); discriminate ].
  - rewrite in_app_iff, IH. split.
    + intros [H | (j & x & Hj & H)].
      * exists 0%nat, v. split; [ reflexivity | ]. now rewrite Nat.add_0_r.
      * exists (S j), x. split; [ exact Hj | ]. now rewrite Nat.add_succ_r.
    + intros (j & x & Hj & H). destruct j as [ | j ].
      * simpl in Hj. inversion Hj; subst. left. now rewrite Nat.add_0_r in H.
      * right. exists j, x. split; [ exact Hj | ]. now rewrite Nat.add_succ_r in H.
Qed.

Lemma find_keys_sound (t : value) :
  forall (key : string) (p0 p : path) (v : value),
    In (p, v) (find_keys t key p0) ->
    exists q, p = p0 ++ q ++ [Key key] /\ ~ In (Key key) q /\
              at_path t (q ++ [Key key]) v.
Proof.
  induction t as [ | b | n | x | s | l IH | es IH ] using value_induction;
    intros key p0 p v Hin; try contradiction.
  - rewrite find_keys_list in Hin. apply in_find_in_items in Hin.
    destruct Hin as (j & x & Hj & Hin). simpl in Hin.
    rewrite Forall_forall in IH.
    assert (Hx : x ∈ l) by (apply list_elem_of_lookup; eauto).
    destruct (IH x Hx key _ p v Hin) as (q & -> & Hq & Hat).
    exists (Index j :: q). repeat split.
    + now rewrite <- !app_assoc.
    + intros [Heq | H]; [ discriminate | contradiction ].
    + simpl. eapply at_index; eassumption.
  - rewrite find_keys_dict in Hin. apply in_find_in_entries in Hin.
    destruct Hin as (k & x & Hkx & Hin).
    destruct (String.eqb k key) eqn:Hk.
    + apply String.eqb_eq in Hk. subst k.
      destruct Hin as [Heq | []]. inversion Heq; subst.
      exists []. repeat split.
      * intros [].
      * simpl. eapply at_key; [ eassumption | constructor ].
    + rewrite Forall_forall in IH.
      assert (Hkx' : (k, x) ∈ es) by (now apply list_elem_of_In).
      destruct (IH (k, x) Hkx' key _ p v Hin) as (q & -> & Hq & Hat).
      exists (Key k :: q). repeat split.
      * now rewrite <- !app_assoc.
      * intros [Heq | H]; [ | contradiction ].
        inversion Heq; subst. now rewrite String.eqb_refl in Hk.
      * simpl. eapply at_key; eassumption.
Qed.

Lemma find_keys_complete (q : path) :
  forall (t : value) (key : string) (p0 : path) (v : value),
    ~ In (Key key) q ->
    at_path t (q ++ [Key key]) v ->
    In (p0 ++ q ++ [Key key], v) (find_keys t key p0).
Proof.
  induction q as [ | s q IH ]; intros t key p0 v Hq Hat; simpl in Hat.
  - inversion Hat as [ | es k x p v' Hin Hx | ]; subst.
    inversion Hx; subst.
    rewrite find_keys_dict. apply in_find_in_entries.
    exists key, v. split; [ exact Hin | ]. rewrite String.eqb_refl. now left.
  - assert (Hq' : ~ In (Key key) q) by (intros H; apply Hq; now right).
    inversion Hat as [ | es k x p v' Hin Hx | l i x p v' Hi Hx ]; subst.
    + rewrite find_keys_dict. apply in_find_in_entries.
      exists k, x. split; [ exact Hin | ].
      destruct (String.eqb k key) eqn:Hk.
      * apply String.eqb_eq in Hk. subst k. exfalso. apply Hq. now left.
      * specialize (IH x key (p0 ++ [Key k]) v Hq' Hx).
        now rewrite <- app_assoc in IH.
    + rewrite find_keys_list. apply in_find_in_items.
      exists i, x. split; [ exact Hi | ]. simpl.
      specialize (IH x key (p0 ++ [Index i]) v Hq' Hx).
      now rewrite <- app_assoc in IH.
Qed.

(** What the finder reports, in general: a pair [(p, v)] is in the result
    if and only if [p] leads from the root to [v], ends with the key, and
    does not pass through the key before its end.  An occurrence of the key
    that lies below another occurrence of it is therefore never reported,
    although the docstring of [find_keys] promises all keys of the nested
    dictionary with their paths. *)
Lemma find_keys_stops_at_match (t : value) (key : string) (p : path) (v : value) :
  In (p, v) (find_keys t key []) <->
  exists q, p = q ++ [Key key] /\ ~ In (Key key) q /\ at_path t p v.
Proof.
  split.
  - intros Hin. apply find_keys_sound in Hin.
    destruct Hin as (q & -> & Hq & Hat). exists q. auto.
  - intros (q & -> & Hq & Hat).
    apply (find_keys_complete q t key [] v Hq Hat).
Qed.

(** C2, on the code: in [{'a': {'a': 1}}] the key ['a'] occurs at path
    [a] and again at path [a, a] inside the value of the first match.  The
    exhaustive search the specification describes, and the docstring of
    [find_keys] promises ("find all keys in a nested dictionary and their
    paths"), lists both; the finder returns the outer one alone, because
    lines 70-73 recurse into a value only in the [else] branch of the test
    for a match. *)
Theorem find_keys_misses_inner_match :
  find_keys nested_match "a" [] = [([Key "a"], VDict [("a", VInt 1)])] /\
  at_path nested_match [Key "a"; Key "a"] (VInt 1) /\
  In ([Key "a"; Key "a"], VInt 1) (find_keys_exhaustive nested_match "a" []) /\
  ~ In ([Key "a"; Key "a"], VInt 1) (find_keys nested_match "a" []).
Proof.
  unfold nested_match. simpl. repeat split.
  - eapply at_key; [ now left | ].
    eapply at_key; [ now left | constructor ].
  - right. now left.
  - intros [H | []]. discriminate H.
Qed.

Lemma head_app_or {A} (a b : list A) :
  head (a ++ b) = match head a with Some x => Some x | None => head b end.
Proof.
  destruct a; reflexivity.
Qed.

(** The first result of the finder is the first occurrence of the key in
    depth-first order, although the finder skips what lies below a match. *)
Lemma head_find_keys (t : value) :
  forall (key : string) (p : path),
    head (find_keys t key p) = head (find_keys_exhaustive t key p).
Proof.
  induction t as [ | b | n | x | s | l IH | es IH ] using value_induction;
    intros key p; try reflexivity.
  - simpl. generalize 0%nat.
    induction IH as [ | x l Hx Hl IHl ]; intros i; [ reflexivity | ].
    rewrite !head_app_or, Hx, IHl. reflexivity.
  - simpl.
    induction IH as [ | [k x] es Hx Hes IHes ]; [ reflexivity | ].
    simpl in Hx. rewrite !head_app_or, IHes.
    destruct (String.eqb k key); simpl; [ reflexivity | ].
    now rewrite Hx.
Qed.

Lemma find_keys_nil_iff (t : value) (key : string) (p : path) :
  find_keys t key p = [] <-> find_keys_exhaustive t key p = [].
Proof.
  pose proof (head_find_keys t key p) as H.
  destruct (find_keys t key p), (find_keys_exhaustive t key p);
    simpl in H; try discriminate; split; intros; try reflexivity; discriminate.
Qed.

(** ** The session identifier resolver *)

Lemma extract_session_id_eq (E : env) (log_data : value) (st : state) :
  extract_session_id E log_data st =
    match find_keys log_data (session_key (obj st)) [] with
    | (_, session_id) :: _ => (st, Ok session_id)
    | [] => (draw_uuid st, Ok (VStr (uuid4 E (uuids (wld st)))))
    end.
Proof.
  unfold extract_session_id, session_key, bind, get.
  destruct (is_agent (obj st));
    match goal with |- context [find_keys ?t ?k ?p] => destruct (find_keys t k p) as [ | [q v] rest ] end;
    reflexivity.
Qed.

(** C3: the resolver searches for [x-amz-bedrock-agent-session-id] when the
    feature label is "Agent" and for [sessionId] otherwise; when the key
    occurs it returns the value of its first occurrence in depth-first order
    and leaves the state alone; when the key does not occur it returns the
    next identifier of the generator and consumes it, so that, the generator
    never repeating itself, a later no-match call returns another
    identifier.  A payload with [sessionId: "abc"] and no feature label
    resolves to ["abc"]. *)
Theorem session_id_resolution (E : env)
  (fresh : forall i j : nat, uuid4 E i = uuid4 E j -> i = j) :
  (forall r : BedrockLogs,
      (feature_name r = Some "Agent" ->
       session_key r = "x-amz-bedrock-agent-session-id") /\
      (feature_name r <> Some "Agent" -> session_key r = "sessionId")) /\
  (forall (log_data : value) (st : state) (p : path) (v : value),
      head (find_keys_exhaustive log_data (session_key (obj st)) []) = Some (p, v) ->
      extract_session_id E log_data st = (st, Ok v)) /\
  (forall (log_data : value) (st : state),
      find_keys_exhaustive log_data (session_key (obj st)) [] = [] ->
      extract_session_id E log_data st =
        (draw_uuid st, Ok (VStr (uuid4 E (uuids (wld st)))))) /\
  (forall (log1 log2 : value) (st st1 st2 st3 : state) (v1 v2 : value),
      find_keys_exhaustive log1 (session_key (obj st)) [] = [] ->
      find_keys_exhaustive log2 (session_key (obj st2)) [] = [] ->
      extract_session_id E log1 st = (st1, Ok v1) ->
      (uuids (wld st1) <= uuids (wld st2))%nat ->
      extract_session_id E log2 st2 = (st3, Ok v2) ->
      v1 <> v2) /\
  (forall w : world,
      extract_session_id E (VDict [("sessionId", VStr "abc")])
        {| obj := demo_recorder None 0; wld := w |}
      = ({| obj := demo_recorder None 0; wld := w |}, Ok (VStr "abc"))).
Proof.
  refine (conj _ (conj _ (conj _ (conj _ _)))).
  - intros r. unfold session_key, is_agent. split.
    + intros ->. reflexivity.
    + intros Hne. destruct (feature_name r) as [f | ]; [ | reflexivity ].
      destruct (String.eqb f "Agent") eqn:Hf; [ | reflexivity ].
      apply String.eqb_eq in Hf. now subst f.
  - intros log_data st p v Hhead.
    rewrite extract_session_id_eq. rewrite <- head_find_keys in Hhead.
    destruct (find_keys log_data (session_key (obj st)) []) as [ | [q x] rest ];
      simpl in Hhead; [ discriminate | ]. now inversion Hhead.
  - intros log_data st Hnone.
    rewrite extract_session_id_eq. apply find_keys_nil_iff in Hnone. now rewrite Hnone.
  - intros log1 log2 st st1 st2 st3 v1 v2 H1 H2 R1 Hle R2.
    rewrite extract_session_id_eq in R1, R2.
    apply find_keys_nil_iff in H1, H2. rewrite H1 in R1. rewrite H2 in R2.
    inversion R1; subst. inversion R2; subst.
    intros Heq. inversion Heq as [Hu].
    apply fresh in Hu. simpl in Hle. lia.
  - intros w. reflexivity.
Qed.

Lemma demo_uuid4_fresh (i j : nat) : uuid4 demo_env i = uuid4 demo_env j -> i = j.
Proof.
  simpl. apply pretty_nat_inj.
Qed.

Lemma session_id_resolution_witness :
  (forall i j : nat, uuid4 demo_env i = uuid4 demo_env j -> i = j) /\
  exists v1 v2 : value,
    extract_session_id demo_env (VDict []) demo_state = (draw_uuid demo_state, Ok v1) /\
    extract_session_id demo_env VNone (draw_uuid demo_state)
      = (draw_uuid (draw_uuid demo_state), Ok v2) /\
    v1 <> v2.
Proof.
  split; [ exact demo_uuid4_fresh | ].
  exists (VStr (uuid4 demo_env 0)), (VStr (uuid4 demo_env 1)).
  split; [ reflexivity | ]. split; [ reflexivity | ].
  destruct (session_id_resolution demo_env demo_uuid4_fresh) as (_ & _ & _ & Hdiff & _).
  apply (Hdiff (VDict []) VNone demo_state (draw_uuid demo_state)
               (draw_uuid demo_state) (draw_uuid (draw_uuid demo_state)));
    solve [ reflexivity | simpl; lia ].
Defined.

(** ** The trace step annotator *)

Lemma annotate_float (d : list (string * value)) (s t0 : float) (fr : frame) :
  dict_get "start_trace_time" d = Some (VFloat s) ->
  annotate (VDict d) t0 fr =
    ({| self := set_step_counter (step_counter (self fr) + 1) (self fr);
        prev_trace_time := Some s |},
     Ok (annotated d s (base_time t0 (prev_trace_time fr)) (step_counter (self fr)))).
Proof.
  intros Hs. unfold annotate, bind, lift, get, modify, ret, annotated, base_time.
  simpl. rewrite Hs. destruct (prev_trace_time fr); reflexivity.
Qed.

Lemma annotate_not_float (d : list (string * value)) (v : value) (t0 : float) (fr : frame) :
  dict_get "start_trace_time" d = Some v ->
  is_float v = false ->
  annotate (VDict d) t0 fr = (fr, Raise start_trace_time_error).
Proof.
  intros Hs Hv. unfold annotate, bind, lift, raise. simpl. rewrite Hs.
  destruct v; try reflexivity; discriminate.
Qed.

Lemma annotated_start (d : list (string * value)) (s s0 base : float) (n : Z) :
  dict_get "start_trace_time" d = Some (VFloat s0) ->
  getitem (annotated d s base n) "start_trace_time" = Ok (VFloat s0).
Proof.
  intros Hs. unfold annotated, getitem.
  rewrite !dict_get_set_ne by discriminate. now rewrite Hs.
Qed.

Lemma annotated_latency (d : list (string * value)) (s base : float) (n : Z) :
  getitem (annotated d s base n) "latency" = Ok (VFloat (PrimFloat.sub s base)).
Proof.
  unfold annotated, getitem.
  rewrite dict_get_set_ne by discriminate. now rewrite dict_get_set_eq.
Qed.

Lemma annotated_step_number (d : list (string * value)) (s base : float) (n : Z) :
  getitem (annotated d s base n) "step_number" = Ok (VInt n).
Proof.
  unfold annotated, getitem. now rewrite dict_get_set_eq.
Qed.

Lemma set_step_counter_same (r : BedrockLogs) :
  set_step_counter (step_counter r) r = r.
Proof.
  now destruct r.
Qed.

Lemma set_step_counter_twice (a b : Z) (r : BedrockLogs) :
  set_step_counter a (set_step_counter b r) = set_step_counter a r.
Proof.
  reflexivity.
Qed.

Lemma valid_node_start (node : value) :
  valid_node node -> exists d s, node = VDict d /\ start_of node = Some s /\
                                 dict_get "start_trace_time" d = Some (VFloat s).
Proof.
  intros (d & s & -> & Hs). exists d, s. unfold start_of, getitem. now rewrite Hs.
Qed.

Lemma timeline_app (t0 : float) (a b : list value) :
  forall (prev : option float) (n : Z),
    Forall valid_node a ->
    timeline t0 prev n (a ++ b) =
      timeline t0 prev n a
        ++ timeline t0 (last_start prev a) (n + Z.of_nat (length a)) b.
Proof.
  induction a as [ | x a IH ]; intros prev n Ha; simpl.
  - now rewrite Z.add_0_r.
  - inversion Ha as [ | ? ? Hx Ha' ]; subst.
    destruct (valid_node_start x Hx) as (d & s & -> & Hs & _).
    unfold last_start. simpl. rewrite Hs. simpl.
    rewrite (IH (Some s) (n + 1) Ha'). unfold last_start.
    replace (n + Z.of_nat (S (length a))) with (n + 1 + Z.of_nat (length a)) by lia.
    reflexivity.
Qed.

Lemma advances_nil (t0 : float) (fr : frame) : advances t0 [] [] fr fr.
Proof.
  unfold advances. simpl. repeat split; [ constructor | ].
  destruct fr as [r p]. simpl. now rewrite Z.add_0_r, set_step_counter_same.
Qed.

Lemma advances_app (t0 : float) (a a' b b' : list value) (fr fr1 fr2 : frame) :
  advances t0 a a' fr fr1 ->
  advances t0 b b' fr1 fr2 ->
  advances t0 (a ++ b) (a' ++ b') fr fr2.
Proof.
  intros (Ha & -> & ->) (Hb & -> & ->). simpl. repeat split.
  - now apply Forall_app.
  - now rewrite timeline_app.
  - rewrite set_step_counter_twice. unfold last_start.
    rewrite fold_left_app, length_app, Nat2Z.inj_add. f_equal. f_equal. lia.
Qed.

Lemma advances_one (t0 : float) (d : list (string * value)) (s : float) (fr : frame) :
  dict_get "start_trace_time" d = Some (VFloat s) ->
  advances t0 [VDict d]
    [annotated d s (base_time t0 (prev_trace_time fr)) (step_counter (self fr))]
    fr
    {| self := set_step_counter (step_counter (self fr) + 1) (self fr);
       prev_trace_time := Some s |}.
Proof.
  intros Hs. unfold advances. simpl. unfold last_start, start_of, getitem. simpl.
  rewrite Hs. repeat split.
  constructor; [ | constructor ]. exists d, s. auto.
Qed.

Lemma dict_mem_set_present {V} (k k0 : string) (v : V) (d : list (string * V)) :
  dict_mem k0 d = true -> dict_mem k (dict_set k0 v d) = dict_mem k d.
Proof.
  intros Hk0. destruct (String.eqb_spec k0 k) as [-> | Hne].
  - now rewrite dict_mem_set_eq.
  - now apply dict_mem_set_ne.
Qed.

Lemma node_under_trace_set (d td : list (string * value)) :
  dict_mem "start_trace_time" td = true ->
  node_under_trace (VDict (dict_set "trace" (VDict td) d)) = [VDict td].
Proof.
  intros Htd. unfold node_under_trace, getitem.
  now rewrite dict_get_set_eq, Htd.
Qed.

Lemma annotated_mem_start (d : list (string * value)) (s base : float) (n : Z) :
  dict_mem "start_trace_time" d = true ->
  exists d', annotated d s base n = VDict d' /\ dict_mem "start_trace_time" d' = true.
Proof.
  intros Hd. eexists. split; [ reflexivity | ].
  now rewrite !dict_mem_set_ne by discriminate.
Qed.

(** Lines 153-168: a mapping with a [trace] key. *)
Lemma annotate_trace_of_advances (d : list (string * value)) (t0 : float)
  (fr fr' : frame) (x' : value) :
  dict_mem "trace" d = true ->
  annotate_trace_of (VDict d) t0 fr = (fr', Ok x') ->
  advances t0 (node_under_trace (VDict d)) (node_under_trace x') fr fr' /\
  (x' = VDict d \/ exists tr', x' = VDict (dict_set "trace" tr' d)).
Proof.
  intros Hmem Hrun. apply dict_mem_get in Hmem as [tr Htr].
  unfold annotate_trace_of, bind, lift in Hrun. simpl in Hrun.
  unfold node_under_trace at 1. simpl. rewrite Htr in *.
  destruct tr as [ | b | n | x | s | l | td ]; simpl in Hrun; try discriminate.
  - (* a string *)
    destruct (is_substring "start_trace_time" s); [ discriminate | ].
    inversion Hrun; subst. unfold node_under_trace. simpl. rewrite Htr.
    split; [ apply advances_nil | now left ].
  - (* a list *)
    match type of Hrun with context [existsb ?f l] => destruct (existsb f l) end;
      [ discriminate | ].
    inversion Hrun; subst. unfold node_under_trace. simpl. rewrite Htr.
    split; [ apply advances_nil | now left ].
  - (* a mapping *)
    destruct (dict_mem "start_trace_time" td) eqn:Htd.
    + pose proof Htd as Hget. apply dict_mem_get in Hget as [v Hv].
      destruct (is_float v) eqn:Hfloat.
      * destruct v; try discriminate.
        rewrite (annotate_float td x t0 fr Hv) in Hrun. simpl in Hrun.
        inversion Hrun; subst. split.
        -- destruct (annotated_mem_start td x (base_time t0 (prev_trace_time fr))
                       (step_counter (self fr)) Htd) as (d' & Hd' & Hmem').
           rewrite Hd', (node_under_trace_set d d' Hmem'), <- Hd'.
           now apply advances_one.
        -- right. eexists. reflexivity.
      * rewrite (annotate_not_float td v t0 fr Hv Hfloat) in Hrun. discriminate.
    + inversion Hrun; subst. unfold node_under_trace. simpl. rewrite Htr, Htd.
      split; [ apply advances_nil | now left ].
Qed.

Lemma for_each_cons_ok {S A B} (body : A -> M S B) (x : A) (xs : list A)
  (s s' : S) (ys : list B) :
  for_each body (x :: xs) s = (s', Ok ys) ->
  exists s1 y ys', body x s = (s1, Ok y) /\ for_each body xs s1 = (s', Ok ys') /\
                   ys = y :: ys'.
Proof.
  simpl. unfold bind, ret.
  destruct (body x s) as [s1 [y | e]] eqn:Hx; [ | discriminate ].
  destruct (for_each body xs s1) as [s2 [ys' | e]] eqn:Hxs; [ | discriminate ].
  intros H. inversion H; subst. exists s1, y, ys'. auto.
Qed.

Lemma for_each_advances (t0 : float) (body : value -> M frame value)
  (nodes_of : value -> list value) :
  (forall x fr fr' x', body x fr = (fr', Ok x') ->
                       advances t0 (nodes_of x) (nodes_of x') fr fr') ->
  forall xs fr fr' xs',
    for_each body xs fr = (fr', Ok xs') ->
    advances t0 (flat_map nodes_of xs) (flat_map nodes_of xs') fr fr'.
Proof.
  intros Hbody xs. induction xs as [ | x xs IH ]; intros fr fr' xs' Hrun.
  - inversion Hrun; subst. apply advances_nil.
  - apply for_each_cons_ok in Hrun as (fr1 & y & ys & Hx & Hxs & ->).
    simpl. eapply advances_app; eauto.
Qed.

(** Lines 172-203: an element of a nested sequence. *)
Lemma visit_item_advances (t0 : float) (item : value) (fr fr' : frame) (x' : value) :
  visit_item item t0 fr = (fr', Ok x') ->
  advances t0 (nodes_of_item item) (nodes_of_item x') fr fr'.
Proof.
  intros Hrun.
  destruct item as [ | b | n | x | s | l | d ];
    try (inversion Hrun; subst; apply advances_nil).
  simpl in Hrun. simpl.
  destruct (dict_mem "start_trace_time" d) eqn:Hd.
  - pose proof Hd as Hget. apply dict_mem_get in Hget as [v Hv].
    destruct (is_float v) eqn:Hfloat.
    + destruct v; try discriminate.
      rewrite (annotate_float d x t0 fr Hv) in Hrun. inversion Hrun; subst.
      destruct (annotated_mem_start d x (base_time t0 (prev_trace_time fr))
                  (step_counter (self fr)) Hd) as (d' & Hd' & Hmem').
      rewrite Hd'. simpl. rewrite Hmem', <- Hd'. now apply advances_one.
    + rewrite (annotate_not_float d v t0 fr Hv Hfloat) in Hrun. discriminate.
  - destruct (dict_mem "trace" d) eqn:Htr.
    + destruct (annotate_trace_of_advances d t0 fr fr' x' Htr Hrun) as [Hadv Hx'].
      destruct Hx' as [-> | [tr' ->]]; simpl.
      * now rewrite Hd, Htr.
      * rewrite !dict_mem_set_present by exact Htr. now rewrite Hd, Htr.
    + inversion Hrun; subst. simpl. rewrite Hd, Htr. apply advances_nil.
Qed.

(** Lines 152-203: a top-level element. *)
Lemma visit_data_advances (t0 : float) (data : value) (fr fr' : frame) (x' : value) :
  visit_data data t0 fr = (fr', Ok x') ->
  advances t0 (nodes_of_data data) (nodes_of_data x') fr fr'.
Proof.
  intros Hrun.
  destruct data as [ | b | n | x | s | l | d ];
    try (inversion Hrun; subst; apply advances_nil).
  - simpl in Hrun. unfold bind, ret in Hrun.
    destruct (for_each (fun item => visit_item item t0) l fr) as [fr1 [l' | e]] eqn:Hl;
      [ | discriminate ].
    inversion Hrun; subst. simpl.
    eapply for_each_advances; [ | exact Hl ].
    intros. now apply visit_item_advances.
  - simpl in Hrun. simpl. destruct (dict_mem "trace" d) eqn:Htr.
    + destruct (annotate_trace_of_advances d t0 fr fr' x' Htr Hrun) as [Hadv Hx'].
      destruct Hx' as [-> | [tr' ->]]; simpl.
      * now rewrite Htr.
      * rewrite dict_mem_set_present by exact Htr. now rewrite Htr.
    + inversion Hrun; subst. simpl. rewrite Htr. apply advances_nil.
Qed.

Lemma for_each_visit_strings (t0 : float) (ss : list string) (fr : frame) :
  for_each (fun data => visit_data data t0) (map VStr ss) fr = (fr, Ok (map VStr ss)).
Proof.
  induction ss as [ | s ss IH ]; simpl; [ reflexivity | ].
  unfold bind, ret in *. simpl. now rewrite IH.
Qed.

Lemma iterate_strings (v : value) (elems : list value) :
  is_list v = false ->
  iterate v = Ok elems ->
  exists ss, elems = map VStr ss.
Proof.
  intros Hv Hit. destruct v; simpl in *; try discriminate; inversion Hit; subst.
  - exists (map (fun c => String c EmptyString) (list_ascii_of_string s)).
    now rewrite map_map.
  - exists (map fst entries). now rewrite map_map.
Qed.

Lemma handle_agent_feature_advances (output_data : value) (t0 : float)
  (r r' : BedrockLogs) (out' : value) :
  handle_agent_feature output_data t0 r = (r', Ok out') ->
  advances t0 (qualifying_nodes output_data) (qualifying_nodes out')
    {| self := set_session_id (Some VNone) r; prev_trace_time := None |}
    {| self := r';
       prev_trace_time := last_start None (qualifying_nodes output_data) |}.
Proof.
  intros Hrun. unfold handle_agent_feature, bind, modify, lift, zoom, ret in Hrun.
  destruct (iterate output_data) as [elems | e] eqn:Hit; [ | discriminate ].
  destruct (is_list output_data) eqn:Hlist.
  - destruct output_data; try discriminate. simpl in Hit. inversion Hit; subst.
    destruct (for_each (fun data => visit_data data t0) elems
                {| self := set_session_id (Some VNone) r; prev_trace_time := None |})
      as [fr1 [l' | e]] eqn:Hl; [ | discriminate ].
    inversion Hrun; subst. simpl.
    pose proof (for_each_advances t0 _ nodes_of_data
                  (fun x fr fr' x' => visit_data_advances t0 x fr fr' x') _ _ _ _ Hl)
      as Hadv.
    destruct Hadv as (Hvalid & Hnodes & Hfr). repeat split; try assumption.
    rewrite Hfr. reflexivity.
  - destruct (iterate_strings output_data elems Hlist Hit) as [ss ->].
    rewrite for_each_visit_strings in Hrun.
    assert (Hout : out' = output_data /\ r' = set_session_id (Some VNone) r).
    { destruct output_data; try discriminate; inversion Hrun; auto. }
    destruct Hout as [-> ->].
    assert (Hq : qualifying_nodes output_data = []).
    { destruct output_data; try discriminate; reflexivity. }
    rewrite Hq. apply advances_nil.
Qed.

Lemma timeline_length (t0 : float) (nodes : list value) :
  forall (prev : option float) (n : Z),
    Forall valid_node nodes ->
    length (timeline t0 prev n nodes) = length nodes.
Proof.
  induction nodes as [ | x nodes IH ]; intros prev n Hv; [ reflexivity | ].
  inversion Hv as [ | ? ? Hx Hv' ]; subst.
  destruct (valid_node_start x Hx) as (d & s & -> & Hs & _).
  simpl. rewrite Hs. simpl. now rewrite IH.
Qed.

Lemma timeline_lookup (t0 : float) (nodes : list value) :
  forall (prev : option float) (n : Z) (k : nat) (node : value),
    Forall valid_node nodes ->
    nodes !! k = Some node ->
    exists d s base,
      node = VDict d /\
      dict_get "start_trace_time" d = Some (VFloat s) /\
      match k with
      | O => Some (base_time t0 prev)
      | S j => nodes !! j ≫= start_of
      end = Some base /\
      timeline t0 prev n nodes !! k = Some (annotated d s base (n + Z.of_nat k)).
Proof.
  induction nodes as [ | x nodes IH ]; intros prev n k node Hv Hk; [ discriminate | ].
  inversion Hv as [ | ? ? Hx Hv' ]; subst.
  destruct (valid_node_start x Hx) as (d & s & -> & Hs & Hd).
  destruct k as [ | k ].
  - inversion Hk; subst. exists d, s, (base_time t0 prev).
    simpl. rewrite Hs. simpl. rewrite Z.add_0_r. auto.
  - simpl in Hk.
    destruct (IH (Some s) (n + 1) k node Hv' Hk) as (d' & s' & base & -> & Hd' & Hb & Ht).
    exists d', s', base. repeat split; try assumption.
    + destruct k as [ | j ]; simpl in *; [ | exact Hb ].
      rewrite Hs. exact Hb.
    + simpl timeline. rewrite Hs. simpl. rewrite Ht.
      replace (n + Z.of_nat (S k)) with (n + 1 + Z.of_nat k) by lia. reflexivity.
Qed.

(** C1: when the annotator returns, on a recorder whose counter holds [n],
    the qualifying nodes of the result are those of the input in the same
    order, the counter has advanced by their number, and the k-th of them
    (from 0) keeps its [start_trace_time], has [step_number] [n + k] and has
    as [latency] its start time minus the call's start time when it is the
    first node, minus the previous qualifying node's start time otherwise. *)
Theorem handle_agent_feature_timeline (output_data : value) (call_start : float)
  (r r' : BedrockLogs) (out' : value) :
  handle_agent_feature output_data call_start r = (r', Ok out') ->
  length (qualifying_nodes out') = length (qualifying_nodes output_data) /\
  step_counter r' =
    step_counter r + Z.of_nat (length (qualifying_nodes output_data)) /\
  forall (k : nat) (node : value),
    qualifying_nodes output_data !! k = Some node ->
    exists (start base : float) (node' : value),
      start_of node = Some start /\
      baseline call_start (qualifying_nodes output_data) k = Some base /\
      qualifying_nodes out' !! k = Some node' /\
      getitem node' "start_trace_time" = Ok (VFloat start) /\
      getitem node' "latency" = Ok (VFloat (PrimFloat.sub start base)) /\
      getitem node' "step_number" = Ok (VInt (step_counter r + Z.of_nat k)).
Proof.
  intros Hrun. apply handle_agent_feature_advances in Hrun.
  destruct Hrun as (Hvalid & Hnodes & Hfr). simpl in Hnodes, Hfr.
  refine (conj _ (conj _ _)).
  - rewrite Hnodes. now apply timeline_length.
  - inversion Hfr as [Hr']. reflexivity.
  - intros k node Hk.
    destruct (timeline_lookup call_start _ None (step_counter r) k node Hvalid Hk)
      as (d & s & base & -> & Hd & Hb & Ht).
    exists s, base, (annotated d s base (step_counter r + Z.of_nat k)).
    refine (conj _ (conj _ (conj _ (conj _ (conj _ _))))).
    + unfold start_of, getitem. now rewrite Hd.
    + exact Hb.
    + rewrite Hnodes. exact Ht.
    + now apply annotated_start.
    + apply annotated_latency.
    + apply annotated_step_number.
Qed.

Lemma handle_agent_feature_timeline_witness :
  handle_agent_feature demo_output 10 (demo_agent 5)
    = (set_session_id (Some VNone) (demo_agent 8), Ok demo_annotated) /\
  length (qualifying_nodes demo_annotated) = length (qualifying_nodes demo_output) /\
  step_counter (set_session_id (Some VNone) (demo_agent 8)) =
    step_counter (demo_agent 5) + Z.of_nat (length (qualifying_nodes demo_output)) /\
  forall (k : nat) (node : value),
    qualifying_nodes demo_output !! k = Some node ->
    exists (start base : float) (node' : value),
      start_of node = Some start /\
      baseline 10 (qualifying_nodes demo_output) k = Some base /\
      qualifying_nodes demo_annotated !! k = Some node' /\
      getitem node' "start_trace_time" = Ok (VFloat start) /\
      getitem node' "latency" = Ok (VFloat (PrimFloat.sub start base)) /\
      getitem node' "step_number" = Ok (VInt (step_counter (demo_agent 5) + Z.of_nat k)).
Proof.
  split; [ reflexivity | ].
  apply (handle_agent_feature_timeline demo_output 10 (demo_agent 5)
           (set_session_id (Some VNone) (demo_agent 8)) demo_annotated).
  reflexivity.
Defined.

(** ** Top-level mappings without a [trace] key *)

Lemma for_each_skip {S} (body : value -> M S value) (x : value) (pre post : list value) :
  (forall s, body x s = (s, Ok x)) ->
  forall s,
    for_each body (pre ++ x :: post) s =
      match for_each body (pre ++ post) s with
      | (s', Ok l') => (s', Ok (insert_at (length pre) x l'))
      | (s', Raise e) => (s', Raise e)
      end.
Proof.
  intros Hx. induction pre as [ | a pre IH ]; intros s; simpl.
  - unfold bind, ret. rewrite Hx.
    destruct (for_each body post s) as [s' [l' | e]]; reflexivity.
  - unfold bind, ret. destruct (body a s) as [s1 [y | e]]; [ | reflexivity ].
    rewrite IH. destruct (for_each body (pre ++ post) s1) as [s' [l' | e]]; reflexivity.
Qed.

Lemma for_each_lookup {S A B} (body : A -> M S B) (xs : list A) :
  forall (s s' : S) (ys : list B) (i : nat) (x : A),
    for_each body xs s = (s', Ok ys) ->
    xs !! i = Some x ->
    exists s1 s2 y, body x s1 = (s2, Ok y) /\ ys !! i = Some y.
Proof.
  induction xs as [ | a xs IH ]; intros s s' ys i x Hrun Hi; [ discriminate | ].
  apply for_each_cons_ok in Hrun as (s1 & y & ys' & Ha & Hxs & ->).
  destruct i as [ | i ].
  - inversion Hi; subst. exists s, s1, y. auto.
  - simpl in Hi. destruct (IH s1 s' ys' i x Hxs Hi) as (t1 & t2 & z & Hz & Hl).
    exists t1, t2, z. auto.
Qed.

Lemma visit_data_no_trace (d : list (string * value)) (t0 : float) (fr : frame) :
  dict_mem "trace" d = false ->
  visit_data (VDict d) t0 fr = (fr, Ok (VDict d)).
Proof.
  intros Hd. simpl. now rewrite Hd.
Qed.

Lemma handle_agent_feature_list (l : list value) (t0 : float) (r : BedrockLogs) :
  handle_agent_feature (VList l) t0 r =
    match for_each (fun data => visit_data data t0) l
            {| self := set_session_id (Some VNone) r; prev_trace_time := None |} with
    | (fr, Ok l') => (self fr, Ok (VList l'))
    | (fr, Raise e) => (self fr, Raise e)
    end.
Proof.
  unfold handle_agent_feature, bind, modify, lift, zoom, ret. simpl.
  destruct (for_each _ l _) as [fr [l' | e]]; reflexivity.
Qed.

Lemma visit_data_top_level_keys (d : list (string * value)) (t0 : float)
  (fr fr' : frame) (x' : value) :
  visit_data (VDict d) t0 fr = (fr', Ok x') ->
  exists d', x' = VDict d' /\
             forall k, k <> "trace" -> dict_get k d' = dict_get k d.
Proof.
  intros Hrun. simpl in Hrun. destruct (dict_mem "trace" d) eqn:Htr.
  - destruct (annotate_trace_of_advances d t0 fr fr' x' Htr Hrun) as [_ Hx'].
    destruct Hx' as [-> | [tr' ->]].
    + exists d. auto.
    + eexists. split; [ reflexivity | ].
      intros k Hk. apply dict_get_set_ne. congruence.
  - inversion Hrun; subst. exists d. auto.
Qed.

(** C10: a top-level element that is a mapping without a [trace] key,
    whether or not it carries [start_trace_time], is skipped: the annotator
    behaves as on the iterable without it and gives the element back
    unchanged at its position, so the counter does not move for it.  No
    top-level mapping is ever annotated itself: all its keys but [trace]
    keep their values.  A mapping that carries a float [start_trace_time]
    and is an element of a sequence inside the top-level iterable does get
    its [latency] and [step_number]. *)
Theorem top_level_steps_are_skipped (call_start : float) (r : BedrockLogs)
  (pre post : list value) :
  (forall d : list (string * value),
      dict_mem "trace" d = false ->
      handle_agent_feature (VList (pre ++ VDict d :: post)) call_start r =
        with_element_at (length pre) (VDict d)
          (handle_agent_feature (VList (pre ++ post)) call_start r)) /\
  (forall (d : list (string * value)) (r' : BedrockLogs) (out' : value),
      handle_agent_feature (VList (pre ++ VDict d :: post)) call_start r = (r', Ok out') ->
      exists l' d',
        out' = VList l' /\ l' !! length pre = Some (VDict d') /\
        forall k, k <> "trace" -> dict_get k d' = dict_get k d) /\
  (forall (d : list (string * value)) (s : float) (ipre ipost : list value)
          (r' : BedrockLogs) (out' : value),
      dict_get "start_trace_time" d = Some (VFloat s) ->
      handle_agent_feature
        (VList (pre ++ VList (ipre ++ VDict d :: ipost) :: post)) call_start r
        = (r', Ok out') ->
      exists (l' li' : list value) (node' : value) (base : float) (n : Z),
        out' = VList l' /\ l' !! length pre = Some (VList li') /\
        li' !! length ipre = Some node' /\
        getitem node' "latency" = Ok (VFloat (PrimFloat.sub s base)) /\
        getitem node' "step_number" = Ok (VInt n)).
Proof.
  refine (conj _ (conj _ _)).
  - intros d Hd. rewrite !handle_agent_feature_list.
    rewrite (for_each_skip _ (VDict d) pre post
               (fun fr => visit_data_no_trace d call_start fr Hd)).
    destruct (for_each _ (pre ++ post) _) as [fr [l' | e]]; reflexivity.
  - intros d r' out' Hrun. rewrite handle_agent_feature_list in Hrun.
    destruct (for_each _ (pre ++ VDict d :: post) _) as [fr [l' | e]] eqn:Hl;
      [ | discriminate ].
    inversion Hrun; subst.
    destruct (for_each_lookup _ _ _ _ _ (length pre) (VDict d) Hl
                (list_lookup_middle pre post (VDict d) (length pre) eq_refl))
      as (s1 & s2 & y & Hy & Hlook).
    destruct (visit_data_top_level_keys d call_start s1 s2 y Hy) as (d' & -> & Hkeys).
    exists l', d'. auto.
  - intros d s ipre ipost r' out' Hs Hrun. rewrite handle_agent_feature_list in Hrun.
    destruct (for_each _ (pre ++ _ :: post) _) as [fr [l' | e]] eqn:Hl;
      [ | discriminate ].
    inversion Hrun; subst.
    destruct (for_each_lookup _ _ _ _ _ (length pre) _ Hl
                (list_lookup_middle pre post _ (length pre) eq_refl))
      as (s1 & s2 & y & Hy & Hlook).
    simpl in Hy. unfold bind, ret in Hy.
    destruct (for_each (fun item => visit_item item call_start) _ s1)
      as [fr1 [li' | e]] eqn:Hli; [ | discriminate ].
    inversion Hy; subst.
    destruct (for_each_lookup _ _ _ _ _ (length ipre) _ Hli
                (list_lookup_middle ipre ipost _ (length ipre) eq_refl))
      as (t1 & t2 & node' & Hnode & Hlook').
    simpl in Hnode.
    assert (Hmem : dict_mem "start_trace_time" d = true)
      by (apply dict_mem_get; eauto).
    rewrite Hmem, (annotate_float d s call_start t1 Hs) in Hnode.
    inversion Hnode; subst.
    exists l', li',
      (annotated d s (base_time call_start (prev_trace_time t1)) (step_counter (self t1))),
      (base_time call_start (prev_trace_time t1)), (step_counter (self t1)).
    refine (conj eq_refl (conj Hlook (conj Hlook' (conj _ _)))).
    + apply annotated_latency.
    + apply annotated_step_number.
Qed.

Lemma top_level_steps_are_skipped_witness :
  dict_mem "trace" [("start_trace_time", VFloat 11.5)] = false /\
  handle_agent_feature (VList ([] ++ bare_step :: [])) 10 (demo_agent 5)
    = (set_session_id (Some VNone) (demo_agent 5), Ok (VList [bare_step])).
Proof.
  split; [ reflexivity | ].
  destruct (top_level_steps_are_skipped 10 (demo_agent 5) [] []) as (Hskip & _ & _).
  unfold bare_step.
  rewrite (Hskip [("start_trace_time", VFloat 11.5)] eq_refl). reflexivity.
Defined.

(** ** The validation error *)

Lemma annotate_dict_outcome (d : list (string * value)) (t0 : float) (fr : frame) :
  dict_mem "start_trace_time" d = true ->
  (invalid_start (VDict d) = false /\ exists fr' x', annotate (VDict d) t0 fr = (fr', Ok x'))
  \/ (invalid_start (VDict d) = true /\
      annotate (VDict d) t0 fr = (fr, Raise start_trace_time_error)).
Proof.
  intros Hd. apply dict_mem_get in Hd as [v Hv].
  destruct (is_float v) eqn:Hfloat.
  - left. destruct v; try discriminate.
    rewrite (annotate_float d x t0 fr Hv).
    split; [ | eauto ]. unfold invalid_start, start_of, getitem. now rewrite Hv.
  - right. rewrite (annotate_not_float d v t0 fr Hv Hfloat).
    split; [ | reflexivity ]. unfold invalid_start, start_of, getitem. rewrite Hv.
    destruct v; try reflexivity; discriminate.
Qed.

Lemma annotate_trace_of_outcome (d : list (string * value)) (t0 : float)
  (fr fr' : frame) (res : result value) :
  dict_mem "trace" d = true ->
  annotate_trace_of (VDict d) t0 fr = (fr', res) ->
  visit_outcome (node_under_trace (VDict d)) (trace_is_mapping (VDict d)) res.
Proof.
  intros Hmem Hrun. apply dict_mem_get in Hmem as [tr Htr].
  unfold annotate_trace_of, bind, lift in Hrun. simpl in Hrun.
  unfold node_under_trace, trace_is_mapping. simpl. rewrite Htr in *.
  destruct tr as [ | b | n | x | s | l | td ]; simpl in Hrun;
    try (inversion Hrun; subst; apply visit_misshaped; [ reflexivity | discriminate ]).
  - destruct (is_substring "start_trace_time" s); inversion Hrun; subst.
    + apply visit_misshaped; [ reflexivity | discriminate ].
    + apply visit_returns. constructor.
  - match type of Hrun with context [existsb ?f l] => destruct (existsb f l) end;
      inversion Hrun; subst.
    + apply visit_misshaped; [ reflexivity | discriminate ].
    + apply visit_returns. constructor.
  - destruct (dict_mem "start_trace_time" td) eqn:Htd.
    + destruct (annotate_dict_outcome td t0 fr Htd)
        as [(Hvalid & fr1 & x1 & Hok) | (Hinvalid & Hraise)].
      * rewrite Hok in Hrun. simpl in Hrun. inversion Hrun; subst.
        apply visit_returns. constructor; [ exact Hvalid | constructor ].
      * rewrite Hraise in Hrun. inversion Hrun; subst.
        eapply visit_invalid; [ now left | exact Hinvalid ].
    + inversion Hrun; subst. apply visit_returns. constructor.
Qed.

Lemma visit_item_outcome (t0 : float) (item : value) (fr fr' : frame)
  (res : result value) :
  visit_item item t0 fr = (fr', res) ->
  visit_outcome (nodes_of_item item) (item_shaped item) res.
Proof.
  intros Hrun.
  destruct item as [ | b | n | x | s | l | d ];
    try (inversion Hrun; subst; apply visit_returns; constructor).
  simpl in *. destruct (dict_mem "start_trace_time" d) eqn:Hd.
  - destruct (annotate_dict_outcome d t0 fr Hd)
      as [(Hvalid & fr1 & x1 & Hok) | (Hinvalid & Hraise)].
    + rewrite Hok in Hrun. inversion Hrun; subst.
      apply visit_returns. constructor; [ exact Hvalid | constructor ].
    + rewrite Hraise in Hrun. inversion Hrun; subst.
      eapply visit_invalid; [ now left | exact Hinvalid ].
  - destruct (dict_mem "trace" d) eqn:Htr.
    + now apply (annotate_trace_of_outcome d t0 fr fr').
    + inversion Hrun; subst. apply visit_returns. constructor.
Qed.

Lemma for_each_outcome {A} (body : A -> M frame value)
  (nodes_of : A -> list value) (shaped : A -> bool) :
  (forall x fr fr' res, body x fr = (fr', res) ->
                        visit_outcome (nodes_of x) (shaped x) res) ->
  forall xs fr fr' res,
    for_each body xs fr = (fr', res) ->
    visit_outcome (flat_map nodes_of xs) (forallb shaped xs) res.
Proof.
  intros Hbody xs. induction xs as [ | x xs IH ]; intros fr fr' res Hrun.
  - inversion Hrun; subst. apply visit_returns. constructor.
  - simpl in Hrun. unfold bind, ret in Hrun.
    destruct (body x fr) as [fr1 rx] eqn:Hx. apply Hbody in Hx.
    destruct Hx as [ y Hy | node Hin Hinv | e Hsh He ].
    + destruct (for_each body xs fr1) as [fr2 rxs] eqn:Hxs. apply IH in Hxs.
      destruct Hxs as [ ys Hys | node Hin Hinv | e Hsh He ];
        inversion Hrun; subst; simpl.
      * apply visit_returns. now apply Forall_app.
      * eapply visit_invalid; [ apply in_or_app; right; exact Hin | exact Hinv ].
      * apply visit_misshaped; [ | exact He ]. rewrite Hsh. apply andb_false_r.
    + inversion Hrun; subst. simpl.
      eapply visit_invalid; [ apply in_or_app; left; exact Hin | exact Hinv ].
    + inversion Hrun; subst. simpl.
      apply visit_misshaped; [ | exact He ]. now rewrite Hsh.
Qed.

Lemma visit_data_outcome (t0 : float) (data : value) (fr fr' : frame)
  (res : result value) :
  visit_data data t0 fr = (fr', res) ->
  visit_outcome (nodes_of_data data) (data_shaped data) res.
Proof.
  intros Hrun.
  destruct data as [ | b | n | x | s | l | d ];
    try (inversion Hrun; subst; apply visit_returns; constructor).
  - simpl in *. unfold bind, ret in Hrun.
    destruct (for_each (fun item => visit_item item t0) l fr) as [fr1 rl] eqn:Hl.
    apply (for_each_outcome _ nodes_of_item item_shaped) in Hl;
      [ | intros; eapply visit_item_outcome; eassumption ].
    destruct Hl as [ ys Hys | node Hin Hinv | e Hsh He ]; inversion Hrun; subst.
    + now apply visit_returns.
    + eapply visit_invalid; eassumption.
    + now apply visit_misshaped.
  - simpl in *. destruct (dict_mem "trace" d) eqn:Htr.
    + now apply (annotate_trace_of_outcome d t0 fr fr').
    + inversion Hrun; subst. apply visit_returns. constructor.
Qed.

Lemma handle_agent_feature_outcome (l : list value) (t0 : float)
  (r r' : BedrockLogs) (res : result value) :
  handle_agent_feature (VList l) t0 r = (r', res) ->
  visit_outcome (qualifying_nodes (VList l)) (traces_are_mappings (VList l)) res.
Proof.
  rewrite handle_agent_feature_list. intros Hrun.
  destruct (for_each _ l _) as [fr rl] eqn:Hl.
  apply (for_each_outcome _ nodes_of_data data_shaped) in Hl;
    [ | intros; eapply visit_data_outcome; eassumption ].
  simpl. destruct Hl as [ ys Hys | node Hin Hinv | e Hsh He ]; inversion Hrun; subst.
  - now apply visit_returns.
  - eapply visit_invalid; eassumption.
  - now apply visit_misshaped.
Qed.

(** ** The wrapper *)

(** ** The wrapper *)

Ltac run_prefix :=
  cbv beta iota zeta delta
    [inner watch bind on_world on_obj zoom now new_uuid modify lift
     after_call later input_log_of call_start_of];
  cbn [obj wld ticks uuids calls fst snd Nat.add].

Ltac run_prefix_in H :=
  cbv beta iota zeta delta
    [inner watch bind on_world on_obj zoom now new_uuid modify lift
     after_call later input_log_of call_start_of] in H;
  cbn [obj wld ticks uuids calls fst snd Nat.add] in H.

Lemma inner_target_raises (E : env) (capture_input capture_output : bool)
  (call_type : option string) (func : target) (args : list value)
  (kwargs : list (string * value)) (st : state) (e : exn) :
  func args kwargs = Raise e ->
  inner E capture_input capture_output call_type func args kwargs st =
    (after_call E 3 st, Raise e).
Proof.
  intros Hfunc. run_prefix. rewrite Hfunc. reflexivity.
Qed.

Lemma inner_resolve_raises (E : env) (capture_input capture_output : bool)
  (call_type : option string) (func : target) (args : list value)
  (kwargs : list (string * value)) (st st' : state) (result : value) (e : exn) :
  func args kwargs = Ok result ->
  resolve_run E (input_log_of capture_input args)
    (if capture_output then result else VNone) (call_start_of E st)
    (after_call E 5 st) = (st', Raise e) ->
  inner E capture_input capture_output call_type func args kwargs st = (st', Raise e).
Proof.
  intros Hfunc Hres. run_prefix. run_prefix_in Hres.
  rewrite Hfunc, Hres. reflexivity.
Qed.

Lemma resolve_run_annotation_raises (E : env) (input_log out : value) (t0 : float)
  (st : state) (r' : BedrockLogs) (e : exn) :
  is_agent (obj st) = true ->
  out <> VNone ->
  handle_agent_feature out t0 (obj st) = (r', Raise e) ->
  resolve_run E input_log out t0 st = ({| obj := r'; wld := wld st |}, Raise e).
Proof.
  intros Hagent Hout Hraise.
  unfold resolve_run, bind, get, on_obj, zoom. rewrite Hagent.
  destruct out; try contradiction; rewrite Hraise; reflexivity.
Qed.

Lemma resolve_run_first_item_raises (E : env) (input_log out out' : value) (t0 : float)
  (st : state) (r' : BedrockLogs) (e : exn) :
  is_agent (obj st) = true ->
  out <> VNone ->
  handle_agent_feature out t0 (obj st) = (r', Ok out') ->
  first_item out' = Raise e ->
  resolve_run E input_log out t0 st = ({| obj := r'; wld := wld st |}, Raise e).
Proof.
  intros Hagent Hout Hok Hfirst.
  unfold resolve_run, bind, get, on_obj, zoom, lift. rewrite Hagent.
  destruct out; try contradiction; rewrite Hok, Hfirst; reflexivity.
Qed.

(** ** The step counter never goes down *)

Section Nondecreasing.
Context {S : Type} (c : S -> Z).

Lemma nondecreasing_ret {A} (a : A) : nondecreasing c (ret a).
Proof.
  intros s. simpl. lia.
Qed.

Lemma nondecreasing_raise {A} (e : exn) : nondecreasing c (@raise S A e).
Proof.
  intros s. simpl. lia.
Qed.

Lemma nondecreasing_lift {A} (r : result A) : nondecreasing c (lift r).
Proof.
  intros s. simpl. lia.
Qed.

Lemma nondecreasing_get : nondecreasing c get.
Proof.
  intros s. simpl. lia.
Qed.

Lemma nondecreasing_modify (f : S -> S) :
  (forall s, c s <= c (f s)) -> nondecreasing c (modify f).
Proof.
  intros Hf s. simpl. apply Hf.
Qed.

Lemma nondecreasing_bind {A B} (m : M S A) (k : A -> M S B) :
  nondecreasing c m ->
  (forall a, nondecreasing c (k a)) ->
  nondecreasing c (bind m k).
Proof.
  intros Hm Hk s. unfold bind. specialize (Hm s).
  destruct (m s) as [s1 [a | e]]; simpl in *; [ | exact Hm ].
  specialize (Hk a s1). lia.
Qed.

Lemma nondecreasing_for_each {A B} (body : A -> M S B) (xs : list A) :
  (forall x, nondecreasing c (body x)) ->
  nondecreasing c (for_each body xs).
Proof.
  intros Hbody. induction xs as [ | x xs IH ]; simpl.
  - apply nondecreasing_ret.
  - apply nondecreasing_bind; [ apply Hbody | ]. intros y.
    apply nondecreasing_bind; [ exact IH | ]. intros ys. apply nondecreasing_ret.
Qed.

Lemma nondecreasing_zoom {T A} (cT : T -> Z) (proj : S -> T) (inj : T -> S -> S)
  (m : M T A) :
  (forall s, c s = cT (proj s)) ->
  (forall t s, c (inj t s) = cT t) ->
  nondecreasing cT m ->
  nondecreasing c (zoom proj inj m).
Proof.
  intros Hproj Hinj Hm s. unfold zoom. specialize (Hm (proj s)).
  destruct (m (proj s)) as [t r]. simpl in *. rewrite Hinj, Hproj. exact Hm.
Qed.
End Nondecreasing.

(** Walk through a computation, closing the calls of already treated
    functions with [leaf]. *)
Ltac counter_steps leaf :=
  repeat first
    [ leaf
    | apply nondecreasing_ret | apply nondecreasing_raise | apply nondecreasing_lift
    | apply nondecreasing_get
    | apply nondecreasing_bind; [ | intros ? ]
    | match goal with
      | |- nondecreasing _ (if ?b then _ else _) => destruct b
      | |- nondecreasing _ (match ?x with _ => _ end) => destruct x
      end ].

Lemma annotate_nondecreasing (node : value) (t0 : float) :
  nondecreasing frame_counter (annotate node t0).
Proof.
  unfold annotate.
  counter_steps
    ltac:(apply nondecreasing_modify; intros fr; unfold frame_counter; simpl; lia).
Qed.

Lemma annotate_trace_of_nondecreasing (data : value) (t0 : float) :
  nondecreasing frame_counter (annotate_trace_of data t0).
Proof.
  unfold annotate_trace_of. counter_steps ltac:(apply annotate_nondecreasing).
Qed.

Lemma visit_item_nondecreasing (item : value) (t0 : float) :
  nondecreasing frame_counter (visit_item item t0).
Proof.
  unfold visit_item.
  counter_steps
    ltac:(first [ apply annotate_nondecreasing | apply annotate_trace_of_nondecreasing ]).
Qed.

Lemma visit_data_nondecreasing (data : value) (t0 : float) :
  nondecreasing frame_counter (visit_data data t0).
Proof.
  unfold visit_data.
  counter_steps
    ltac:(first [ apply annotate_trace_of_nondecreasing
                | apply nondecreasing_for_each; intros x; apply visit_item_nondecreasing ]).
Qed.

Lemma handle_agent_feature_nondecreasing (out : value) (t0 : float) :
  nondecreasing step_counter (handle_agent_feature out t0).
Proof.
  unfold handle_agent_feature.
  apply nondecreasing_bind; [ apply nondecreasing_modify; intros r; simpl; lia | ].
  intros _. apply nondecreasing_bind; [ apply nondecreasing_lift | ]. intros elems.
  apply nondecreasing_bind; [ | intros; apply nondecreasing_ret ].
  apply (nondecreasing_zoom step_counter frame_counter); try reflexivity.
  apply nondecreasing_for_each. intros x. apply visit_data_nondecreasing.
Qed.

Lemma on_world_nondecreasing {A} (m : M world A) :
  nondecreasing state_counter (on_world m).
Proof.
  intros st. unfold on_world, zoom, state_counter. destruct (m (wld st)). simpl. lia.
Qed.

Lemma on_obj_nondecreasing {A} (m : M BedrockLogs A) :
  nondecreasing step_counter m ->
  nondecreasing state_counter (on_obj m).
Proof.
  intros Hm. unfold on_obj.
  now apply (nondecreasing_zoom state_counter step_counter).
Qed.

Lemma extract_session_id_obj (E : env) (log_data : value) (st : state) :
  obj (fst (extract_session_id E log_data st)) = obj st.
Proof.
  rewrite extract_session_id_eq.
  destruct (find_keys log_data (session_key (obj st)) []) as [ | [q v] rest ];
    reflexivity.
Qed.

Lemma extract_session_id_nondecreasing (E : env) (log_data : value) :
  nondecreasing state_counter (extract_session_id E log_data).
Proof.
  intros st. unfold state_counter. rewrite extract_session_id_obj. lia.
Qed.

Ltac state_leaf E :=
  first
    [ apply on_world_nondecreasing
    | apply (extract_session_id_nondecreasing E)
    | apply on_obj_nondecreasing; apply handle_agent_feature_nondecreasing ].

Lemma save_log_to_s3_nondecreasing (E : env) (metadata : value) (object_key : string) :
  nondecreasing state_counter (save_log_to_s3 E metadata object_key).
Proof.
  unfold save_log_to_s3. counter_steps ltac:(state_leaf E).
Qed.

Lemma resolve_run_nondecreasing (E : env) (input_log output_data : value) (t0 : float) :
  nondecreasing state_counter (resolve_run E input_log output_data t0).
Proof.
  unfold resolve_run. counter_steps ltac:(state_leaf E).
Qed.

Lemma assemble_nondecreasing (E : env) (call_type : option string)
  (kwargs : list (string * value)) (run_id : value)
  (observation_id obs_timestamp : string)
  (start_time end_time logging_start_time : float) (input_log output_data : value) :
  nondecreasing state_counter
    (assemble E call_type kwargs run_id observation_id obs_timestamp
       start_time end_time logging_start_time input_log output_data).
Proof.
  unfold assemble. counter_steps ltac:(state_leaf E).
Qed.

Lemma dispatch_nondecreasing (E : env) (result run_id : value)
  (observation_id : string) (metadata : value) :
  nondecreasing state_counter (dispatch E result run_id observation_id metadata).
Proof.
  unfold dispatch.
  counter_steps ltac:(first [ state_leaf E | apply save_log_to_s3_nondecreasing ]).
Qed.

Lemma inner_nondecreasing (E : env) (capture_input capture_output : bool)
  (call_type : option string) (func : target) (args : list value)
  (kwargs : list (string * value)) :
  nondecreasing state_counter
    (inner E capture_input capture_output call_type func args kwargs).
Proof.
  unfold inner.
  counter_steps
    ltac:(first [ state_leaf E
                | apply resolve_run_nondecreasing
                | apply assemble_nondecreasing
                | apply dispatch_nondecreasing
                | apply on_obj_nondecreasing; apply nondecreasing_modify;
                  intros r; simpl; lia ]).
Qed.

(** C6: when the wrapped function raises, the wrapper raises the same
    exception, no call to a service is made and the step counter keeps its
    value. *)
Theorem target_failure_propagates (E : env) (capture_input capture_output : bool)
  (call_type : option string) (func : target) (args : list value)
  (kwargs : list (string * value)) (st : state) (e : exn) :
  func args kwargs = Raise e ->
  snd (watch E capture_input capture_output call_type func args kwargs st) = Raise e /\
  calls (wld (fst (watch E capture_input capture_output call_type func args kwargs st)))
    = calls (wld st) /\
  step_counter
    (obj (fst (watch E capture_input capture_output call_type func args kwargs st)))
    = step_counter (obj st).
Proof.
  intros Hfunc. unfold watch.
  rewrite (inner_target_raises E _ _ _ func args kwargs st e Hfunc).
  repeat split.
Qed.

Lemma target_failure_propagates_witness :
  failing_target [VInt 5] [] = Raise (Exception "boom") /\
  snd (watch demo_env true true None failing_target [VInt 5] [] agent_state)
    = Raise (Exception "boom") /\
  calls (wld (fst (watch demo_env true true None failing_target [VInt 5] [] agent_state)))
    = calls (wld agent_state) /\
  step_counter
    (obj (fst (watch demo_env true true None failing_target [VInt 5] [] agent_state)))
    = step_counter (obj agent_state).
Proof.
  split; [ reflexivity | ].
  apply (target_failure_propagates demo_env true true None failing_target
           [VInt 5] [] agent_state (Exception "boom")).
  reflexivity.
Defined.

(** C9: with feature label "Agent" and the output captured, a wrapped
    function that returns the empty list makes the wrapper raise
    [IndexError], and no call to a service is made.  More generally the
    wrapper takes the first element of whatever the annotator returns: when
    that fails, the wrapper raises that exception. *)
Theorem empty_agent_output_raises (E : env) (capture_input : bool)
  (call_type : option string) (func : target) (args : list value)
  (kwargs : list (string * value)) (st : state) :
  is_agent (obj st) = true ->
  (func args kwargs = Ok (VList []) ->
   snd (watch E capture_input true call_type func args kwargs st) = Raise IndexError /\
   calls (wld (fst (watch E capture_input true call_type func args kwargs st)))
     = calls (wld st)) /\
  (forall (out out' : value) (r' : BedrockLogs) (e : exn),
      func args kwargs = Ok out ->
      out <> VNone ->
      handle_agent_feature out (call_start_of E st) (obj (after_call E 5 st))
        = (r', Ok out') ->
      first_item out' = Raise e ->
      snd (watch E capture_input true call_type func args kwargs st) = Raise e /\
      calls (wld (fst (watch E capture_input true call_type func args kwargs st)))
        = calls (wld st)).
Proof.
  intros Hagent.
  assert (Hgen : forall (out out' : value) (r' : BedrockLogs) (e : exn),
             func args kwargs = Ok out ->
             out <> VNone ->
             handle_agent_feature out (call_start_of E st) (obj (after_call E 5 st))
               = (r', Ok out') ->
             first_item out' = Raise e ->
             snd (watch E capture_input true call_type func args kwargs st) = Raise e /\
             calls (wld (fst (watch E capture_input true call_type func args kwargs st)))
               = calls (wld st)).
  { intros out out' r' e Hfunc Hout Hok Hfirst. unfold watch.
    rewrite (inner_resolve_raises E capture_input true call_type func args kwargs st
               {| obj := r'; wld := wld (after_call E 5 st) |} out e Hfunc).
    - split; reflexivity.
    - now apply (resolve_run_first_item_raises E _ out out'). }
  split; [ | exact Hgen ].
  intros Hfunc.
  apply (Hgen (VList []) (VList [])
           (set_session_id (Some VNone) (obj (after_call E 5 st))) IndexError);
    try reflexivity; try assumption; discriminate.
Qed.

Lemma empty_agent_output_raises_witness :
  is_agent (obj agent_state) = true /\
  constant_target (VList []) [VInt 5] [] = Ok (VList []) /\
  snd (watch demo_env true true None (constant_target (VList [])) [VInt 5] [] agent_state)
    = Raise IndexError /\
  calls (wld (fst (watch demo_env true true None (constant_target (VList []))
                     [VInt 5] [] agent_state)))
    = calls (wld agent_state).
Proof.
  split; [ reflexivity | ]. split; [ reflexivity | ].
  apply (empty_agent_output_raises demo_env true None (constant_target (VList []))
           [VInt 5] [] agent_state eq_refl).
  reflexivity.
Defined.

(** ** Recorders side by side *)

Lemma bind_ok_inv {S A B} (m : M S A) (k : A -> M S B) (s s' : S) (b : B) :
  bind m k s = (s', Ok b) ->
  exists s1 a, m s = (s1, Ok a) /\ k a s1 = (s', Ok b).
Proof.
  unfold bind. destruct (m s) as [s1 [a | e]]; [ eauto | discriminate ].
Qed.

Lemma init_counter_zero (E : env) (a : init_args) (w w' : world) (r : BedrockLogs) :
  init E a w = (w', Ok r) -> step_counter r = 0.
Proof.
  unfold init. intros Hinit.
  apply bind_ok_inv in Hinit as (w1 & [] & _ & Hinit).
  destruct (arg_delivery_stream_name a) as [stream | ]; [ | discriminate ].
  destruct (arg_s3_bucket_name a) as [bucket | ]; [ | discriminate ].
  destruct (String.eqb stream "local"); [ inversion Hinit; reflexivity | ].
  destruct (String.eqb stream "s3").
  - apply bind_ok_inv in Hinit as (w2 & [] & _ & Hinit).
    apply bind_ok_inv in Hinit as (w3 & [] & _ & Hinit).
    inversion Hinit; reflexivity.
  - apply bind_ok_inv in Hinit as (w2 & [] & _ & Hinit).
    inversion Hinit; reflexivity.
Qed.

Lemma exec_keeps_or_raises (E : env) (o : op) (p : process) (i : nat) (n : Z) :
  counter_of p i = Some n ->
  exists n', counter_of (exec E o p) i = Some n' /\ n <= n'.
Proof.
  unfold counter_of. intros Hi.
  destruct (instances p !! i) as [r | ] eqn:Hr; [ | discriminate ].
  simpl in Hi. inversion Hi; subst.
  destruct o as [ a | j capture_input capture_output call_type func args kwargs ]; simpl.
  - destruct (init E a (outside p)) as [w [r' | e]]; simpl.
    + rewrite lookup_app_l by (now apply lookup_lt_Some in Hr).
      rewrite Hr. eexists. split; [ reflexivity | lia ].
    + rewrite Hr. eexists. split; [ reflexivity | lia ].
  - destruct (instances p !! j) as [rj | ] eqn:Hj; simpl.
    + destruct (decide (j = i)) as [-> | Hne].
      * rewrite list_lookup_insert_eq by (now apply lookup_lt_Some in Hr).
        eexists. split; [ reflexivity | ].
        rewrite Hr in Hj. inversion Hj; subst.
        apply (inner_nondecreasing E capture_input capture_output call_type
                 func args kwargs {| obj := rj; wld := outside p |}).
      * rewrite list_lookup_insert_ne by exact Hne.
        rewrite Hr. eexists. split; [ reflexivity | lia ].
    + rewrite Hr. eexists. split; [ reflexivity | lia ].
Qed.

Lemma run_keeps_or_raises (E : env) (ops : list op) :
  forall (p : process) (i : nat) (n : Z),
    counter_of p i = Some n ->
    exists n', counter_of (run E ops p) i = Some n' /\ n <= n'.
Proof.
  induction ops as [ | o ops IH ]; intros p i n Hi.
  - exists n. split; [ exact Hi | lia ].
  - destruct (exec_keeps_or_raises E o p i n Hi) as (n1 & H1 & Hle1).
    destruct (IH (exec E o p) i n1 H1) as (n2 & H2 & Hle2).
    exists n2. split; [ exact H2 | lia ].
Qed.

(** C7: the step counter of a recorder never goes down.  A wrapped call
    leaves it at least as large, whether the call returns or raises, and so
    does every other operation of the recorder; over any sequence of
    constructor calls and wrapped calls in a process the counter of every
    existing instance is non-decreasing; a constructor call that succeeds
    yields a recorder whose counter is zero and leaves the counters of the
    existing instances as they are; a wrapped call on one instance leaves
    the counters of the other instances as they are. *)
Theorem step_counter_monotone (E : env) :
  (forall capture_input capture_output call_type func args kwargs (st : state),
      step_counter (obj st) <=
      step_counter
        (obj (fst (watch E capture_input capture_output call_type func args kwargs st)))) /\
  (forall (out : value) (t0 : float) (r : BedrockLogs),
      step_counter r <= step_counter (fst (handle_agent_feature out t0 r))) /\
  (forall (log_data : value) (st : state),
      obj (fst (extract_session_id E log_data st)) = obj st) /\
  (forall (metadata : value) (object_key : string) (st : state),
      step_counter (obj st) <=
      step_counter (obj (fst (save_log_to_s3 E metadata object_key st)))) /\
  (forall (ops : list op) (p : process) (i : nat) (n : Z),
      counter_of p i = Some n ->
      exists n', counter_of (run E ops p) i = Some n' /\ n <= n') /\
  (forall (a : init_args) (w w' : world) (r : BedrockLogs),
      init E a w = (w', Ok r) -> step_counter r = 0) /\
  (forall (a : init_args) (p : process) (i : nat) (n : Z),
      counter_of p i = Some n -> counter_of (exec E (New a) p) i = Some n) /\
  (forall (i j : nat) capture_input capture_output call_type func args kwargs
          (p : process),
      i <> j ->
      counter_of
        (exec E (Call i capture_input capture_output call_type func args kwargs) p) j
      = counter_of p j).
Proof.
  refine (conj _ (conj _ (conj _ (conj _ (conj _ (conj _ (conj _ _))))))).
  - intros. apply (inner_nondecreasing E).
  - intros. apply handle_agent_feature_nondecreasing.
  - intros. apply extract_session_id_obj.
  - intros. apply (save_log_to_s3_nondecreasing E).
  - intros ops p i n. apply run_keeps_or_raises.
  - intros a w w' r. apply init_counter_zero.
  - intros a p i n. unfold counter_of. simpl. intros Hi.
    destruct (instances p !! i) as [r | ] eqn:Hr; [ | discriminate ].
    destruct (init E a (outside p)) as [w [r' | e]]; simpl.
    + rewrite lookup_app_l by (now apply lookup_lt_Some in Hr). now rewrite Hr.
    + now rewrite Hr.
  - intros i j capture_input capture_output call_type func args kwargs p Hne.
    unfold counter_of. simpl.
    destruct (instances p !! i) as [r | ]; simpl; [ | reflexivity ].
    now rewrite list_lookup_insert_ne.
Qed.

(** ** The constructor *)

(** C8: a feature label outside the enumeration makes the constructor raise
    its [ValueError] at once, and the world is left as it was: no client is
    created and no bucket is checked or created.  ["Bogus"] is such a
    label. *)
Theorem invalid_feature_name_rejected (E : env) (a : init_args) (f : string) (w : world) :
  arg_feature_name a = Some f ->
  mem_string f VALID_FEATURE_NAMES = false ->
  init E a w = (w, Raise (invalid_feature_error f)).
Proof.
  intros Hf Hmem. unfold init, bind, check_feature_name, raise.
  now rewrite Hf, Hmem.
Qed.

Lemma invalid_feature_name_rejected_witness :
  arg_feature_name bogus_feature = Some "Bogus" /\
  mem_string "Bogus" VALID_FEATURE_NAMES = false /\
  init demo_env bogus_feature fresh_world
    = (fresh_world, Raise (invalid_feature_error "Bogus")).
Proof.
  split; [ reflexivity | ]. split; [ reflexivity | ].
  apply (invalid_feature_name_rejected demo_env bogus_feature "Bogus" fresh_world);
    reflexivity.
Defined.

Lemma init_without_bucket (E : env) (a : init_args) (stream : string) (w : world) :
  match arg_feature_name a with
  | Some f => mem_string f VALID_FEATURE_NAMES = true
  | None => True
  end ->
  arg_delivery_stream_name a = Some stream ->
  arg_s3_bucket_name a = None ->
  init E a w = (w, Raise missing_bucket_error).
Proof.
  intros Hf Hs Hb. unfold init, bind, check_feature_name, raise, ret.
  rewrite Hs, Hb. destruct (arg_feature_name a) as [f | ]; [ | reflexivity ].
  now rewrite Hf.
Qed.

(** C4, on the code: [BedrockLogs(delivery_stream_name='local')] and
    [BedrockLogs(delivery_stream_name='my-stream')], which name no bucket,
    raise the [ValueError] whose message asks for a bucket name "if
    streaming is set equals to 's3'": the check of line 41 does not look at
    the sink. *)
Theorem missing_bucket_rejected_for_every_sink (E : env) (w : world) :
  init E local_without_bucket w = (w, Raise missing_bucket_error) /\
  init E stream_without_bucket w = (w, Raise missing_bucket_error).
Proof.
  split.
  - apply (init_without_bucket E local_without_bucket "local" w);
      solve [ reflexivity | exact I ].
  - apply (init_without_bucket E stream_without_bucket "my-stream" w);
      solve [ reflexivity | exact I ].
Qed.

(** ** The validation error, through the wrapper *)

Lemma node_under_trace_carries_start (data node : value) :
  In node (node_under_trace data) ->
  exists d v, node = VDict d /\ dict_get "start_trace_time" d = Some v.
Proof.
  unfold node_under_trace.
  destruct (getitem data "trace") as [[ | | | | | | t] | e]; try contradiction.
  destruct (dict_mem "start_trace_time" t) eqn:Ht; [ | contradiction ].
  intros [<- | []]. apply dict_mem_get in Ht as [v Hv]. eauto.
Qed.

Lemma nodes_of_item_carry_start (item node : value) :
  In node (nodes_of_item item) ->
  exists d v, node = VDict d /\ dict_get "start_trace_time" d = Some v.
Proof.
  destruct item as [ | | | | | | d ]; try contradiction. simpl.
  destruct (dict_mem "start_trace_time" d) eqn:Hd.
  - intros [<- | []]. apply dict_mem_get in Hd as [v Hv]. eauto.
  - destruct (dict_mem "trace" d); [ apply node_under_trace_carries_start | contradiction ].
Qed.

Lemma qualifying_nodes_carry_start (out node : value) :
  In node (qualifying_nodes out) ->
  exists d v, node = VDict d /\ dict_get "start_trace_time" d = Some v /\
              invalid_start node = negb (is_float v).
Proof.
  intros Hin.
  assert (H : exists d v, node = VDict d /\ dict_get "start_trace_time" d = Some v).
  { destruct out as [ | | | | | l | ]; try contradiction. simpl in Hin.
    apply in_flat_map in Hin as (data & _ & Hin).
    destruct data as [ | | | | | items | d ]; try contradiction; simpl in Hin.
    - apply in_flat_map in Hin as (item & _ & Hin).
      now apply (nodes_of_item_carry_start item).
    - destruct (dict_mem "trace" d); [ | contradiction ].
      now apply (node_under_trace_carries_start (VDict d)). }
  destruct H as (d & v & -> & Hv). exists d, v. repeat split; try assumption.
  unfold invalid_start, start_of, getitem. rewrite Hv. now destruct v.
Qed.

Lemma handle_agent_feature_not_list (out : value) (t0 : float) (r : BedrockLogs) :
  is_list out = false ->
  snd (handle_agent_feature out t0 r) =
    match iterate out with
    | Ok _ => Ok out
    | Raise e => Raise e
    end.
Proof.
  intros Hlist. unfold handle_agent_feature, bind, modify, lift, zoom, ret.
  destruct (iterate out) as [elems | e] eqn:Hit; [ | reflexivity ].
  destruct (iterate_strings out elems Hlist Hit) as [ss ->].
  rewrite for_each_visit_strings. now destruct out.
Qed.

(** C5, as amended: with feature label "Agent" and the output captured, a
    qualifying node whose [start_trace_time] is not a float (the type of
    [time.time()]; an [int] is refused like a string)
    makes the wrapper raise instead of returning, and no call to a service is
    made; the exception is the validation error whenever every [trace] value
    of the output is a mapping.  When the [start_trace_time] of every
    qualifying node is a float the annotator raises no [ValueError], and it
    returns when moreover every [trace] value is a mapping.  A qualifying
    node is a mapping with a [start_trace_time]. *)
Theorem invalid_start_trace_time_fails (E : env) (capture_input : bool)
  (call_type : option string) (func : target) (args : list value)
  (kwargs : list (string * value)) (st : state) (out : value) :
  is_agent (obj st) = true ->
  func args kwargs = Ok out ->
  (forall node : value,
      In node (qualifying_nodes out) ->
      exists d v, node = VDict d /\ dict_get "start_trace_time" d = Some v /\
                  invalid_start node = negb (is_float v)) /\
  (forall node : value,
      In node (qualifying_nodes out) ->
      invalid_start node = true ->
      (exists e,
          snd (watch E capture_input true call_type func args kwargs st) = Raise e) /\
      calls (wld (fst (watch E capture_input true call_type func args kwargs st)))
        = calls (wld st) /\
      (traces_are_mappings out = true ->
       snd (watch E capture_input true call_type func args kwargs st)
         = Raise start_trace_time_error)) /\
  ((forall node : value, In node (qualifying_nodes out) -> invalid_start node = false) ->
   (forall (r : BedrockLogs) (t0 : float) (msg : string),
       snd (handle_agent_feature out t0 r) <> Raise (ValueError msg)) /\
   (forall l : list value,
       out = VList l ->
       traces_are_mappings out = true ->
       forall (r : BedrockLogs) (t0 : float),
       exists r' out', handle_agent_feature out t0 r = (r', Ok out'))).
Proof.
  intros Hagent Hfunc. refine (conj _ (conj _ _)).
  - intros node. apply qualifying_nodes_carry_start.
  - intros node Hin Hinvalid.
    destruct out as [ | | | | | l | ]; try contradiction.
    destruct (handle_agent_feature (VList l) (call_start_of E st) (obj (after_call E 5 st)))
      as [r' res] eqn:Hrun.
    pose proof (handle_agent_feature_outcome l _ _ _ _ Hrun) as Hout.
    assert (Hwatch : forall e, res = Raise e ->
              watch E capture_input true call_type func args kwargs st
              = ({| obj := r'; wld := wld (after_call E 5 st) |}, Raise e)).
    { intros e ->. unfold watch.
      apply (inner_resolve_raises E capture_input true call_type func args kwargs st
               _ (VList l) e Hfunc).
      apply resolve_run_annotation_raises; [ exact Hagent | discriminate | exact Hrun ]. }
    destruct Hout as [ x' Hvalid | bad Hbad Hbadinv | e Hsh He ].
    + rewrite Forall_forall in Hvalid.
      assert (Hn : invalid_start node = false)
        by (apply Hvalid; now apply list_elem_of_In).
      congruence.
    + rewrite (Hwatch _ eq_refl). simpl. eauto.
    + rewrite (Hwatch _ eq_refl). simpl.
      refine (conj _ (conj eq_refl _)); [ eauto | ].
      intros Hshaped. simpl in Hsh, Hshaped. congruence.
  - intros Hvalid. split.
    + intros r t0 msg Hraise.
      destruct (is_list out) eqn:Hlist.
      * destruct out as [ | | | | | l | ]; try discriminate.
        destruct (handle_agent_feature (VList l) t0 r) as [r' res] eqn:Hrun.
        simpl in Hraise. subst res.
        pose proof (handle_agent_feature_outcome l _ _ _ _ Hrun) as Hout.
        inversion Hout as [ | bad Hbad Hbadinv | e Hsh He ]; subst.
        -- apply Hvalid in Hbad. congruence.
        -- now apply (He msg).
      * rewrite (handle_agent_feature_not_list out t0 r Hlist) in Hraise.
        destruct out; simpl in Hraise; discriminate.
    + intros l -> Hshaped r t0.
      destruct (handle_agent_feature (VList l) t0 r) as [r' res] eqn:Hrun.
      pose proof (handle_agent_feature_outcome l _ _ _ _ Hrun) as Hout.
      destruct Hout as [ x' _ | bad Hbad Hbadinv | e Hsh He ].
      * eauto.
      * apply Hvalid in Hbad. congruence.
      * congruence.
Qed.

Lemma invalid_start_trace_time_fails_witness :
  is_agent (obj agent_state) = true /\
  constant_target bad_output [VInt 5] [] = Ok bad_output /\
  In (VDict [("start_trace_time", VStr "noon")]) (qualifying_nodes bad_output) /\
  invalid_start (VDict [("start_trace_time", VStr "noon")]) = true /\
  traces_are_mappings bad_output = true /\
  snd (watch demo_env true true None (constant_target bad_output) [VInt 5] [] agent_state)
    = Raise start_trace_time_error.
Proof.
  split; [ reflexivity | ]. split; [ reflexivity | ].
  split; [ now left | ]. split; [ reflexivity | ]. split; [ reflexivity | ].
  destruct (invalid_start_trace_time_fails demo_env true None (constant_target bad_output)
              [VInt 5] [] agent_state bad_output eq_refl eq_refl) as (_ & Hfail & _).
  destruct (Hfail (VDict [("start_trace_time", VStr "noon")])
              (or_introl eq_refl) eq_refl) as (_ & _ & Hraise).
  exact (Hraise eq_refl).
Defined.

(** C5, as the claim states it, fails: an integer timestamp is a numeric
    wall-clock value, and a qualifying node that carries one triggers the
    validation error, in the annotator and through the wrapper. *)
Lemma integer_start_trace_time_rejected :
  qualifying_nodes int_start_output = [VDict [("start_trace_time", VInt 1700000000)]] /\
  snd (handle_agent_feature int_start_output 10 (demo_agent 5))
    = Raise start_trace_time_error /\
  snd (watch demo_env true true None (constant_target int_start_output)
         [VInt 5] [] agent_state)
    = Raise start_trace_time_error.
Proof.
  repeat split.
Qed.

(** * Further properties *)

(** ** The finder's path argument and its empty result *)

Lemma find_in_items_under (l : list value) (key : string) :
  Forall (fun x => forall p0, find_keys x key p0 = map (under p0) (find_keys x key [])) l ->
  forall (i : nat) (p0 : path),
    find_in_items i l key p0 = map (under p0) (find_in_items i l key []).
Proof.
  intros Hl. induction Hl as [ | x l Hx Hl IH ]; intros i p0; simpl; [ reflexivity | ].
  rewrite map_app, <- IH. f_equal.
  rewrite (Hx (p0 ++ [Index i])), (Hx [Index i]), map_map.
  apply map_ext. intros [q v]. unfold under. simpl. now rewrite <- app_assoc.
Qed.

Lemma find_in_entries_under (es : list (string * value)) (key : string) :
  Forall (fun kv => forall p0, find_keys (snd kv) key p0
                               = map (under p0) (find_keys (snd kv) key [])) es ->
  forall p0 : path,
    find_in_entries es key p0 = map (under p0) (find_in_entries es key []).
Proof.
  intros Hes. induction Hes as [ | [k x] es Hx Hes IH ]; intros p0; simpl;
    [ reflexivity | ].
  rewrite map_app, <- IH. f_equal. simpl in Hx.
  destruct (String.eqb k key); [ reflexivity | ].
  rewrite (Hx (p0 ++ [Key k])), (Hx [Key k]), map_map.
  apply map_ext. intros [q v]. unfold under. simpl. now rewrite <- app_assoc.
Qed.

(** X1: the [path] argument of the finder is only a prefix.  The results
    of a search started with path [p0] are the results of the search started
    with the empty path, in the same order, each path with [p0] in front. *)
Theorem find_keys_path_is_prefix (t : value) (key : string) (p0 : path) :
  find_keys t key p0 = map (under p0) (find_keys t key []).
Proof.
  revert p0.
  induction t as [ | b | n | x | s | l IH | es IH ] using value_induction;
    intros p0; try reflexivity.
  - rewrite !find_keys_list. now apply find_in_items_under.
  - rewrite !find_keys_dict. now apply find_in_entries_under.
Qed.

Lemma find_keys_finds_occurrence (q : path) :
  forall (t : value) (key : string) (p0 : path) (v : value),
    at_path t (q ++ [Key key]) v -> find_keys t key p0 <> [].
Proof.
  induction q as [ | s q IH ]; intros t key p0 v Hat Hnil.
  - pose proof (find_keys_complete [] t key p0 v (fun H => H) Hat) as Hin.
    rewrite Hnil in Hin. contradiction.
  - simpl in Hat.
    inversion Hat as [ | es k x p v' Hin Hx | l i x p v' Hi Hx ]; subst.
    + assert (Hsome : exists r, In r (find_keys (VDict es) key p0)).
      { rewrite find_keys_dict.
        destruct (String.eqb k key) eqn:Hk.
        - exists (p0 ++ [Key k], x). apply in_find_in_entries.
          exists k, x. split; [ exact Hin | ]. rewrite Hk. now left.
        - destruct (find_keys x key (p0 ++ [Key k])) as [ | r rest ] eqn:Hfind.
          + exfalso. exact (IH x key (p0 ++ [Key k]) v Hx Hfind).
          + exists r. apply in_find_in_entries.
            exists k, x. split; [ exact Hin | ]. rewrite Hk, Hfind. now left. }
      destruct Hsome as [r Hr]. rewrite Hnil in Hr. contradiction.
    + assert (Hsome : exists r, In r (find_keys (VList l) key p0)).
      { rewrite find_keys_list.
        destruct (find_keys x key (p0 ++ [Index i])) as [ | r rest ] eqn:Hfind.
        - exfalso. exact (IH x key (p0 ++ [Index i]) v Hx Hfind).
        - exists r. apply in_find_in_items.
          exists i, x. split; [ exact Hi | ]. simpl. rewrite Hfind. now left. }
      destruct Hsome as [r Hr]. rewrite Hnil in Hr. contradiction.
Qed.

(** X2: the finder returns the empty list exactly when the key occurs
    nowhere in the tree: skipping what lies below a match never hides that
    the key is present. *)
Theorem find_keys_empty_iff_absent (t : value) (key : string) (p0 : path) :
  find_keys t key p0 = [] <-> ~ occurs key t.
Proof.
  split.
  - intros Hnil (q & v & Hat). exact (find_keys_finds_occurrence q t key p0 v Hat Hnil).
  - intros Habsent.
    destruct (find_keys t key p0) as [ | [p v] rest ] eqn:Hfind; [ reflexivity | ].
    exfalso. apply Habsent.
    assert (Hin : In (p, v) (find_keys t key p0)) by (rewrite Hfind; now left).
    apply find_keys_sound in Hin as (q & _ & _ & Hat). now exists q, v.
Qed.

(** ** The resolver on any payload *)

(** X3: for a payload of any shape the resolver returns without raising
    and leaves the recorder, the clock and the log of service calls as they
    are.  When the key occurs in the payload the returned value is one the
    payload stores under the key and no identifier is drawn; an identifier
    is drawn, one, exactly when the key occurs nowhere. *)
Theorem extract_session_id_never_fails (E : env) (log_data : value) (st : state) :
  (exists v, snd (extract_session_id E log_data st) = Ok v) /\
  obj (fst (extract_session_id E log_data st)) = obj st /\
  ticks (wld (fst (extract_session_id E log_data st))) = ticks (wld st) /\
  calls (wld (fst (extract_session_id E log_data st))) = calls (wld st) /\
  (occurs (session_key (obj st)) log_data ->
   exists q v, at_path log_data (q ++ [Key (session_key (obj st))]) v /\
               extract_session_id E log_data st = (st, Ok v)) /\
  (~ occurs (session_key (obj st)) log_data <->
   extract_session_id E log_data st
     = (draw_uuid st, Ok (VStr (uuid4 E (uuids (wld st)))))).
Proof.
  rewrite extract_session_id_eq.
  destruct (find_keys log_data (session_key (obj st)) []) as [ | [p v] rest ] eqn:Hfind.
  - assert (Habsent : ~ occurs (session_key (obj st)) log_data).
    { intros (q & x & Hat).
      exact (find_keys_finds_occurrence q log_data _ [] x Hat Hfind). }
    refine (conj _ (conj eq_refl (conj eq_refl (conj eq_refl (conj _ _))))).
    + eexists. reflexivity.
    + intros Hocc. contradiction.
    + split; [ reflexivity | intros _; exact Habsent ].
  - assert (Hin : In (p, v) (find_keys log_data (session_key (obj st)) []))
      by (rewrite Hfind; now left).
    apply find_keys_sound in Hin as (q & _ & _ & Hat).
    refine (conj _ (conj eq_refl (conj eq_refl (conj eq_refl (conj _ _))))).
    + eexists. reflexivity.
    + intros _. exists q, v. split; [ exact Hat | reflexivity ].
    + split.
      * intros Habsent. exfalso. apply Habsent. now exists q, v.
      * intros Heq. exfalso. inversion Heq as [[Hst Hv]].
        apply (f_equal (fun s => uuids (wld s))) in Hst. simpl in Hst. lia.
Qed.

(** ** Making sure the bucket exists *)

Lemma ensure_bucket_exists_found (E : env) (bucket region : string) (w : world) :
  head_bucket E (calls w) bucket = HeadFound ->
  ensure_bucket_exists E true bucket region w = (with_calls [HeadBucket bucket] w, Ok tt).
Proof.
  intros Hfound. unfold ensure_bucket_exists, bind, get, log_call, modify, ret.
  simpl. now rewrite Hfound.
Qed.

Lemma ensure_bucket_exists_missing (E : env) (bucket region : string) (w : world) :
  reported_missing E w bucket ->
  ensure_bucket_exists E true bucket region w =
    (with_calls [HeadBucket bucket; CreateBucket bucket (location_of region)] w,
     match create_bucket E (calls w ++ [HeadBucket bucket]) bucket (location_of region) with
     | None => Ok tt
     | Some e => Raise e
     end).
Proof.
  intros (code & Hhead & Hcode).
  unfold ensure_bucket_exists, bind, get, log_call, modify, ret, raise, with_calls,
    location_of.
  simpl. rewrite Hhead, Hcode. simpl.
  destruct (create_bucket E (calls w ++ [HeadBucket bucket]) bucket
              (if String.eqb region "us-east-1" then None else Some region));
    now rewrite <- app_assoc.
Qed.

Lemma ensure_bucket_exists_creates_only_on_404_cases (E : env) (bucket region : string)
  (w : world) :
  reported_missing E w bucket \/
  (~ reported_missing E w bucket /\
   fst (ensure_bucket_exists E true bucket region w) = with_calls [HeadBucket bucket] w /\
   (snd (ensure_bucket_exists E true bucket region w) = Ok tt <->
    head_bucket E (calls w) bucket = HeadFound)).
Proof.
  destruct (head_bucket E (calls w) bucket) as [ | code ] eqn:Hhead.
  - right. rewrite (ensure_bucket_exists_found E bucket region w Hhead).
    split; [ intros (c & Hc & _); congruence | ]. split; [ reflexivity | tauto ].
  - destruct (int_of_code E code) as [n | ] eqn:Hcode.
    + destruct (n =? 404) eqn:Hn.
      * left. apply Z.eqb_eq in Hn. subst n. now exists code.
      * right. split.
        { intros (c & Hc & Hc'). assert (c = code) by congruence. subst c.
          assert (n = 404) by congruence. subst n. discriminate. }
        unfold ensure_bucket_exists, bind, get, log_call, modify, ret, raise.
        simpl. rewrite Hhead, Hcode, Hn. simpl.
        split; [ reflexivity | split; discriminate ].
    + right. split.
      { intros (c & Hc & Hc'). assert (c = code) by congruence. subst c.
        congruence. }
      unfold ensure_bucket_exists, bind, get, log_call, modify, ret, raise.
      simpl. rewrite Hhead, Hcode. simpl.
      split; [ reflexivity | split; discriminate ].
Qed.


(** X4: the bucket check asks the service once whether the bucket exists
    and creates a bucket only when the answer is an error with code 404: then
    it creates that bucket, once, with no location constraint in us-east-1
    and with the region as constraint elsewhere, and a failure of the
    creation is raised as it is.  In every other case nothing is created, and
    the check succeeds exactly when the bucket was found.  The clock and the
    identifier generator are not used. *)
Theorem ensure_bucket_exists_creates_only_on_404 (E : env) (bucket region : string)
  (w : world) :
  ticks (fst (ensure_bucket_exists E true bucket region w)) = ticks w /\
  uuids (fst (ensure_bucket_exists E true bucket region w)) = uuids w /\
  (reported_missing E w bucket ->
   fst (ensure_bucket_exists E true bucket region w)
     = with_calls [HeadBucket bucket; CreateBucket bucket (location_of region)] w /\
   snd (ensure_bucket_exists E true bucket region w)
     = match create_bucket E (calls w ++ [HeadBucket bucket]) bucket
               (location_of region) with
       | None => Ok tt
       | Some e => Raise e
       end) /\
  (~ reported_missing E w bucket ->
   fst (ensure_bucket_exists E true bucket region w) = with_calls [HeadBucket bucket] w /\
   (snd (ensure_bucket_exists E true bucket region w) = Ok tt <->
    head_bucket E (calls w) bucket = HeadFound)).
Proof.
  destruct (ensure_bucket_exists_creates_only_on_404_cases E bucket region w)
    as [Hmiss | (Hnot & Hfst & Hsnd)].
  - rewrite (ensure_bucket_exists_missing E bucket region w Hmiss).
    refine (conj eq_refl (conj eq_refl (conj _ _))).
    + intros _. split; reflexivity.
    + intros Hnot. contradiction.
  - refine (conj _ (conj _ (conj _ _))).
    + now rewrite Hfst.
    + now rewrite Hfst.
    + intros Hmiss. contradiction.
    + intros _. split; assumption.
Qed.

Lemma with_calls_twice (a b : list event) (w : world) :
  with_calls b (with_calls a w) = with_calls (a ++ b) w.
Proof.
  unfold with_calls. simpl. now rewrite app_assoc.
Qed.

(** X5: on a storage service that keeps its buckets (a bucket found stays
    found, a bucket whose creation succeeded is found afterwards) the bucket
    check is idempotent: once it has succeeded, running it again, at any
    later time and for any region, only asks whether the bucket exists and
    succeeds; nothing is created a second time. *)
Theorem ensure_bucket_exists_idempotent (E : env)
  (found_stays : forall (log more : list event) (b : string),
      head_bucket E log b = HeadFound -> head_bucket E (log ++ more) b = HeadFound)
  (created_is_found : forall (log more : list event) (b : string) (loc : option string),
      create_bucket E log b loc = None ->
      head_bucket E (log ++ CreateBucket b loc :: more) b = HeadFound)
  (bucket region region' : string) (w w1 : world) (more : list event) :
  ensure_bucket_exists E true bucket region w = (w1, Ok tt) ->
  ensure_bucket_exists E true bucket region' (with_calls more w1)
    = (with_calls (more ++ [HeadBucket bucket]) w1, Ok tt).
Proof.
  intros Hfirst.
  assert (Hfound : head_bucket E (calls (with_calls more w1)) bucket = HeadFound).
  { destruct (ensure_bucket_exists_creates_only_on_404_cases E bucket region w)
      as [Hmiss | (Hnot & Hfst & Hsnd)].
    - rewrite (ensure_bucket_exists_missing E bucket region w Hmiss) in Hfirst.
      destruct (create_bucket E (calls w ++ [HeadBucket bucket]) bucket
                  (location_of region)) as [e | ] eqn:Hcreate; [ discriminate | ].
      inversion Hfirst; subst w1. simpl.
      rewrite <- app_assoc. simpl.
      replace (calls w ++ HeadBucket bucket :: CreateBucket bucket (location_of region) :: more)
        with ((calls w ++ [HeadBucket bucket])
                ++ CreateBucket bucket (location_of region) :: more)
        by (now rewrite <- app_assoc).
      now apply created_is_found.
    - rewrite Hfirst in Hfst, Hsnd. simpl in Hfst, Hsnd. subst w1. simpl.
      rewrite <- app_assoc. apply found_stays. now apply Hsnd. }
  rewrite (ensure_bucket_exists_found E bucket region' _ Hfound).
  now rewrite with_calls_twice.
Qed.

Lemma store_found_stays (log more : list event) (b : string) :
  head_bucket store_env log b = HeadFound ->
  head_bucket store_env (log ++ more) b = HeadFound.
Proof.
  simpl. rewrite existsb_app.
  destruct (existsb (creates b) log); [ reflexivity | discriminate ].
Qed.

Lemma store_created_is_found (log more : list event) (b : string) (loc : option string) :
  create_bucket store_env log b loc = None ->
  head_bucket store_env (log ++ CreateBucket b loc :: more) b = HeadFound.
Proof.
  intros _. simpl. rewrite existsb_app. simpl. rewrite String.eqb_refl.
  now rewrite orb_true_r.
Qed.

Lemma ensure_bucket_exists_idempotent_witness :
  ensure_bucket_exists store_env true "logging-response" "eu-west-1" fresh_world
    = (with_calls [HeadBucket "logging-response";
                   CreateBucket "logging-response" (Some "eu-west-1")] fresh_world,
       Ok tt) /\
  ensure_bucket_exists store_env true "logging-response" "eu-west-1"
    (with_calls []
       (with_calls [HeadBucket "logging-response";
                    CreateBucket "logging-response" (Some "eu-west-1")] fresh_world))
    = (with_calls ([] ++ [HeadBucket "logging-response"])
         (with_calls [HeadBucket "logging-response";
                      CreateBucket "logging-response" (Some "eu-west-1")] fresh_world),
       Ok tt).
Proof.
  split; [ reflexivity | ].
  apply (ensure_bucket_exists_idempotent store_env store_found_stays
           store_created_is_found "logging-response" "eu-west-1" "eu-west-1"
           fresh_world).
  reflexivity.
Defined.

(** ** What the constructor builds *)

Lemma check_feature_name_ok (feature : option string) (w w' : world) :
  check_feature_name feature w = (w', Ok tt) -> w' = w /\ feature_accepted feature.
Proof.
  unfold check_feature_name, feature_accepted.
  destruct feature as [f | ]; [ destruct (mem_string f VALID_FEATURE_NAMES) | ];
    intros H; inversion H; auto.
Qed.

Lemma check_feature_name_state (feature : option string) (w : world) :
  fst (check_feature_name feature w) = w.
Proof.
  unfold check_feature_name.
  destruct feature as [f | ]; [ destruct (mem_string f VALID_FEATURE_NAMES) | ];
    reflexivity.
Qed.

(** X6: a recorder that the constructor returns carries the delivery
    target, bucket name, region, feature label, default call type and
    feedback flag it was given, the experiment id given or
    [default_experiment_1], no session and no start time; its feature label
    is unset or one of the four valid names; it holds the client of its sink
    and no other.  For the local sink the world is untouched; for the
    object storage sink a storage client for the region is created and the
    bucket is checked next; for any other target one streaming client is
    created and nothing else is called. *)
Theorem init_builds_recorder (E : env) (a : init_args) (w w' : world) (r : BedrockLogs) :
  init E a w = (w', Ok r) ->
  arg_delivery_stream_name a = Some (delivery_stream_name r) /\
  arg_s3_bucket_name a = Some (s3_bucket_name r) /\
  s3_region r = arg_s3_region a /\
  feature_name r = arg_feature_name a /\
  feature_accepted (feature_name r) /\
  default_call_type r = arg_default_call_type a /\
  feedback_variables r = arg_feedback_variables a /\
  experiment_id r = match arg_experiment_id a with
                    | Some e => e
                    | None => "default_experiment_1"
                    end /\
  session_id r = None /\
  request_start_time r = None /\
  wired r /\
  (delivery_stream_name r = "local" -> w' = w) /\
  (delivery_stream_name r = "s3" ->
   exists rest,
     calls w' = calls w ++ ClientCreated "s3" (Some (s3_region r))
                  :: HeadBucket (s3_bucket_name r) :: rest) /\
  (delivery_stream_name r <> "local" -> delivery_stream_name r <> "s3" ->
   w' = with_calls [ClientCreated "firehose" None] w).
Proof.
  unfold init. intros Hinit.
  apply bind_ok_inv in Hinit as (w1 & [] & Hcheck & Hinit).
  apply check_feature_name_ok in Hcheck as [-> Hfeature].
  destruct (arg_delivery_stream_name a) as [stream | ]; [ | discriminate ].
  destruct (arg_s3_bucket_name a) as [bucket | ]; [ | discriminate ].
  destruct (String.eqb_spec stream "local") as [-> | Hlocal].
  - inversion Hinit; subst. simpl. unfold wired. simpl.
    repeat split; try assumption; try reflexivity; congruence.
  - destruct (String.eqb_spec stream "s3") as [-> | Hs3].
    + apply bind_ok_inv in Hinit as (w2 & [] & Hclient & Hinit).
      apply bind_ok_inv in Hinit as (w3 & [] & Hensure & Hinit).
      inversion Hinit; subst. inversion Hclient; subst. simpl. unfold wired. simpl.
      repeat split; try assumption; try reflexivity; try congruence.
      intros _.
      destruct (ensure_bucket_exists_creates_only_on_404_cases E bucket (arg_s3_region a)
                  {| ticks := ticks w; uuids := uuids w;
                     calls := calls w ++ [ClientCreated "s3" (Some (arg_s3_region a))] |})
        as [Hmiss | (_ & Hfst & _)].
      * rewrite (ensure_bucket_exists_missing E bucket _ _ Hmiss) in Hensure.
        inversion Hensure; subst. simpl. eexists. now rewrite <- app_assoc.
      * rewrite Hensure in Hfst. simpl in Hfst. rewrite Hfst. simpl.
        exists []. now rewrite <- app_assoc.
    + apply bind_ok_inv in Hinit as (w2 & [] & Hclient & Hinit).
      inversion Hinit; subst. inversion Hclient; subst. simpl. unfold wired. simpl.
      pose proof Hlocal as Hl. pose proof Hs3 as Hs.
      apply String.eqb_neq in Hl, Hs. rewrite Hl, Hs.
      repeat split; try assumption; try reflexivity; try congruence;
        intros; contradiction.
Qed.

Lemma init_builds_recorder_witness :
  init demo_env example_args fresh_world = (fresh_world, Ok example_recorder) /\
  wired example_recorder /\
  (delivery_stream_name example_recorder = "local" -> fresh_world = fresh_world).
Proof.
  split; [ reflexivity | ].
  destruct (init_builds_recorder demo_env example_args fresh_world fresh_world
              example_recorder eq_refl)
    as (_ & _ & _ & _ & _ & _ & _ & _ & _ & _ & Hwired & Hlocal & _).
  split; assumption.
Defined.

(** X7: the constructor validates before it touches anything.  It leaves
    the world as it was unless the feature label is accepted, a delivery
    target and a bucket name are given and the target is not ['local'];
    without a delivery target it raises the [ValueError] that asks for one,
    whether or not a bucket name is given. *)
Theorem init_validates_first (E : env) (a : init_args) (w : world) :
  (fst (init E a w) = w \/
   (feature_accepted (arg_feature_name a) /\
    exists stream bucket,
      arg_delivery_stream_name a = Some stream /\
      arg_s3_bucket_name a = Some bucket /\
      stream <> "local")) /\
  (feature_accepted (arg_feature_name a) ->
   arg_delivery_stream_name a = None ->
   init E a w = (w, Raise missing_delivery_error)).
Proof.
  split.
  - unfold init, bind.
    destruct (check_feature_name (arg_feature_name a) w) as [w1 [[] | e]] eqn:Hcheck.
    + apply check_feature_name_ok in Hcheck as [-> Hfeature].
      destruct (arg_delivery_stream_name a) as [stream | ]; [ | now left ].
      destruct (arg_s3_bucket_name a) as [bucket | ]; [ | now left ].
      destruct (String.eqb_spec stream "local") as [-> | Hlocal]; [ now left | ].
      right. split; [ exact Hfeature | ]. now exists stream, bucket.
    + left. pose proof (check_feature_name_state (arg_feature_name a) w) as Hst.
      now rewrite Hcheck in Hst.
  - intros Hfeature Hnone. unfold init, bind, check_feature_name, feature_accepted in *.
    rewrite Hnone.
    destruct (arg_feature_name a) as [f | ]; [ rewrite Hfeature | ]; reflexivity.
Qed.

(** ** What a wrapped call leaves alone *)

Section Unchanged.
Context {S T : Type} (f : S -> T).

Lemma unchanged_ret {A} (a : A) : unchanged f (ret a).
Proof.
  intros s. reflexivity.
Qed.

Lemma unchanged_raise {A} (e : exn) : unchanged f (@raise S A e).
Proof.
  intros s. reflexivity.
Qed.

Lemma unchanged_lift {A} (r : result A) : unchanged f (lift r).
Proof.
  intros s. reflexivity.
Qed.

Lemma unchanged_get : unchanged f get.
Proof.
  intros s. reflexivity.
Qed.

Lemma unchanged_modify (g : S -> S) :
  (forall s, f (g s) = f s) -> unchanged f (modify g).
Proof.
  intros Hg s. apply Hg.
Qed.

Lemma unchanged_bind {A B} (m : M S A) (k : A -> M S B) :
  unchanged f m ->
  (forall a, unchanged f (k a)) ->
  unchanged f (bind m k).
Proof.
  intros Hm Hk s. unfold bind. specialize (Hm s).
  destruct (m s) as [s1 [a | e]]; simpl in *; [ | exact Hm ].
  rewrite (Hk a s1). exact Hm.
Qed.

Lemma unchanged_for_each {A B} (body : A -> M S B) (xs : list A) :
  (forall x, unchanged f (body x)) ->
  unchanged f (for_each body xs).
Proof.
  intros Hbody. induction xs as [ | x xs IH ]; simpl.
  - apply unchanged_ret.
  - apply unchanged_bind; [ apply Hbody | ]. intros y.
    apply unchanged_bind; [ exact IH | ]. intros ys. apply unchanged_ret.
Qed.

Lemma unchanged_zoom {U A} (g : U -> T) (proj : S -> U) (inj : U -> S -> S)
  (m : M U A) :
  (forall s, f s = g (proj s)) ->
  (forall u s, f (inj u s) = g u) ->
  unchanged g m ->
  unchanged f (zoom proj inj m).
Proof.
  intros Hproj Hinj Hm s. unfold zoom. specialize (Hm (proj s)).
  destruct (m (proj s)) as [u r]. simpl in *. now rewrite Hinj, Hproj.
Qed.
End Unchanged.

(** As [counter_steps], for what stays as it is. *)
Ltac unchanged_steps leaf :=
  repeat first
    [ leaf
    | apply unchanged_ret | apply unchanged_raise | apply unchanged_lift
    | apply unchanged_get
    | apply unchanged_bind; [ | intros ? ]
    | match goal with
      | |- unchanged _ (if ?b then _ else _) => destruct b
      | |- unchanged _ (match ?x with _ => _ end) => destruct x
      end ].

Lemma annotate_config (node : value) (t0 : float) :
  unchanged (fun fr => config_of (self fr)) (annotate node t0).
Proof.
  unfold annotate.
  unchanged_steps ltac:(apply unchanged_modify; intros fr; reflexivity).
Qed.

Lemma annotate_trace_of_config (data : value) (t0 : float) :
  unchanged (fun fr => config_of (self fr)) (annotate_trace_of data t0).
Proof.
  unfold annotate_trace_of. unchanged_steps ltac:(apply annotate_config).
Qed.

Lemma visit_item_config (item : value) (t0 : float) :
  unchanged (fun fr => config_of (self fr)) (visit_item item t0).
Proof.
  unfold visit_item.
  unchanged_steps ltac:(first [ apply annotate_config | apply annotate_trace_of_config ]).
Qed.

Lemma visit_data_config (data : value) (t0 : float) :
  unchanged (fun fr => config_of (self fr)) (visit_data data t0).
Proof.
  unfold visit_data.
  unchanged_steps
    ltac:(first [ apply annotate_trace_of_config
                | apply unchanged_for_each; intros x; apply visit_item_config ]).
Qed.

Lemma handle_agent_feature_config (out : value) (t0 : float) :
  unchanged config_of (handle_agent_feature out t0).
Proof.
  unfold handle_agent_feature.
  apply unchanged_bind; [ apply unchanged_modify; intros r; reflexivity | ].
  intros _. apply unchanged_bind; [ apply unchanged_lift | ]. intros elems.
  apply unchanged_bind; [ | intros; apply unchanged_ret ].
  apply (unchanged_zoom config_of (fun fr => config_of (self fr))); try reflexivity.
  apply unchanged_for_each. intros x. apply visit_data_config.
Qed.

Lemma on_world_obj {A T} (f : BedrockLogs -> T) (m : M world A) :
  unchanged (fun st => f (obj st)) (on_world m).
Proof.
  intros st. unfold on_world, zoom. destruct (m (wld st)). reflexivity.
Qed.

Lemma on_obj_unchanged {A T} (f : BedrockLogs -> T) (m : M BedrockLogs A) :
  unchanged f m ->
  unchanged (fun st => f (obj st)) (on_obj m).
Proof.
  intros Hm. unfold on_obj.
  now apply (unchanged_zoom (fun st => f (obj st)) f).
Qed.

Lemma on_obj_world {A T} (g : world -> T) (m : M BedrockLogs A) :
  unchanged (fun st => g (wld st)) (on_obj m).
Proof.
  intros st. unfold on_obj, zoom. destruct (m (obj st)). reflexivity.
Qed.

Lemma extract_session_id_keeps_obj (E : env) {T} (f : BedrockLogs -> T) (log_data : value) :
  unchanged (fun st => f (obj st)) (extract_session_id E log_data).
Proof.
  intros st. now rewrite extract_session_id_obj.
Qed.

Ltac config_leaf E :=
  first
    [ apply (on_world_obj config_of)
    | apply (extract_session_id_keeps_obj E config_of)
    | apply (on_obj_unchanged config_of); apply handle_agent_feature_config ].

Lemma save_log_to_s3_config (E : env) (metadata : value) (object_key : string) :
  unchanged (fun st => config_of (obj st)) (save_log_to_s3 E metadata object_key).
Proof.
  unfold save_log_to_s3. unchanged_steps ltac:(config_leaf E).
Qed.

Lemma resolve_run_config (E : env) (input_log output_data : value) (t0 : float) :
  unchanged (fun st => config_of (obj st)) (resolve_run E input_log output_data t0).
Proof.
  unfold resolve_run. unchanged_steps ltac:(config_leaf E).
Qed.

Lemma assemble_config (E : env) (call_type : option string)
  (kwargs : list (string * value)) (run_id : value)
  (observation_id obs_timestamp : string)
  (start_time end_time logging_start_time : float) (input_log output_data : value) :
  unchanged (fun st => config_of (obj st))
    (assemble E call_type kwargs run_id observation_id obs_timestamp
       start_time end_time logging_start_time input_log output_data).
Proof.
  unfold assemble. unchanged_steps ltac:(config_leaf E).
Qed.

Lemma dispatch_config (E : env) (result run_id : value)
  (observation_id : string) (metadata : value) :
  unchanged (fun st => config_of (obj st))
    (dispatch E result run_id observation_id metadata).
Proof.
  unfold dispatch.
  unchanged_steps ltac:(first [ config_leaf E | apply save_log_to_s3_config ]).
Qed.

Lemma inner_config (E : env) (capture_input capture_output : bool)
  (call_type : option string) (func : target) (args : list value)
  (kwargs : list (string * value)) :
  unchanged (fun st => config_of (obj st))
    (inner E capture_input capture_output call_type func args kwargs).
Proof.
  unfold inner.
  unchanged_steps
    ltac:(first [ config_leaf E
                | apply resolve_run_config
                | apply assemble_config
                | apply dispatch_config
                | apply (on_obj_unchanged config_of); apply unchanged_modify;
                  intros r; reflexivity ]).
Qed.

Lemma exec_config (E : env) (o : op) (p : process) (i : nat) c :
  config_at p i = Some c -> config_at (exec E o p) i = Some c.
Proof.
  unfold config_at. intros Hi.
  destruct (instances p !! i) as [r | ] eqn:Hr; [ | discriminate ].
  simpl in Hi. inversion Hi; subst.
  destruct o as [ a | j capture_input capture_output call_type func args kwargs ]; simpl.
  - destruct (init E a (outside p)) as [w [r' | e]]; simpl.
    + rewrite lookup_app_l by (now apply lookup_lt_Some in Hr). now rewrite Hr.
    + now rewrite Hr.
  - destruct (instances p !! j) as [rj | ] eqn:Hj; simpl; [ | now rewrite Hr ].
    destruct (decide (j = i)) as [-> | Hne].
    + rewrite list_lookup_insert_eq by (now apply lookup_lt_Some in Hr).
      simpl. f_equal. rewrite Hr in Hj. inversion Hj; subst.
      apply (inner_config E capture_input capture_output call_type
               func args kwargs {| obj := rj; wld := outside p |}).
    + rewrite list_lookup_insert_ne by exact Hne. now rewrite Hr.
Qed.

(** X8: a wrapped call never changes the configuration of its recorder.
    Whether the call returns or raises, the delivery target, experiment id,
    default call type, feedback flag, bucket name and region, feature label
    and clients are afterwards what they were, so a recorder that holds the
    client of its sink keeps holding it; and over any sequence of
    constructor calls and wrapped calls in a process every existing instance
    keeps the configuration it was built with. *)
Theorem watch_keeps_configuration (E : env) :
  (forall capture_input capture_output call_type func args kwargs (st : state),
      config_of
        (obj (fst (watch E capture_input capture_output call_type func args kwargs st)))
      = config_of (obj st)) /\
  (forall capture_input capture_output call_type func args kwargs (st : state),
      wired (obj st) ->
      wired (obj (fst (watch E capture_input capture_output call_type func args kwargs st)))) /\
  (forall (ops : list op) (p : process) (i : nat) c,
      config_at p i = Some c -> config_at (run E ops p) i = Some c).
Proof.
  refine (conj _ (conj _ _)).
  - intros. apply (inner_config E).
  - intros capture_input capture_output call_type func args kwargs st [Hs3 Hfh].
    pose proof (inner_config E capture_input capture_output call_type func args kwargs st)
      as Hcfg.
    unfold watch, wired, config_of in *. inversion Hcfg as [[H1 H2 H3 H4 H5 H6 H7 H8 H9]].
    rewrite H1, H8, H9. split; assumption.
  - intros ops. induction ops as [ | o ops IH ]; intros p i c Hi; [ exact Hi | ].
    simpl. apply IH. now apply exec_config.
Qed.

(** ** What a wrapped call says to the services *)

Lemma on_world_now_quiet (E : env) : unchanged quiet_view (on_world (now E)).
Proof.
  intros st. reflexivity.
Qed.

Lemma on_world_new_uuid_quiet (E : env) : unchanged quiet_view (on_world (new_uuid E)).
Proof.
  intros st. reflexivity.
Qed.

Lemma on_obj_quiet {A} (m : M BedrockLogs A) :
  unchanged config_of m -> unchanged quiet_view (on_obj m).
Proof.
  intros Hm st. unfold on_obj, zoom, quiet_view. specialize (Hm (obj st)).
  destruct (m (obj st)) as [r res]. simpl in *. now rewrite Hm.
Qed.

Lemma extract_session_id_quiet (E : env) (log_data : value) :
  unchanged quiet_view (extract_session_id E log_data).
Proof.
  intros st. rewrite extract_session_id_eq.
  destruct (find_keys log_data (session_key (obj st)) []) as [ | [q v] rest ];
    reflexivity.
Qed.

Ltac quiet_leaf E :=
  first
    [ apply (on_world_now_quiet E)
    | apply (on_world_new_uuid_quiet E)
    | apply (extract_session_id_quiet E)
    | apply on_obj_quiet; apply handle_agent_feature_config ].

Lemma resolve_run_quiet (E : env) (input_log output_data : value) (t0 : float) :
  unchanged quiet_view (resolve_run E input_log output_data t0).
Proof.
  unfold resolve_run. unchanged_steps ltac:(quiet_leaf E).
Qed.

Lemma assemble_quiet (E : env) (call_type : option string)
  (kwargs : list (string * value)) (run_id : value)
  (observation_id obs_timestamp : string)
  (start_time end_time logging_start_time : float) (input_log output_data : value) :
  unchanged quiet_view
    (assemble E call_type kwargs run_id observation_id obs_timestamp
       start_time end_time logging_start_time input_log output_data).
Proof.
  unfold assemble. unchanged_steps ltac:(quiet_leaf E).
Qed.

Lemma config_of_fields (r r' : BedrockLogs) :
  config_of r = config_of r' ->
  delivery_stream_name r = delivery_stream_name r' /\
  experiment_id r = experiment_id r' /\
  feedback_variables r = feedback_variables r' /\
  s3_bucket_name r = s3_bucket_name r' /\
  feature_name r = feature_name r' /\
  s3_client r = s3_client r' /\
  firehose_client r = firehose_client r'.
Proof.
  unfold config_of. intros H. inversion H. auto 10.
Qed.

Lemma sink_event_config (r r' : BedrockLogs) (ev : event) :
  config_of r = config_of r' -> sink_event r ev -> sink_event r' ev.
Proof.
  intros Hcfg. apply config_of_fields in Hcfg as (H1 & _ & _ & H4 & _).
  destruct ev; simpl; try tauto; now rewrite H1, ?H4.
Qed.

Lemma one_delivery_after_quiet {A B} (m : M state A) (k : A -> M state B) :
  unchanged quiet_view m ->
  (forall a s, one_delivery s (fst (k a s))) ->
  forall s, one_delivery s (fst (bind m k s)).
Proof.
  intros Hm Hk s. unfold bind. specialize (Hm s).
  assert (Hcfg : config_of (obj (fst (m s))) = config_of (obj s))
    by exact (f_equal fst Hm).
  assert (Hcalls : calls (wld (fst (m s))) = calls (wld s))
    by exact (f_equal snd Hm).
  destruct (m s) as [s1 [a | e]]; simpl in *.
  - destruct (Hk a s1) as [Hcfg' Hdel]. unfold one_delivery.
    rewrite <- Hcfg, <- Hcalls. split; [ exact Hcfg' | ].
    destruct Hdel as [Hsame | (ev & Hev & Happ)]; [ now left | right ].
    exists ev. split; [ | exact Happ ].
    now apply (sink_event_config (obj s1)).
  - split; [ exact Hcfg | now left ].
Qed.

Lemma one_delivery_quiet {A} (m : M state A) :
  unchanged quiet_view m -> forall s, one_delivery s (fst (m s)).
Proof.
  intros Hm s. specialize (Hm s).
  split; [ exact (f_equal fst Hm) | left; exact (f_equal snd Hm) ].
Qed.

Lemma dispatch_one_delivery (E : env) (result run_id : value)
  (observation_id : string) (metadata : value) (s : state) :
  one_delivery s (fst (dispatch E result run_id observation_id metadata s)).
Proof.
  unfold dispatch, bind, get. simpl.
  destruct (String.eqb_spec (delivery_stream_name (obj s)) "local") as [Hlocal | Hlocal].
  - split; [ reflexivity | now left ].
  - destruct (String.eqb_spec (delivery_stream_name (obj s)) "s3") as [Hs3 | Hs3].
    + unfold on_world, zoom, now, save_log_to_s3, bind, get, log_call, modify. simpl.
      destruct (s3_client (obj s)); simpl.
      * destruct (put_object E (calls (wld s)) (s3_bucket_name (obj s)) _ _); simpl.
        -- split; [ reflexivity | right ]. eexists. split; [ | reflexivity ].
           simpl. auto.
        -- destruct (feedback_variables (obj s)); simpl;
             (split; [ reflexivity | right ]; eexists; split; [ | reflexivity ];
              simpl; auto).
      * split; [ reflexivity | now left ].
    + destruct (firehose_client (obj s)); simpl.
      * unfold on_world, zoom, log_call, modify, bind, get. simpl.
        destruct (put_record E (calls (wld s)) (delivery_stream_name (obj s)) _); simpl.
        -- split; [ reflexivity | right ]. eexists. split; [ | reflexivity ].
           simpl. auto.
        -- destruct (feedback_variables (obj s)); simpl;
             (split; [ reflexivity | right ]; eexists; split; [ | reflexivity ];
              simpl; auto).
      * split; [ reflexivity | now left ].
Qed.

Lemma inner_one_delivery (E : env) (capture_input capture_output : bool)
  (call_type : option string) (func : target) (args : list value)
  (kwargs : list (string * value)) (st : state) :
  one_delivery st
    (fst (inner E capture_input capture_output call_type func args kwargs st)).
Proof.
  unfold inner.
  repeat first
    [ apply dispatch_one_delivery
    | apply one_delivery_after_quiet;
      [ first [ quiet_leaf E
              | apply resolve_run_quiet
              | apply assemble_quiet
              | apply unchanged_lift
              | apply on_obj_quiet; apply unchanged_modify; intros r; reflexivity ]
      | intros ? ? ] ].
Qed.

(** X9: a wrapped call says at most one thing to the services, and only
    to deliver its record.  Whatever the wrapped function, its arguments and
    the answers of the services, the calls made during a wrapped call are:
    none for the local sink; none or one [put_object] on the recorder's
    bucket, with content type [application/json], for the object storage
    sink; none or one [put_record] on the stream named by the delivery
    target otherwise. *)
Theorem watch_delivers_at_most_once (E : env) (capture_input capture_output : bool)
  (call_type : option string) (func : target) (args : list value)
  (kwargs : list (string * value)) (st : state) :
  calls (wld (fst (watch E capture_input capture_output call_type func args kwargs st)))
    = calls (wld st) \/
  (delivery_stream_name (obj st) = "s3" /\
   exists key body,
     calls (wld (fst (watch E capture_input capture_output call_type func args kwargs st)))
     = calls (wld st)
         ++ [PutObject (s3_bucket_name (obj st)) key body "application/json"]) \/
  (delivery_stream_name (obj st) <> "local" /\
   delivery_stream_name (obj st) <> "s3" /\
   exists data,
     calls (wld (fst (watch E capture_input capture_output call_type func args kwargs st)))
     = calls (wld st) ++ [PutRecord (delivery_stream_name (obj st)) data]).
Proof.
  destruct (inner_one_delivery E capture_input capture_output call_type func args kwargs st)
    as [_ [Hsame | (ev & Hev & Happ)]]; [ now left | right ].
  unfold watch.
  destruct ev as [ | | | bucket key body content_type | stream data ];
    simpl in Hev; try contradiction.
  - left. destruct Hev as (Hs3 & -> & ->). split; [ exact Hs3 | ]. now exists key, body.
  - right. destruct Hev as (-> & Hlocal & Hs3). repeat split; try assumption.
    now exists data.
Qed.

(** ** What a wrapped call gives back *)

Lemma inner_returns (E : env) (capture_input capture_output : bool)
  (call_type : option string) (func : target) (args : list value)
  (kwargs : list (string * value)) (st st' : state)
  (result' run_id : value) (metadata : list (string * value)) :
  reaches_delivery E capture_input capture_output call_type func args kwargs st
    result' run_id metadata st' ->
  inner E capture_input capture_output call_type func args kwargs st =
    dispatch E result' run_id (uuid4 E (uuids (wld st))) (VDict metadata) st'.
Proof.
  intros (result & out & st6 & Hfunc & Hres & Hasm & ->).
  unfold reading in Hasm.
  run_prefix. run_prefix_in Hres. run_prefix_in Hasm.
  rewrite Hfunc, Hres. cbn [fst snd]. rewrite Hasm. reflexivity.
Qed.

Lemma reaches_delivery_quiet (E : env) (capture_input capture_output : bool)
  (call_type : option string) (func : target) (args : list value)
  (kwargs : list (string * value)) (st st' : state)
  (result' run_id : value) (metadata : list (string * value)) :
  reaches_delivery E capture_input capture_output call_type func args kwargs st
    result' run_id metadata st' ->
  config_of (obj st') = config_of (obj st) /\ calls (wld st') = calls (wld st).
Proof.
  intros (result & out & st6 & Hfunc & Hres & Hasm & ->).
  pose proof (resolve_run_quiet E (input_log_of capture_input args)
                (if capture_output then result else VNone) (call_start_of E st)
                (after_call E 5 st)) as H6.
  rewrite Hres in H6.
  pose proof (assemble_quiet E call_type kwargs run_id (uuid4 E (uuids (wld st)))
                (isoformat E (reading E st 1)) (reading E st 2) (reading E st 3)
                (reading E st 4) (input_log_of capture_input args) out st6) as H7.
  rewrite Hasm in H7. simpl in H6, H7.
  split.
  - exact (eq_trans (f_equal fst H7) (f_equal fst H6)).
  - exact (eq_trans (f_equal snd H7) (f_equal snd H6)).
Qed.

Lemma metadata_update_mergeable (metadata : list (string * value)) (v : value) :
  mergeable v = true ->
  metadata_update metadata v = Ok (dict_update metadata (entries_of v)).
Proof.
  unfold metadata_update, mergeable. intros Hv.
  destruct v as [ | b | n | x | s | l | d ]; simpl in *;
    try reflexivity;
    try (apply negb_true_iff in Hv; rewrite Hv; reflexivity).
  destruct d; reflexivity.
Qed.

Lemma assemble_mergeable (E : env) (call_type : option string)
  (kwargs : list (string * value)) (run_id : value)
  (observation_id obs_timestamp : string)
  (start_time end_time logging_start_time : float) (input_log output_data : value)
  (st : state) :
  mergeable (kwargs_get kwargs "additional_metadata" (VDict [])) = true ->
  mergeable (kwargs_get kwargs "user_prompt" (VDict [])) = true ->
  assemble E call_type kwargs run_id observation_id obs_timestamp
    start_time end_time logging_start_time input_log output_data st =
    (tick st,
     Ok (dict_set "logging_duration"
           (VFloat (PrimFloat.sub (reading E st 0) logging_start_time))
           (dict_update
              (dict_update
                 (fixed_fields E (obj st) call_type run_id observation_id obs_timestamp
                    start_time end_time input_log output_data)
                 (entries_of (kwargs_get kwargs "additional_metadata" (VDict []))))
              (entries_of (kwargs_get kwargs "user_prompt" (VDict [])))))).
Proof.
  intros Hap Hup. unfold assemble, bind, get, lift, on_world, zoom, now, ret.
  cbn [fst snd].
  change (metadata_update _ (kwargs_get kwargs "additional_metadata" (VDict [])))
    with (metadata_update
            (fixed_fields E (obj st) call_type run_id observation_id obs_timestamp
               start_time end_time input_log output_data)
            (kwargs_get kwargs "additional_metadata" (VDict []))).
  rewrite (metadata_update_mergeable _ _ Hap).
  rewrite (metadata_update_mergeable _ _ Hup).
  reflexivity.
Qed.

Lemma resolve_run_plain (E : env) (input_log out : value) (t0 : float) (st : state) :
  is_agent (obj st) = false \/ out = VNone ->
  resolve_run E input_log out t0 st =
    (fst (extract_session_id E input_log st),
     match snd (extract_session_id E input_log st) with
     | Ok run_id => Ok (run_id, out)
     | Raise e => Raise e
     end).
Proof.
  intros [Hplain | ->]; unfold resolve_run, bind, get, ret.
  - rewrite Hplain.
    destruct (extract_session_id E input_log st) as [s' [a | e]]; reflexivity.
  - destruct (is_agent (obj st));
      destruct (extract_session_id E input_log st) as [s' [a | e]]; reflexivity.
Qed.

Lemma extract_session_id_ok (E : env) (log_data : value) (st : state) :
  exists run_id st', extract_session_id E log_data st = (st', Ok run_id).
Proof.
  rewrite extract_session_id_eq.
  destruct (find_keys log_data (session_key (obj st)) []) as [ | [q v] rest ]; eauto.
Qed.

Lemma plain_call_reaches (E : env) (capture_input capture_output : bool)
  (call_type : option string) (func : target) (args : list value)
  (kwargs : list (string * value)) (st : state) (result : value) :
  is_agent (obj st) = false \/ capture_output = false \/ result = VNone ->
  func args kwargs = Ok result ->
  mergeable (kwargs_get kwargs "additional_metadata" (VDict [])) = true ->
  mergeable (kwargs_get kwargs "user_prompt" (VDict [])) = true ->
  exists (run_id : value) (st6 : state),
    extract_session_id E (input_log_of capture_input args) (after_call E 5 st)
      = (st6, Ok run_id) /\
    reaches_delivery E capture_input capture_output call_type func args kwargs st
      result run_id
      (plain_record E capture_input capture_output call_type args kwargs st st6
         result run_id)
      (tick st6).
Proof.
  intros Hplain Hfunc Hap Hup.
  destruct (extract_session_id_ok E (input_log_of capture_input args) (after_call E 5 st))
    as (run_id & st6 & Hrun).
  exists run_id, st6. split; [ exact Hrun | ].
  exists result, (if capture_output then result else VNone), st6.
  refine (conj Hfunc (conj _ (conj _ _))).
  - rewrite resolve_run_plain, Hrun; [ reflexivity | ].
    destruct Hplain as [Hagent | [-> | ->]]; [ now left | now right | right ].
    now destruct capture_output.
  - now rewrite (assemble_mergeable E call_type kwargs run_id _ _ _ _ _ _ _ st6 Hap Hup).
  - now destruct capture_output.
Qed.

Lemma dispatch_local (E : env) (result run_id : value) (observation_id : string)
  (metadata : value) (s : state) :
  delivery_stream_name (obj s) = "local" ->
  dispatch E result run_id observation_id metadata s
    = (s, Ok (ResultMetadata result metadata)).
Proof.
  intros Hlocal. unfold dispatch, bind, get. simpl. now rewrite Hlocal.
Qed.

Lemma reaches_delivery_field (E : env) (capture_input capture_output : bool)
  (call_type : option string) (func : target) (args : list value)
  (kwargs : list (string * value)) (st st' : state)
  (result' run_id : value) (metadata : list (string * value)) :
  reaches_delivery E capture_input capture_output call_type func args kwargs st
    result' run_id metadata st' ->
  delivery_stream_name (obj st') = delivery_stream_name (obj st) /\
  experiment_id (obj st') = experiment_id (obj st) /\
  feedback_variables (obj st') = feedback_variables (obj st) /\
  s3_bucket_name (obj st') = s3_bucket_name (obj st) /\
  s3_client (obj st') = s3_client (obj st) /\
  firehose_client (obj st') = firehose_client (obj st) /\
  calls (wld st') = calls (wld st).
Proof.
  intros Hreach. apply reaches_delivery_quiet in Hreach as [Hcfg Hcalls].
  apply config_of_fields in Hcfg as (H1 & H2 & H3 & H4 & _ & H6 & H7). auto 10.
Qed.

(** X10: the local round trip of a call that does not go through the
    annotator (the feature label is not "Agent", or the output is not
    captured, or the function returns [None]).  When the function returns
    and the keywords [additional_metadata] and [user_prompt] are absent,
    empty or mappings, the wrapper of a recorder with the local sink returns
    the pair of the result and the record, whatever the feedback flag, after
    six clock readings and without calling a service.  The record holds the
    twelve fixed fields in their order ([duration] being the clock reading
    after the function minus the one before it, [input_log] the first
    positional argument when the input is captured and [None] otherwise,
    [output_log] the result when the output is captured and [None]
    otherwise, [run_id] what the resolver finds in the input), then the
    entries of [additional_metadata], then those of [user_prompt], then
    [logging_duration]; with neither keyword it is the fixed fields followed
    by [logging_duration]. *)
Theorem plain_local_round_trip (E : env) (capture_input capture_output : bool)
  (call_type : option string) (func : target) (args : list value)
  (kwargs : list (string * value)) (st : state) (result : value) :
  delivery_stream_name (obj st) = "local" ->
  is_agent (obj st) = false \/ capture_output = false \/ result = VNone ->
  func args kwargs = Ok result ->
  mergeable (kwargs_get kwargs "additional_metadata" (VDict [])) = true ->
  mergeable (kwargs_get kwargs "user_prompt" (VDict [])) = true ->
  exists (run_id : value) (st6 : state),
    extract_session_id E (input_log_of capture_input args) (after_call E 5 st)
      = (st6, Ok run_id) /\
    watch E capture_input capture_output call_type func args kwargs st
      = (tick st6,
         Ok (ResultMetadata result
               (VDict (plain_record E capture_input capture_output call_type args
                         kwargs st st6 result run_id)))) /\
    calls (wld (tick st6)) = calls (wld st) /\
    (dict_get "additional_metadata" kwargs = None ->
     dict_get "user_prompt" kwargs = None ->
     plain_record E capture_input capture_output call_type args kwargs st st6
       result run_id
     = fixed_fields E (obj st6) call_type run_id (uuid4 E (uuids (wld st)))
         (isoformat E (reading E st 1)) (reading E st 2) (reading E st 3)
         (input_log_of capture_input args)
         (if capture_output then result else VNone)
       ++ [("logging_duration",
            VFloat (PrimFloat.sub (reading E st6 0) (reading E st 4)))]).
Proof.
  intros Hlocal Hplain Hfunc Hap Hup.
  destruct (plain_call_reaches E capture_input capture_output call_type func args kwargs
              st result Hplain Hfunc Hap Hup) as (run_id & st6 & Hrun & Hreach).
  exists run_id, st6.
  destruct (reaches_delivery_field _ _ _ _ _ _ _ _ _ _ _ _ Hreach)
    as (Hname & _ & _ & _ & _ & _ & Hcalls).
  refine (conj Hrun (conj _ (conj Hcalls _))).
  - unfold watch. rewrite (inner_returns _ _ _ _ _ _ _ _ _ _ _ _ Hreach).
    apply dispatch_local. now rewrite Hname.
  - intros Hno_ap Hno_up. unfold plain_record, kwargs_get.
    rewrite Hno_ap, Hno_up. reflexivity.
Qed.

Lemma plain_local_round_trip_witness :
  delivery_stream_name (obj example_state) = "local" /\
  doubling [VInt 5] [] = Ok (VInt 10) /\
  exists (run_id : value) (st6 : state) (record : list (string * value)),
    watch demo_env true true (Some "Converse-API") doubling [VInt 5] [] example_state
      = (tick st6, Ok (ResultMetadata (VInt 10) (VDict record))) /\
    dict_get "input_log" record = Some (VInt 5) /\
    dict_get "output_log" record = Some (VInt 10) /\
    dict_get "call_type" record = Some (VStr "Converse-API").
Proof.
  split; [ reflexivity | ]. split; [ reflexivity | ].
  destruct (plain_local_round_trip demo_env true true (Some "Converse-API") doubling
              [VInt 5] [] example_state (VInt 10) eq_refl (or_introl eq_refl)
              eq_refl eq_refl eq_refl)
    as (run_id & st6 & Hrun & Hwatch & _ & Hrecord).
  exists run_id, st6. eexists. split; [ exact Hwatch | ].
  rewrite (Hrecord eq_refl eq_refl). repeat split.
Defined.









(** ** Merging the caller's entries into the record *)

Lemma dict_get_absent {V} (k : string) (d : list (string * V)) :
  ~ In k (map fst d) -> dict_get k d = None.
Proof.
  induction d as [ | [k' v] d IH ]; simpl; [ reflexivity | ].
  intros Hnot. destruct (String.eqb_spec k' k) as [-> | Hne].
  - exfalso. apply Hnot. now left.
  - apply IH. intros Hin. apply Hnot. now right.
Qed.

Lemma dict_get_update {V} (k : string) (other : list (string * V)) :
  keys_distinct other ->
  forall d : list (string * V),
    dict_get k (dict_update d other) =
      match dict_get k other with
      | Some v => Some v
      | None => dict_get k d
      end.
Proof.
  unfold keys_distinct, dict_update.
  induction other as [ | [k' v] other IH ]; intros Hnodup d; simpl; [ reflexivity | ].
  inversion Hnodup as [ | ? ? Hnotin Hnodup' ]; subst.
  rewrite (IH Hnodup').
  destruct (String.eqb_spec k' k) as [-> | Hne].
  - rewrite (dict_get_absent k other);
      [ apply dict_get_set_eq | intros Hin; apply Hnotin, list_elem_of_In, Hin ].
  - destruct (dict_get k other); [ reflexivity | ]. now apply dict_get_set_ne.
Qed.

(** X13: how the record is merged.  With [additional_metadata] and
    [user_prompt] absent, empty or mappings of distinct keys, the record is
    assembled with one clock reading, and in it [logging_duration] is always
    the computed duration, which no keyword can take over, while every other
    key has the value [user_prompt] gives it, else the value
    [additional_metadata] gives it, else the fixed field: the caller's
    entries replace the fixed fields, [run_id] and [observation_id]
    included. *)
Theorem record_merge_precedence (E : env) (call_type : option string)
  (kwargs : list (string * value)) (run_id : value)
  (observation_id obs_timestamp : string)
  (start_time end_time logging_start_time : float) (input_log output_data : value)
  (st : state) :
  mergeable (kwargs_get kwargs "additional_metadata" (VDict [])) = true ->
  mergeable (kwargs_get kwargs "user_prompt" (VDict [])) = true ->
  keys_distinct (entries_of (kwargs_get kwargs "additional_metadata" (VDict []))) ->
  keys_distinct (entries_of (kwargs_get kwargs "user_prompt" (VDict []))) ->
  exists metadata : list (string * value),
    assemble E call_type kwargs run_id observation_id obs_timestamp
      start_time end_time logging_start_time input_log output_data st
      = (tick st, Ok metadata) /\
    dict_get "logging_duration" metadata
      = Some (VFloat (PrimFloat.sub (reading E st 0) logging_start_time)) /\
    forall k : string,
      k <> "logging_duration" ->
      dict_get k metadata =
        match dict_get k (entries_of (kwargs_get kwargs "user_prompt" (VDict []))) with
        | Some v => Some v
        | None =>
            match dict_get k
                    (entries_of (kwargs_get kwargs "additional_metadata" (VDict []))) with
            | Some v => Some v
            | None =>
                dict_get k
                  (fixed_fields E (obj st) call_type run_id observation_id obs_timestamp
                     start_time end_time input_log output_data)
            end
        end.
Proof.
  intros Hap Hup Hdap Hdup. eexists.
  refine (conj (assemble_mergeable E call_type kwargs run_id observation_id
                  obs_timestamp start_time end_time logging_start_time input_log
                  output_data st Hap Hup) (conj _ _)).
  - apply dict_get_set_eq.
  - intros k Hk. rewrite dict_get_set_ne by congruence.
    rewrite (dict_get_update k _ Hdup), (dict_get_update k _ Hdap). reflexivity.
Qed.

Lemma record_merge_precedence_witness :
  exists metadata : list (string * value),
    assemble demo_env (Some "Converse-API") overriding_kwargs (VStr "generated")
      "obs" "now" 1%float 2%float 3%float VNone VNone example_state
      = (tick example_state, Ok metadata) /\
    dict_get "logging_duration" metadata
      = Some (VFloat (PrimFloat.sub (reading demo_env example_state 0) 3%float)) /\
    dict_get "run_id" metadata = Some (VStr "mine").
Proof.
  destruct (record_merge_precedence demo_env (Some "Converse-API") overriding_kwargs
              (VStr "generated") "obs" "now" 1%float 2%float 3%float VNone VNone
              example_state)
    as (metadata & Hasm & Hduration & Hrest).
  - reflexivity.
  - reflexivity.
  - unfold keys_distinct. simpl. apply NoDup_cons. split; [ | apply NoDup_singleton ].
    intros Hin. apply list_elem_of_singleton in Hin. discriminate.
  - unfold keys_distinct. simpl. constructor.
  - exists metadata. refine (conj Hasm (conj Hduration _)).
    rewrite (Hrest "run_id") by discriminate. reflexivity.
Defined.

(** ** An annotation that fails half way *)

Lemma valid_node_accepted (node : value) :
  valid_node node -> invalid_start node = false.
Proof.
  intros Hv. apply valid_node_start in Hv as (d & s & -> & Hs & _).
  unfold invalid_start. now rewrite Hs.
Qed.

Lemma accepted_before_app_valid (a b : list value) :
  Forall valid_node a -> accepted_before (a ++ b) = a ++ accepted_before b.
Proof.
  induction 1 as [ | node a Hnode _ IH ]; simpl; [ reflexivity | ].
  now rewrite (valid_node_accepted node Hnode), IH.
Qed.

Lemma accepted_before_app_invalid (a b : list value) :
  (exists node, In node a /\ invalid_start node = true) ->
  accepted_before (a ++ b) = accepted_before a.
Proof.
  induction a as [ | x a IH ]; intros (node & Hin & Hinv); [ destruct Hin | ].
  simpl. destruct (invalid_start x) eqn:Hx; [ reflexivity | ].
  f_equal. apply IH. destruct Hin as [-> | Hin]; [ congruence | eauto ].
Qed.

Lemma for_each_cons_raise {S A B} (body : A -> M S B) (x : A) (xs : list A)
  (s s' : S) (e : exn) :
  for_each body (x :: xs) s = (s', Raise e) ->
  body x s = (s', Raise e) \/
  exists s1 y, body x s = (s1, Ok y) /\ for_each body xs s1 = (s', Raise e).
Proof.
  simpl. unfold bind, ret.
  destruct (body x s) as [s1 [y | e1]] eqn:Hx;
    [ | intros H; inversion H; subst; now left ].
  destruct (for_each body xs s1) as [s2 [ys' | e2]] eqn:Hxs; [ discriminate | ].
  intros H. inversion H; subst. right. eauto.
Qed.

Lemma advances_counter (t0 : float) (nodes nodes' : list value) (fr fr' : frame) :
  advances t0 nodes nodes' fr fr' ->
  Forall valid_node nodes /\
  frame_counter fr' = frame_counter fr + Z.of_nat (length nodes).
Proof.
  intros (Hvalid & _ & ->). split; [ exact Hvalid | reflexivity ].
Qed.

Lemma for_each_halts {A} (t0 : float) (body : A -> M frame value)
  (nodes_of : A -> list value) (nodes_of' : value -> list value) (shaped : A -> bool) :
  (forall x fr fr' x', body x fr = (fr', Ok x') ->
                       advances t0 (nodes_of x) (nodes_of' x') fr fr') ->
  (forall x fr fr' e, shaped x = true -> body x fr = (fr', Raise e) ->
                      halts (nodes_of x) fr fr') ->
  forall xs fr fr' e,
    forallb shaped xs = true ->
    for_each body xs fr = (fr', Raise e) ->
    halts (flat_map nodes_of xs) fr fr'.
Proof.
  intros Hok Hraise xs. induction xs as [ | x xs IH ]; intros fr fr' e Hsh Hrun.
  - discriminate.
  - simpl in Hsh. apply andb_true_iff in Hsh as [Hx Hxs].
    apply for_each_cons_raise in Hrun as [Hrun | (fr1 & y & Hy & Hrun)]; simpl.
    + destruct (Hraise x fr fr' e Hx Hrun) as [(node & Hin & Hinv) Hcount].
      split.
      * exists node. split; [ apply in_or_app; now left | exact Hinv ].
      * rewrite accepted_before_app_invalid by eauto. exact Hcount.
    + apply Hok, advances_counter in Hy as [Hvalid Hcount1].
      destruct (IH fr1 fr' e Hxs Hrun) as [(node & Hin & Hinv) Hcount].
      split.
      * exists node. split; [ apply in_or_app; now right | exact Hinv ].
      * rewrite (accepted_before_app_valid _ _ Hvalid), length_app, Hcount, Hcount1.
        lia.
Qed.

Lemma annotate_halts (d : list (string * value)) (t0 : float) (fr fr' : frame) (e : exn) :
  dict_mem "start_trace_time" d = true ->
  annotate (VDict d) t0 fr = (fr', Raise e) ->
  halts [VDict d] fr fr'.
Proof.
  intros Hd Hrun.
  destruct (annotate_dict_outcome d t0 fr Hd)
    as [(_ & fr1 & x1 & Hok) | (Hinvalid & Hraise)]; [ congruence | ].
  rewrite Hraise in Hrun. inversion Hrun; subst. split.
  - exists (VDict d). split; [ now left | exact Hinvalid ].
  - simpl. rewrite Hinvalid. simpl. lia.
Qed.

Lemma annotate_trace_of_halts (d : list (string * value)) (t0 : float)
  (fr fr' : frame) (e : exn) :
  dict_mem "trace" d = true ->
  trace_is_mapping (VDict d) = true ->
  annotate_trace_of (VDict d) t0 fr = (fr', Raise e) ->
  halts (node_under_trace (VDict d)) fr fr'.
Proof.
  intros Hmem Hsh Hrun. apply dict_mem_get in Hmem as [tr Htr].
  unfold trace_is_mapping in Hsh. unfold node_under_trace.
  unfold annotate_trace_of, bind, lift in Hrun. simpl in *. rewrite Htr in *.
  destruct tr as [ | b | n | x | s | l | td ]; try discriminate. simpl in Hrun.
  destruct (dict_mem "start_trace_time" td) eqn:Htd; [ | discriminate ].
  destruct (annotate (VDict td) t0 fr) as [fr1 [tr' | e1]] eqn:Han;
    [ discriminate | ].
  inversion Hrun; subst. eapply annotate_halts; eassumption.
Qed.

Lemma visit_item_halts (t0 : float) (item : value) (fr fr' : frame) (e : exn) :
  item_shaped item = true ->
  visit_item item t0 fr = (fr', Raise e) ->
  halts (nodes_of_item item) fr fr'.
Proof.
  intros Hsh Hrun.
  destruct item as [ | b | n | x | s | l | d ]; try discriminate.
  simpl in *. destruct (dict_mem "start_trace_time" d) eqn:Hd.
  - eapply annotate_halts; eassumption.
  - destruct (dict_mem "trace" d) eqn:Htr; [ | discriminate ].
    eapply annotate_trace_of_halts; eassumption.
Qed.

Lemma visit_data_halts (t0 : float) (data : value) (fr fr' : frame) (e : exn) :
  data_shaped data = true ->
  visit_data data t0 fr = (fr', Raise e) ->
  halts (nodes_of_data data) fr fr'.
Proof.
  intros Hsh Hrun.
  destruct data as [ | b | n | x | s | l | d ]; try discriminate.
  - simpl in *. unfold bind, ret in Hrun.
    destruct (for_each (fun item => visit_item item t0) l fr) as [fr1 [l' | e1]] eqn:Hl;
      [ discriminate | ].
    inversion Hrun; subst.
    eapply (for_each_halts t0 _ nodes_of_item nodes_of_item item_shaped);
      [ | | exact Hsh | exact Hl ].
    + intros. now apply visit_item_advances.
    + intros x fr0 fr0' e0 Hx Hx0. exact (visit_item_halts t0 x fr0 fr0' e0 Hx Hx0).
  - simpl in *. destruct (dict_mem "trace" d) eqn:Htr; [ | discriminate ].
    eapply annotate_trace_of_halts; eassumption.
Qed.

Lemma handle_agent_feature_halts (l : list value) (t0 : float)
  (r r' : BedrockLogs) (e : exn) :
  traces_are_mappings (VList l) = true ->
  handle_agent_feature (VList l) t0 r = (r', Raise e) ->
  step_counter r' =
    step_counter r + Z.of_nat (length (accepted_before (qualifying_nodes (VList l)))).
Proof.
  intros Hsh Hrun. rewrite handle_agent_feature_list in Hrun.
  destruct (for_each _ l _) as [fr [l' | e1]] eqn:Hl; [ discriminate | ].
  inversion Hrun; subst.
  apply (for_each_halts t0 _ nodes_of_data nodes_of_data data_shaped) in Hl.
  - destruct Hl as [_ Hcount]. exact Hcount.
  - intros. now apply visit_data_advances.
  - intros x fr0 fr0' e0 Hx Hx0. exact (visit_data_halts t0 x fr0 fr0' e0 Hx Hx0).
  - exact Hsh.
Qed.

(** X14: a failed annotation keeps the step numbers it handed out.  With
    feature label "Agent" and the output captured, when every [trace] value
    of the output is a mapping and some qualifying node has a
    [start_trace_time] that is not a float, the wrapper raises the
    validation error after five clock readings and one identifier, without
    calling a service, and leaves the step counter advanced by the number of
    qualifying nodes that come before the first invalid one: the numbers
    given to them are not given again. *)
Theorem failed_annotation_consumes_steps (E : env) (capture_input : bool)
  (call_type : option string) (func : target) (args : list value)
  (kwargs : list (string * value)) (st : state) (out : value) :
  is_agent (obj st) = true ->
  func args kwargs = Ok out ->
  traces_are_mappings out = true ->
  (exists node, In node (qualifying_nodes out) /\ invalid_start node = true) ->
  snd (watch E capture_input true call_type func args kwargs st)
    = Raise start_trace_time_error /\
  wld (fst (watch E capture_input true call_type func args kwargs st))
    = later 5 1 (wld st) /\
  step_counter (obj (fst (watch E capture_input true call_type func args kwargs st)))
    = step_counter (obj st)
      + Z.of_nat (length (accepted_before (qualifying_nodes out))).
Proof.
  intros Hagent Hfunc Hshaped (node & Hin & Hinvalid).
  destruct out as [ | | | | | l | ]; try contradiction.
  destruct (handle_agent_feature (VList l) (call_start_of E st) (obj (after_call E 5 st)))
    as [r' res] eqn:Hrun.
  pose proof (handle_agent_feature_outcome l _ _ _ _ Hrun) as Hout.
  assert (He : res = Raise start_trace_time_error).
  { destruct Hout as [ x' Hvalid | bad Hbad Hbadinv | e Hsh He ].
    - rewrite Forall_forall in Hvalid.
      assert (Hn : invalid_start node = false)
        by (apply Hvalid; now apply list_elem_of_In).
      congruence.
    - reflexivity.
    - simpl in Hsh, Hshaped. congruence. }
  subst res.
  assert (Hwatch : watch E capture_input true call_type func args kwargs st
            = ({| obj := r'; wld := wld (after_call E 5 st) |},
               Raise start_trace_time_error)).
  { unfold watch.
    apply (inner_resolve_raises E capture_input true call_type func args kwargs st
             _ (VList l) _ Hfunc).
    apply resolve_run_annotation_raises; [ exact Hagent | discriminate | exact Hrun ]. }
  rewrite Hwatch. simpl. refine (conj eq_refl (conj eq_refl _)).
  apply (handle_agent_feature_halts l _ _ _ _ Hshaped Hrun).
Qed.

Lemma failed_annotation_consumes_steps_witness :
  snd (watch demo_env true true None (constant_target half_bad_output) [VInt 5] []
         agent_state)
    = Raise start_trace_time_error /\
  step_counter
    (obj (fst (watch demo_env true true None (constant_target half_bad_output)
                 [VInt 5] [] agent_state)))
    = 6.
Proof.
  destruct (failed_annotation_consumes_steps demo_env true None
              (constant_target half_bad_output) [VInt 5] [] agent_state half_bad_output)
    as (Hraise & _ & Hcount).
  - reflexivity.
  - reflexivity.
  - reflexivity.
  - exists (VDict [("start_trace_time", VStr "noon")]).
    split; [ right; now left | reflexivity ].
  - split; [ exact Hraise | ]. rewrite Hcount. reflexivity.
Defined.

(** ** What the annotation leaves alone *)

Lemma dict_set_keys {V} (k : string) (v : V) (d : list (string * V)) :
  map fst d `prefix_of` map fst (dict_set k v d).
Proof.
  induction d as [ | [k' v'] d IH ]; simpl.
  - apply prefix_nil.
  - destruct (String.eqb_spec k' k) as [-> | Hne]; simpl.
    + reflexivity.
    + now apply prefix_cons.
Qed.

Lemma only_annotated_annotated (d : list (string * value)) (s base : float) (n : Z) :
  exists d', annotated d s base n = VDict d' /\ only_annotated d d'.
Proof.
  unfold annotated. eexists. split; [ reflexivity | ].
  refine (conj _ (conj _ (conj _ _))).
  - etransitivity; apply dict_set_keys.
  - rewrite dict_mem_set_ne by discriminate. apply dict_mem_set_eq.
  - apply dict_mem_set_eq.
  - intros k Hlat Hstep. now rewrite !dict_get_set_ne by congruence.
Qed.

Lemma annotate_only (d : list (string * value)) (t0 : float) (fr fr' : frame)
  (x' : value) :
  annotate (VDict d) t0 fr = (fr', Ok x') ->
  exists d', only_annotated d d' /\ x' = VDict d'.
Proof.
  intros Hrun.
  destruct (dict_get "start_trace_time" d) as [v | ] eqn:Hv.
  - destruct (is_float v) eqn:Hfloat.
    + destruct v; try discriminate.
      rewrite (annotate_float d _ t0 fr Hv) in Hrun. inversion Hrun; subst.
      destruct (only_annotated_annotated d x (base_time t0 (prev_trace_time fr))
                  (step_counter (self fr))) as (d' & -> & Hd').
      eauto.
    + rewrite (annotate_not_float d v t0 fr Hv Hfloat) in Hrun. discriminate.
  - unfold annotate, bind, lift in Hrun. simpl in Hrun. rewrite Hv in Hrun.
    discriminate.
Qed.

Lemma annotate_trace_of_kept (d : list (string * value)) (t0 : float)
  (fr fr' : frame) (x' : value) :
  annotate_trace_of (VDict d) t0 fr = (fr', Ok x') -> trace_annotated d x'.
Proof.
  intros Hrun. unfold trace_annotated.
  unfold annotate_trace_of, bind, lift in Hrun. simpl in Hrun.
  destruct (dict_get "trace" d) as [tr | ] eqn:Htr; [ | discriminate ].
  destruct tr as [ | b | n | x | s | l | td ]; simpl in Hrun; try discriminate.
  - (* a string *)
    destruct (is_substring "start_trace_time" s); [ discriminate | ].
    now inversion Hrun.
  - (* a list *)
    match type of Hrun with context [existsb ?f l] => destruct (existsb f l) end;
      [ discriminate | ].
    now inversion Hrun.
  - (* a mapping *)
    destruct (dict_mem "start_trace_time" td); [ | now inversion Hrun ].
    destruct (annotate (VDict td) t0 fr) as [fr1 [tr' | e]] eqn:Han;
      [ | discriminate ].
    apply annotate_only in Han as (td' & Htd' & ->).
    inversion Hrun; subst. eauto.
Qed.

Lemma visit_item_kept (item : value) (t0 : float) (fr fr' : frame) (x' : value) :
  visit_item item t0 fr = (fr', Ok x') -> item_kept item x'.
Proof.
  intros Hrun.
  destruct item as [ | b | n | x | s | l | d ]; try (now inversion Hrun).
  simpl in *. destruct (dict_mem "start_trace_time" d).
  - now apply annotate_only in Hrun.
  - destruct (dict_mem "trace" d).
    + now apply annotate_trace_of_kept in Hrun.
    + now inversion Hrun.
Qed.

Lemma for_each_kept {S} (body : value -> M S value) (keeps : value -> value -> Prop) :
  (forall x s s' x', body x s = (s', Ok x') -> keeps x x') ->
  forall xs s s' xs', for_each body xs s = (s', Ok xs') -> Forall2 keeps xs xs'.
Proof.
  intros Hbody xs. induction xs as [ | x xs IH ]; intros s s' xs' Hrun.
  - inversion Hrun; subst. constructor.
  - apply for_each_cons_ok in Hrun as (s1 & y & ys & Hx & Hxs & ->).
    constructor; eauto.
Qed.

Lemma visit_data_kept (data : value) (t0 : float) (fr fr' : frame) (x' : value) :
  visit_data data t0 fr = (fr', Ok x') -> data_kept data x'.
Proof.
  intros Hrun.
  destruct data as [ | b | n | x | s | l | d ]; try (now inversion Hrun).
  - simpl in *. unfold bind, ret in Hrun.
    destruct (for_each (fun item => visit_item item t0) l fr) as [fr1 [l' | e]] eqn:Hl;
      [ | discriminate ].
    inversion Hrun; subst. exists l'. split; [ reflexivity | ].
    apply (for_each_kept (fun item => visit_item item t0) item_kept) in Hl;
      [ exact Hl | ].
    intros x0 s0 s0' x0' H0. exact (visit_item_kept x0 t0 s0 s0' x0' H0).
  - simpl in *. destruct (dict_mem "trace" d).
    + now apply annotate_trace_of_kept in Hrun.
    + now inversion Hrun.
Qed.

Lemma handle_agent_feature_list_kept (l : list value) (t0 : float)
  (r r' : BedrockLogs) (out' : value) :
  handle_agent_feature (VList l) t0 r = (r', Ok out') ->
  exists l', out' = VList l' /\ Forall2 data_kept l l'.
Proof.
  intros Hrun. rewrite handle_agent_feature_list in Hrun.
  destruct (for_each _ l _) as [fr [l' | e]] eqn:Hl; [ | discriminate ].
  inversion Hrun; subst. exists l'. split; [ reflexivity | ].
  apply (for_each_kept (fun data => visit_data data t0) data_kept) in Hl; [ exact Hl | ].
  intros x0 s0 s0' x0' H0. exact (visit_data_kept x0 t0 s0 s0' x0' H0).
Qed.

(** X15: the annotation loses nothing and writes nowhere else.  When the
    annotator returns, an output that is not a list comes back as it is,
    and a list comes back with the same length and order, element by
    element: a top-level mapping without [trace], a nested element that is
    no mapping or a mapping with neither [start_trace_time] nor [trace], and
    anything that is neither a mapping nor a list come back as they are; a
    mapping under whose [trace] lies a mapping with [start_trace_time] comes
    back with that value annotated and put back under [trace], at the same
    position, and nothing else changed; a nested mapping with
    [start_trace_time] comes back annotated.  An annotated mapping has its
    keys in their order, new keys after them, holds [latency] and
    [step_number], and has under every other key exactly what it had. *)
Theorem annotation_keeps_data (output_data : value) (call_start : float)
  (r r' : BedrockLogs) (out' : value) :
  handle_agent_feature output_data call_start r = (r', Ok out') ->
  output_kept output_data out'.
Proof.
  intros Hrun. destruct (is_list output_data) eqn:Hlist.
  - destruct output_data as [ | | | | | l | ]; try discriminate.
    exact (handle_agent_feature_list_kept l call_start r r' out' Hrun).
  - pose proof (handle_agent_feature_not_list output_data call_start r Hlist) as Hsnd.
    rewrite Hrun in Hsnd. simpl in Hsnd.
    destruct (iterate output_data); [ | discriminate ].
    inversion Hsnd; subst. destruct output_data; try discriminate; reflexivity.
Qed.

Lemma annotation_keeps_data_witness :
  exists (r' : BedrockLogs) (out' : value),
    handle_agent_feature mixed_output 10 (demo_agent 5) = (r', Ok out') /\
    out' =
      VList
        [ VDict [("foo", VDict [("start_trace_time", VFloat 11.5)]);
                 ("latency", VStr "kept")];
          VList
            [ VDict [("trace", VDict [("start_trace_time", VFloat 13);
                                      ("step_number", VInt 5);
                                      ("latency", VFloat 3)]);
                     ("note", VList [VInt 1])] ] ] /\
    output_kept mixed_output out'.
Proof.
  eexists. eexists.
  assert (Hrun :
    handle_agent_feature mixed_output 10 (demo_agent 5)
    = (set_session_id (Some VNone) (demo_agent 6),
       Ok (VList
             [ VDict [("foo", VDict [("start_trace_time", VFloat 11.5)]);
                      ("latency", VStr "kept")];
               VList
                 [ VDict [("trace", VDict [("start_trace_time", VFloat 13);
                                           ("step_number", VInt 5);
                                           ("latency", VFloat 3)]);
                          ("note", VList [VInt 1])] ] ])))
    by reflexivity.
  refine (conj Hrun (conj eq_refl _)).
  exact (annotation_keeps_data mixed_output 10 (demo_agent 5) _ _ Hrun).
Defined.

(** ** An agent output that cannot be annotated *)

Lemma handle_agent_feature_scalar (out : value) (t0 : float) (r : BedrockLogs) :
  is_list out = false ->
  handle_agent_feature out t0 r =
    (set_session_id (Some VNone) r,
     match iterate out with
     | Ok _ => Ok out
     | Raise e => Raise e
     end).
Proof.
  intros Hlist. unfold handle_agent_feature, bind, modify, lift, zoom, ret.
  destruct (iterate out) as [elems | e] eqn:Hit; [ | reflexivity ].
  destruct (iterate_strings out elems Hlist Hit) as [ss ->].
  rewrite for_each_visit_strings. now destruct out.
Qed.

(** X16: an agent output that is a number, a flag or the empty string.
    With feature label "Agent" and the output captured, a function that
    returns a number or a flag makes the wrapper raise [TypeError] (the
    annotator cannot iterate it), and one that returns the empty string
    makes it raise [IndexError] (the annotator has nothing to visit and
    [output_data[0]] finds no character).  In each case the exception comes
    after five clock readings and one identifier, no service is called,
    nothing is delivered, the step counter is where it was and the session
    attribute has been cleared. *)
Theorem agent_scalar_output_raises (E : env) (capture_input : bool)
  (call_type : option string) (func : target) (args : list value)
  (kwargs : list (string * value)) (st : state) (out : value) (e : exn) :
  is_agent (obj st) = true ->
  func args kwargs = Ok out ->
  scalar_output_error out = Some e ->
  watch E capture_input true call_type func args kwargs st
    = (annotator_entered E st, Raise e) /\
  calls (wld (annotator_entered E st)) = calls (wld st) /\
  step_counter (obj (annotator_entered E st)) = step_counter (obj st) /\
  session_id (obj (annotator_entered E st)) = Some VNone.
Proof.
  intros Hagent Hfunc Herr. refine (conj _ (conj eq_refl (conj eq_refl eq_refl))).
  unfold watch, annotator_entered.
  apply (inner_resolve_raises E capture_input true call_type func args kwargs st
           _ out e Hfunc).
  assert (Hlist : is_list out = false) by (destruct out; try reflexivity; discriminate).
  pose proof (handle_agent_feature_scalar out (call_start_of E st)
                (obj (after_call E 5 st)) Hlist) as Hrun.
  assert (Hnone : out <> VNone) by (intros ->; discriminate).
  destruct out as [ | b | n | x | s | l | d ]; try discriminate.
  - inversion Herr; subst.
    now apply resolve_run_annotation_raises.
  - inversion Herr; subst.
    now apply resolve_run_annotation_raises.
  - inversion Herr; subst.
    now apply resolve_run_annotation_raises.
  - destruct s; [ | discriminate ]. inversion Herr; subst.
    now apply (resolve_run_first_item_raises E _ (VStr EmptyString) (VStr EmptyString)).
Qed.

Lemma agent_scalar_output_raises_witness :
  snd (watch demo_env true true None (constant_target (VInt 42)) [VInt 5] []
         agent_state)
    = Raise TypeError /\
  step_counter
    (obj (fst (watch demo_env true true None (constant_target (VInt 42))
                 [VInt 5] [] agent_state)))
    = 5.
Proof.
  destruct (agent_scalar_output_raises demo_env true None
              (constant_target (VInt 42)) [VInt 5] [] agent_state (VInt 42)
              TypeError eq_refl eq_refl eq_refl)
    as (Hwatch & _ & Hcount & _).
  rewrite Hwatch. split; [ reflexivity | exact Hcount ].
Defined.

(** ** The round trip of an agent call *)

Lemma handle_agent_feature_valid_returns (l : list value) (t0 : float)
  (r : BedrockLogs) :
  traces_are_mappings (VList l) = true ->
  (forall node, In node (qualifying_nodes (VList l)) -> invalid_start node = false) ->
  exists r' out', handle_agent_feature (VList l) t0 r = (r', Ok out').
Proof.
  intros Hshaped Hvalid.
  destruct (handle_agent_feature (VList l) t0 r) as [r' res] eqn:Hrun.
  pose proof (handle_agent_feature_outcome l _ _ _ _ Hrun) as Hout.
  destruct Hout as [ x' _ | bad Hbad Hbadinv | e Hsh He ].
  - eauto.
  - apply Hvalid in Hbad. congruence.
  - simpl in Hsh, Hshaped. congruence.
Qed.

Lemma resolve_run_agent (E : env) (input_log out out' head run_id : value)
  (t0 : float) (st st6 : state) (r' : BedrockLogs) :
  is_agent (obj st) = true ->
  out <> VNone ->
  handle_agent_feature out t0 (obj st) = (r', Ok out') ->
  first_item out' = Ok head ->
  extract_session_id E head {| obj := r'; wld := wld st |} = (st6, Ok run_id) ->
  resolve_run E input_log out t0 st = (st6, Ok (run_id, out')).
Proof.
  intros Hagent Hout Hrun Hfirst Hid.
  unfold resolve_run, bind, get, on_obj, zoom, lift, ret. rewrite Hagent.
  destruct out; try contradiction; rewrite Hrun, Hfirst, Hid; reflexivity.
Qed.

(** X17: the local round trip of an agent call.  With feature label
    "Agent", the local sink and the output captured, when the function
    returns a non-empty list whose [trace] values are mappings and whose
    qualifying nodes all carry a float [start_trace_time], and the keywords
    [additional_metadata] and [user_prompt] are absent, empty or mappings,
    the wrapper returns the pair of the annotated list and the record.  The
    run identifier is resolved in the first element of the annotated list,
    not in the input; the record logs the annotated list as its output; no
    service is called; and the step counter has advanced by the number of
    qualifying nodes. *)
Theorem agent_local_round_trip (E : env) (capture_input : bool)
  (call_type : option string) (func : target) (args : list value)
  (kwargs : list (string * value)) (st : state) (x : value) (l : list value) :
  delivery_stream_name (obj st) = "local" ->
  is_agent (obj st) = true ->
  func args kwargs = Ok (VList (x :: l)) ->
  traces_are_mappings (VList (x :: l)) = true ->
  (forall node, In node (qualifying_nodes (VList (x :: l))) ->
                invalid_start node = false) ->
  mergeable (kwargs_get kwargs "additional_metadata" (VDict [])) = true ->
  mergeable (kwargs_get kwargs "user_prompt" (VDict [])) = true ->
  exists (r' : BedrockLogs) (x' : value) (l' : list value) (run_id : value)
         (st6 : state),
    handle_agent_feature (VList (x :: l)) (call_start_of E st) (obj (after_call E 5 st))
      = (r', Ok (VList (x' :: l'))) /\
    length l' = length l /\
    extract_session_id E x' {| obj := r'; wld := wld (after_call E 5 st) |}
      = (st6, Ok run_id) /\
    watch E capture_input true call_type func args kwargs st
      = (tick st6,
         Ok (ResultMetadata (VList (x' :: l'))
               (VDict (plain_record E capture_input true call_type args kwargs
                         st st6 (VList (x' :: l')) run_id)))) /\
    calls (wld (tick st6)) = calls (wld st) /\
    step_counter (obj (tick st6))
      = step_counter (obj st)
        + Z.of_nat (length (qualifying_nodes (VList (x :: l)))).
Proof.
  intros Hlocal Hagent Hfunc Hshaped Hvalid Hap Hup.
  destruct (handle_agent_feature_valid_returns (x :: l) (call_start_of E st)
              (obj (after_call E 5 st)) Hshaped Hvalid) as (r' & out' & Hrun).
  destruct (handle_agent_feature_list_kept _ _ _ _ _ Hrun) as (l0 & -> & Hkept).
  inversion Hkept as [ | ? x' ? l' _ Hrest ]; subst.
  destruct (extract_session_id_ok E x' {| obj := r'; wld := wld (after_call E 5 st) |})
    as (run_id & st6 & Hid).
  exists r', x', l', run_id, st6.
  assert (Hres : resolve_run E (input_log_of capture_input args) (VList (x :: l))
                   (call_start_of E st) (after_call E 5 st)
                 = (st6, Ok (run_id, VList (x' :: l')))).
  { apply (resolve_run_agent E _ _ _ x' run_id _ _ _ r');
      [ exact Hagent | discriminate | exact Hrun | reflexivity | exact Hid ]. }
  assert (Hreach : reaches_delivery E capture_input true call_type func args kwargs st
                     (VList (x' :: l')) run_id
                     (plain_record E capture_input true call_type args kwargs st st6
                        (VList (x' :: l')) run_id)
                     (tick st6)).
  { exists (VList (x :: l)), (VList (x' :: l')), st6.
    refine (conj Hfunc (conj Hres (conj _ eq_refl))).
    now rewrite (assemble_mergeable E call_type kwargs run_id _ _ _ _ _ _ _ st6 Hap Hup). }
  destruct (reaches_delivery_field _ _ _ _ _ _ _ _ _ _ _ _ Hreach)
    as (Hname & _ & _ & _ & _ & _ & Hcalls).
  refine (conj Hrun (conj _ (conj Hid (conj _ (conj Hcalls _))))).
  - symmetry. exact (Forall2_length _ _ _ Hrest).
  - unfold watch. rewrite (inner_returns _ _ _ _ _ _ _ _ _ _ _ _ Hreach).
    apply dispatch_local. now rewrite Hname.
  - pose proof (extract_session_id_obj E x'
                  {| obj := r'; wld := wld (after_call E 5 st) |}) as Hobj.
    rewrite Hid in Hobj. simpl in Hobj. simpl. rewrite Hobj.
    apply handle_agent_feature_advances in Hrun as (_ & _ & Hfr).
    inversion Hfr as [Hr']. reflexivity.
Qed.

Lemma agent_local_round_trip_witness :
  exists (out' run_id : value) (st6 : state),
    watch demo_env true true None (constant_target demo_output) [VInt 5] [] agent_state
      = (tick st6,
         Ok (ResultMetadata out'
               (VDict (plain_record demo_env true true None [VInt 5] [] agent_state
                         st6 out' run_id)))) /\
    step_counter (obj (tick st6)) = 8.
Proof.
  destruct (agent_local_round_trip demo_env true None (constant_target demo_output)
              [VInt 5] [] agent_state
              (VDict [("trace", VDict [("start_trace_time", VFloat 11.5)])])
              [ VList
                  [ VDict [("start_trace_time", VFloat 13)];
                    VDict [("trace", VDict [("start_trace_time", VFloat 14.25)])] ] ])
    as (r' & x' & l' & run_id & st6 & _ & _ & _ & Hwatch & _ & Hcount).
  - reflexivity.
  - reflexivity.
  - reflexivity.
  - reflexivity.
  - intros node [<- | [<- | [<- | []]]]; reflexivity.
  - reflexivity.
  - reflexivity.
  - exists (VList (x' :: l')), run_id, st6.
    split; [ exact Hwatch | ]. rewrite Hcount. reflexivity.
Defined.

(** ** Annotations in a row *)

Lemma advanced_step_number (t0 : float) (nodes nodes' : list value) (fr fr' : frame)
  (k : nat) (node' : value) :
  advances t0 nodes nodes' fr fr' ->
  nodes' !! k = Some node' ->
  (k < length nodes)%nat /\
  getitem node' "step_number" = Ok (VInt (frame_counter fr + Z.of_nat k)).
Proof.
  intros (Hvalid & -> & _) Hk.
  assert (Hlt : (k < length nodes)%nat).
  { rewrite <- (timeline_length t0 nodes (prev_trace_time fr) (step_counter (self fr))
                  Hvalid).
    apply lookup_lt_is_Some. eauto. }
  split; [ exact Hlt | ].
  destruct (lookup_lt_is_Some_2 nodes k Hlt) as [node Hnode].
  destruct (timeline_lookup t0 nodes (prev_trace_time fr) (step_counter (self fr))
              k node Hvalid Hnode) as (d & s & base & _ & _ & _ & Ht).
  rewrite Ht in Hk. inversion Hk; subst. apply annotated_step_number.
Qed.

(** X18: a recorder never hands out a step number twice.  When the
    annotator returns for one output and then, on the recorder it left, for
    another, the k-th qualifying node of the second output is numbered from
    where the first run stopped (the counter before the first run, plus the
    number of qualifying nodes of the first output, plus k), and no node of
    the second output carries the step number of a node of the first. *)
Theorem consecutive_annotations_continue (out1 out2 : value) (t1 t2 : float)
  (r r1 r2 : BedrockLogs) (out1' out2' : value) :
  handle_agent_feature out1 t1 r = (r1, Ok out1') ->
  handle_agent_feature out2 t2 r1 = (r2, Ok out2') ->
  step_counter r2 =
    step_counter r + Z.of_nat (length (qualifying_nodes out1))
                   + Z.of_nat (length (qualifying_nodes out2)) /\
  (forall (k : nat) (node : value),
      qualifying_nodes out2' !! k = Some node ->
      getitem node "step_number" =
        Ok (VInt (step_counter r + Z.of_nat (length (qualifying_nodes out1))
                  + Z.of_nat k))) /\
  (forall (j k : nat) (node1 node2 : value),
      qualifying_nodes out1' !! j = Some node1 ->
      qualifying_nodes out2' !! k = Some node2 ->
      getitem node1 "step_number" <> getitem node2 "step_number").
Proof.
  intros Hrun1 Hrun2.
  apply handle_agent_feature_advances in Hrun1 as Hadv1.
  apply handle_agent_feature_advances in Hrun2 as Hadv2.
  assert (Hr1 : step_counter r1 =
                step_counter r + Z.of_nat (length (qualifying_nodes out1))).
  { destruct Hadv1 as (_ & _ & Hfr). inversion Hfr as [Hr]. reflexivity. }
  assert (Hsecond : forall (k : nat) (node : value),
             qualifying_nodes out2' !! k = Some node ->
             getitem node "step_number" =
               Ok (VInt (step_counter r + Z.of_nat (length (qualifying_nodes out1))
                         + Z.of_nat k))).
  { intros k node Hk.
    destruct (advanced_step_number _ _ _ _ _ k node Hadv2 Hk) as [_ Hn].
    rewrite Hn. unfold frame_counter. simpl. now rewrite Hr1. }
  refine (conj _ (conj Hsecond _)).
  - destruct Hadv2 as (_ & _ & Hfr). inversion Hfr as [Hr]. simpl. now rewrite Hr1.
  - intros j k node1 node2 Hj Hk.
    destruct (advanced_step_number _ _ _ _ _ j node1 Hadv1 Hj) as [Hlt Hn1].
    rewrite Hn1, (Hsecond k node2 Hk). unfold frame_counter. simpl.
    intros Heq. inversion Heq. lia.
Qed.

Lemma consecutive_annotations_continue_witness :
  exists (r1 r2 : BedrockLogs) (out1' out2' : value),
    handle_agent_feature demo_output 10 (demo_agent 5) = (r1, Ok out1') /\
    handle_agent_feature demo_output 20 r1 = (r2, Ok out2') /\
    step_counter r2 = 11 /\
    (forall (k : nat) (node : value),
        qualifying_nodes out2' !! k = Some node ->
        getitem node "step_number" = Ok (VInt (8 + Z.of_nat k))).
Proof.
  eexists. eexists. eexists. eexists.
  split; [ reflexivity | ]. split; [ reflexivity | ].
  destruct (consecutive_annotations_continue demo_output demo_output 10 20
              (demo_agent 5) _ _ _ _ eq_refl eq_refl) as (Hcount & Hsecond & _).
  split; [ exact Hcount | exact Hsecond ].
Defined.
